(** * decor/observe: change observation over plain objects

    A shallow embedding of [src/observe.js] and the properties of its
    diffing, interception, batching and delivery machinery. *)

From Stdlib Require Import ZArith NArith String List Bool Lia.
From Stdlib Require Import DecimalString.
From Stdlib Require Import Floats.SpecFloat.
From stdpp Require Import base option list sorting gmap strings.

Local Open Scope string_scope.

(** ** Values

    JavaScript values that a plain record can hold.  Numbers are IEEE-754
    binary64 values, given by the standard library's [spec_float] with 53
    bits of precision; objects are references into the heap; a function is
    known by its identity only, and so is a symbol.  A symbol made by
    [Symbol()] draws its identity from the supply the objects draw theirs
    from, so that the WeakMap, keyed by identity, can hold both; a symbol
    made by [Symbol.for] is registered, and no WeakMap takes it. *)

Abbreviation loc := nat (only parsing).

Inductive value :=
| VUndef
| VNull
| VBool (b : bool)
| VNum (x : spec_float)
| VStr (s : string)
| VFun (f : nat)
| VObj (l : loc)
| VBigInt (z : Z)
| VSym (registered : bool) (l : loc).

Definition prec : Z := 53.
Definition emax : Z := 1024.

Definition pzero : value := VNum (S754_zero false).
Definition nzero : value := VNum (S754_zero true).
Definition nan : value := VNum S754_nan.

(** A small integer as a JavaScript number. *)
Definition num (z : Z) : value :=
  VNum (binary_normalize prec emax z 0 false).

#[global] Instance spec_float_eq_dec : EqDecision spec_float.
Proof. solve_decision. Defined.

#[global] Instance value_eq_dec : EqDecision value.
Proof. solve_decision. Defined.

(** [lhs === rhs] *)
Definition strict_eq (lhs rhs : value) : bool :=
  match lhs, rhs with
  | VUndef, VUndef => true
  | VNull, VNull => true
  | VBool a, VBool b => Bool.eqb a b
  | VNum x, VNum y => SFeqb x y
  | VStr s, VStr t => String.eqb s t
  | VFun f, VFun g => Nat.eqb f g
  | VObj a, VObj b => Nat.eqb a b
  | VBigInt a, VBigInt b => Z.eqb a b
  | VSym r a, VSym t b => Bool.eqb r t && Nat.eqb a b
  | _, _ => false
  end.

(** [lhs !== rhs] *)
Definition strict_ne (lhs rhs : value) : bool := negb (strict_eq lhs rhs).

(** [1 / v].  In [js_is] the quotient is evaluated only behind [lhs === rhs]
    and a failed [lhs !== 0], that is on numbers; other operands, which
    JavaScript would first coerce or refuse, have no quotient here. *)
Definition one_over (v : value) : option spec_float :=
  match v with
  | VNum x => Some (SFdiv prec emax (SFone prec emax) x)
  | _ => None
  end.

(** [1 / lhs === 1 / rhs] *)
Definition same_reciprocal (lhs rhs : value) : bool :=
  match one_over lhs, one_over rhs with
  | Some a, Some b => SFeqb a b
  | _, _ => false
  end.

(** [is(lhs, rhs)]: the Object.is() polyfill ([is] is reserved here). *)
Definition js_is (lhs rhs : value) : bool :=
  strict_eq lhs rhs && (strict_ne lhs pzero || same_reciprocal lhs rhs)
  || strict_ne lhs lhs && strict_ne rhs rhs.

(** Truthiness, and [v && typeof v === "object"]. *)
Definition truthy (v : value) : bool :=
  match v with
  | VUndef | VNull => false
  | VBool b => b
  | VNum (S754_zero _) | VNum S754_nan => false
  | VNum _ => true
  | VStr s => negb (String.eqb s "")
  | VBigInt z => negb (Z.eqb z 0)
  | VFun _ | VObj _ | VSym _ _ => true
  end.

Definition typeof_object (v : value) : bool :=
  match v with
  | VNull | VObj _ => true
  | _ => false
  end.

Definition is_object (v : value) : bool := truthy v && typeof_object v.

(** ** Objects, listeners and the module state *)

(** The members every plain object inherits from [Object.prototype]; the
    [in] operator sees them, [Object.keys] and [for .. in] do not. *)
Definition object_prototype_keys : list string :=
  [ "constructor"; "hasOwnProperty"; "isPrototypeOf"; "propertyIsEnumerable";
    "toLocaleString"; "toString"; "valueOf"; "__proto__";
    "__defineGetter__"; "__defineSetter__"; "__lookupGetter__";
    "__lookupSetter__" ].

Definition inherited (prop : string) : bool :=
  existsb (String.eqb prop) object_prototype_keys.

(** A [ChangeCollector] reference: the fields fixed by the constructor.
    The mutable [oldVals] of the collector with sequence number [s] is kept
    in the state under [s] ([seq++] gives every collector its own number). *)
Record ChangeCollector := mkCollector {
  c_seq : nat;       (* this._seq *)
  c_callback : nat   (* this.callback: the observer's function *)
}.

(** The functions this module creates and registers as raw listeners.  [fid]
    is the identity of the function object ([indexOf] compares by it); the
    other fields are what the closure captured. *)
Inductive listener :=
| OnChange (fid : nat) (this : ChangeCollector)
    (* changeCollector.onChange.bind(changeCollector) *)
| Nested (fid : nat) (prop : string) (callback : listener).
    (* function (nestedProp, oldVal, newVal) {
         callback(prop + "." + nestedProp, oldVal, newVal); } *)

Definition fid_of (l : listener) : nat :=
  match l with
  | OnChange fid _ => fid
  | Nested fid _ _ => fid
  end.

(** What [watchPojo] returns: [remove] closes over the [callbacks] array of
    [pojo] and over [callback]. *)
Record handle := mkHandle {
  h_pojo : loc;
  h_callback : listener
}.

(** A property is plain data until [watchPojo] converts it into a setter
    and getter, whose closure holds the shadow value [curVal], the
    [nestedWatcher] and the [callback] of the call that installed it. *)
Inductive property :=
| Data (v : value)
| Accessor (curVal : value) (nestedWatcher : option handle)
    (callback : listener).

(** An object is its own enumerable properties, in creation order (the
    order [Object.keys] and [for .. in] follow for ordinary names). *)
Abbreviation object := (list (string * property)) (only parsing).

Inductive event :=
| Notified (watcher : listener) (prop : string) (oldVal newVal : value)
    (* a registered function was called *)
| Delivered (c : ChangeCollector) (oldVals : gmap string value).
    (* c.callback(oldVals) was called *)

(** What the public entry point returns. *)
Inductive subscription :=
| Sub (h : handle)
| Foreign (method : nat) (callback : nat).
    (* the result of obj.observe(callback), whatever it is *)

Record state := mkState {
  st_heap : gmap loc object;           (* the objects of the program *)
  st_next_loc : loc;                   (* objects created so far *)
  st_map : gmap loc (list listener);   (* the WeakMap [map] *)
  st_next_fn : nat;                    (* function objects created so far *)
  st_seq : nat;                        (* [seq] *)
  st_oldVals : gmap nat (gmap string value);
                                       (* [oldVals] of each collector *)
  st_hotChangeCollectors : gmap nat ChangeCollector;
  st_deliverHandle : bool;             (* is [deliverHandle] set *)
  st_scheduled : nat;                  (* calls of [schedule] not yet run *)
  st_subs : list subscription;         (* what the client got from observe *)
  st_trace : list event                (* calls made so far, oldest first *)
}.

Definition with_heap (f : gmap loc object -> gmap loc object) (st : state) :=
  mkState (f (st_heap st)) (st_next_loc st) (st_map st) (st_next_fn st)
    (st_seq st) (st_oldVals st) (st_hotChangeCollectors st)
    (st_deliverHandle st) (st_scheduled st) (st_subs st) (st_trace st).

Definition with_next_loc (n : loc) (st : state) :=
  mkState (st_heap st) n (st_map st) (st_next_fn st)
    (st_seq st) (st_oldVals st) (st_hotChangeCollectors st)
    (st_deliverHandle st) (st_scheduled st) (st_subs st) (st_trace st).

Definition with_map
    (f : gmap loc (list listener) -> gmap loc (list listener)) (st : state) :=
  mkState (st_heap st) (st_next_loc st) (f (st_map st)) (st_next_fn st)
    (st_seq st) (st_oldVals st) (st_hotChangeCollectors st)
    (st_deliverHandle st) (st_scheduled st) (st_subs st) (st_trace st).

Definition with_next_fn (n : nat) (st : state) :=
  mkState (st_heap st) (st_next_loc st) (st_map st) n
    (st_seq st) (st_oldVals st) (st_hotChangeCollectors st)
    (st_deliverHandle st) (st_scheduled st) (st_subs st) (st_trace st).

Definition with_seq (n : nat) (st : state) :=
  mkState (st_heap st) (st_next_loc st) (st_map st) (st_next_fn st)
    n (st_oldVals st) (st_hotChangeCollectors st)
    (st_deliverHandle st) (st_scheduled st) (st_subs st) (st_trace st).

Definition with_oldVals
    (f : gmap nat (gmap string value) -> gmap nat (gmap string value))
    (st : state) :=
  mkState (st_heap st) (st_next_loc st) (st_map st) (st_next_fn st)
    (st_seq st) (f (st_oldVals st)) (st_hotChangeCollectors st)
    (st_deliverHandle st) (st_scheduled st) (st_subs st) (st_trace st).

Definition with_hot
    (f : gmap nat ChangeCollector -> gmap nat ChangeCollector) (st : state) :=
  mkState (st_heap st) (st_next_loc st) (st_map st) (st_next_fn st)
    (st_seq st) (st_oldVals st) (f (st_hotChangeCollectors st))
    (st_deliverHandle st) (st_scheduled st) (st_subs st) (st_trace st).

Definition with_deliverHandle (b : bool) (st : state) :=
  mkState (st_heap st) (st_next_loc st) (st_map st) (st_next_fn st)
    (st_seq st) (st_oldVals st) (st_hotChangeCollectors st)
    b (st_scheduled st) (st_subs st) (st_trace st).

Definition with_scheduled (n : nat) (st : state) :=
  mkState (st_heap st) (st_next_loc st) (st_map st) (st_next_fn st)
    (st_seq st) (st_oldVals st) (st_hotChangeCollectors st)
    (st_deliverHandle st) n (st_subs st) (st_trace st).

Definition with_subs (l : list subscription) (st : state) :=
  mkState (st_heap st) (st_next_loc st) (st_map st) (st_next_fn st)
    (st_seq st) (st_oldVals st) (st_hotChangeCollectors st)
    (st_deliverHandle st) (st_scheduled st) l (st_trace st).

Definition log (e : event) (st : state) :=
  mkState (st_heap st) (st_next_loc st) (st_map st) (st_next_fn st)
    (st_seq st) (st_oldVals st) (st_hotChangeCollectors st)
    (st_deliverHandle st) (st_scheduled st) (st_subs st)
    (st_trace st ++ [e])%list.

(** ** Computations

    A call either returns, or ends in an exception; both leave a state
    behind.  [OutOfFuel] and [Unsupported] are not JavaScript exceptions:
    the first cuts a recursion that was given too little fuel, the second
    marks what lies outside plain records (a dangling reference, reading a
    member inherited from a prototype, looking into a function). *)

Inductive error := TypeError | OutOfFuel | Unsupported.

Inductive outcome (A : Type) :=
| Ok (a : A) (st : state)
| Err (e : error) (st : state).
Arguments Ok {A} a st.
Arguments Err {A} e st.

Definition M (A : Type) : Type := state -> outcome A.

Definition ret {A} (a : A) : M A := fun st => Ok a st.
Definition throw {A} (e : error) : M A := fun st => Err e st.
Definition bind {A B} (m : M A) (k : A -> M B) : M B :=
  fun st =>
    match m st with
    | Ok a st' => k a st'
    | Err e st' => Err e st'
    end.
Definition modify (f : state -> state) : M unit := fun st => Ok tt (f st).
Definition gets {A} (f : state -> A) : M A := fun st => Ok (f st) st.

Notation "x <- m ;; k" := (bind m (fun x => k))
  (at level 100, m at next level, k at level 200, right associativity).
Notation "m ;; k" := (bind m (fun _ => k))
  (at level 100, k at level 200, right associativity).

(** [xs.forEach(f)], and the plain [for] loops over a snapshot. *)
Fixpoint forEach {A} (xs : list A) (f : A -> M unit) : M unit :=
  match xs with
  | [] => ret tt
  | x :: xs' => f x ;; forEach xs' f
  end.

Definition state_of {A} (o : outcome A) : state :=
  match o with
  | Ok _ st => st
  | Err _ st => st
  end.

(** ** Property access *)

Definition read (p : property) : value :=
  match p with
  | Data v => v
  | Accessor curVal _ _ => curVal   (* get: function () { return curVal; } *)
  end.

Fixpoint lookup_prop (prop : string) (o : object) : option property :=
  match o with
  | [] => None
  | (k, p) :: o' => if String.eqb k prop then Some p else lookup_prop prop o'
  end.

Fixpoint replace_prop (prop : string) (p : property) (o : object) : object :=
  match o with
  | [] => []
  | (k, q) :: o' =>
      if String.eqb k prop then (k, p) :: o'
      else (k, q) :: replace_prop prop p o'
  end.

(** Defining an own property: in place when it exists, at the end when not. *)
Definition set_own (prop : string) (p : property) (o : object) : object :=
  match lookup_prop prop o with
  | Some _ => replace_prop prop p o
  | None => (o ++ [(prop, p)])%list
  end.

Definition has_own (prop : string) (o : object) : bool :=
  match lookup_prop prop o with
  | Some _ => true
  | None => false
  end.

(** An array index: the canonical numeral of an integer below [2^32 - 1]. *)
Definition array_index (prop : string) : option N :=
  match NilEmpty.uint_of_string prop with
  | Some d =>
      let n := N.of_uint d in
      if String.eqb (NilEmpty.string_of_uint (N.to_uint n)) prop
         && (n <? 4294967295)%N
      then Some n
      else None
  | None => None
  end.

Fixpoint insert_index (k : N * string) (sorted : list (N * string))
    : list (N * string) :=
  match sorted with
  | [] => [k]
  | j :: js =>
      if (k.1 <=? j.1)%N then k :: j :: js
      else j :: insert_index k js
  end.

(** The order in which [Object.keys] and [for .. in] visit the own
    properties of an ordinary object: the array indices in ascending order,
    then the other names in the order they were created. *)
Definition own_enumeration (o : object) : list string :=
  let names := map fst o in
  let indices := omap (fun k => (fun n => (n, k)) <$> array_index k) names in
  ((foldr insert_index [] indices).*2
   ++ filter (fun k => array_index k = None) names)%list.

(** [Object.keys(pojo)], and the names [for (var prop in pojo)] visits. *)
Definition own_keys (pojo : loc) : M (list string) :=
  fun st =>
    match st_heap st !! pojo with
    | Some o => Ok (own_enumeration o) st
    | None => Err Unsupported st
    end.

(** [obj[prop]] *)
Definition get (obj : value) (prop : string) : M value :=
  fun st =>
    match obj with
    | VObj l =>
        match st_heap st !! l with
        | Some o =>
            match lookup_prop prop o with
            | Some p => Ok (read p) st
            | None =>
                if inherited prop then Err Unsupported st else Ok VUndef st
            end
        | None => Err Unsupported st
        end
    | VUndef | VNull => Err TypeError st
    | _ => Err Unsupported st
    end.

(** [prop in obj]: own or inherited; a TypeError when [obj] is a primitive. *)
Definition js_in (prop : string) (obj : value) : M bool :=
  fun st =>
    match obj with
    | VObj l =>
        match st_heap st !! l with
        | Some o => Ok (has_own prop o || inherited prop) st
        | None => Err Unsupported st
        end
    | VFun _ => Err Unsupported st
    | _ => Err TypeError st
    end.

(** The closure variables of the accessor of [pojo.prop]. *)
Definition store_cell (pojo : loc) (prop : string) (p : property) : M unit :=
  modify (with_heap (alter (replace_prop prop p) pojo)).

(** [Object.defineProperty(pojo, prop, {enumerable: true, set: .., get: ..})]
    on an own, configurable property. *)
Definition defineProperty (pojo : loc) (prop : string) (p : property)
    : M unit :=
  store_cell pojo prop p.

(** A new function object. *)
Definition fresh_fn : M nat :=
  fid <- gets st_next_fn ;;
  modify (with_next_fn (S fid)) ;;
  ret fid.

(** ** Change collector intake *)

(** [this.oldVals] *)
Definition oldVals_of (st : state) (this : ChangeCollector)
    : gmap string value :=
  default ∅ (st_oldVals st !! c_seq this).

(** [prop in this.oldVals] *)
Definition in_oldVals (prop : string) (oldVals : gmap string value) : bool :=
  match oldVals !! prop with
  | Some _ => true
  | None => inherited prop
  end.

(** [schedule(deliverAllByTimeout)]: the host notes the request. *)
Definition schedule : M bool :=
  modify (fun st => with_scheduled (S (st_scheduled st)) st) ;;
  ret true.

(** [onChange: function (prop, oldVal)] *)
Definition onChange (this : ChangeCollector) (prop : string) (oldVal : value)
    : M unit :=
  oldVals <- gets (fun st => oldVals_of st this) ;;
  (if negb (in_oldVals prop oldVals) then
     modify (with_oldVals <[c_seq this := <[prop := oldVal]> oldVals]>) ;;
     modify (with_hot <[c_seq this := this]>)
   else ret tt) ;;
  deliverHandle <- gets st_deliverHandle ;;
  if negb deliverHandle then
    h <- schedule ;;
    modify (with_deliverHandle h)
  else ret tt.

(** Calling a registered function with [(prop, oldVal, newVal)]. *)
Fixpoint call (watcher : listener) (prop : string) (oldVal newVal : value)
    : M unit :=
  modify (log (Notified watcher prop oldVal newVal)) ;;
  match watcher with
  | OnChange _ this => onChange this prop oldVal
  | Nested _ outer callback =>
      call callback (outer ++ "." ++ prop) oldVal newVal
  end.

(** [notify(prop, oldVal, newVal)] of the setter of an accessor of [pojo]:
    [callbacks.forEach(function (watcher) {
       watcher(prop, oldVal, newVal); })]. *)
Definition notify (pojo : loc) (prop : string) (oldVal newVal : value)
    : M unit :=
  callbacks <- gets (fun st => default [] (st_map st !! pojo)) ;;
  forEach callbacks (fun watcher => call watcher prop oldVal newVal).

(** ** Deep diff *)

Fixpoint diff (fuel : nat) (oldObj newObj : value)
    (notify : string -> value -> value -> M unit) (prefix : string)
    : M unit :=
  match fuel with
  | 0 => throw OutOfFuel
  | S fuel' =>
      match newObj with
      | VObj l =>
          ks <- own_keys l ;;
          forEach ks (fun prop =>
            changed <-
              (if negb (truthy oldObj) then ret true
               else
                 present <- js_in prop oldObj ;;
                 if negb present then ret true
                 else
                   o <- get oldObj prop ;;
                   n <- get newObj prop ;;
                   ret (negb (js_is o n))) ;;
            if (changed : bool) then
              n <- get newObj prop ;;
              if is_object n then
                o <- (if truthy oldObj then get oldObj prop else ret oldObj) ;;
                diff fuel' o n notify (prefix ++ prop ++ ".")
              else
                o <- (if truthy oldObj then get oldObj prop else ret VUndef) ;;
                notify (prefix ++ prop) o n
            else ret tt)
      | _ => throw Unsupported
      end
  end.

(** ** Property interceptor *)

(** The closure a nested watch passes down:
    [function (nestedProp, oldVal, newVal) {
       callback(prop + "." + nestedProp, oldVal, newVal); }] *)
Definition nested_listener (prop : string) (callback : listener)
    : M listener :=
  fid <- fresh_fn ;;
  ret (Nested fid prop callback).

(** What [watchPojo] does for one property of a [pojo] it has not seen
    before; [watch] is [watchPojo] itself. *)
Definition intercept (watch : value -> listener -> M handle) (pojo : loc)
    (callback : listener) (prop : string) : M unit :=
  curVal <- get (VObj pojo) prop ;;
  nestedWatcher <-
    (if is_object curVal then
       f <- nested_listener prop callback ;;
       h <- watch curVal f ;;
       ret (Some h)
     else ret None) ;;
  defineProperty pojo prop (Accessor curVal nestedWatcher callback).

Fixpoint watchPojo (fuel : nat) (pojo : value) (callback : listener)
    : M handle :=
  match pojo with
  | VObj l =>
      match fuel with
      | 0 => throw OutOfFuel
      | S fuel' =>
          callbacks <- gets (fun st => st_map st !! l) ;;
          match callbacks with
          | Some _ => ret tt
          | None =>
              modify (with_map <[l := []]>) ;;
              ks <- own_keys l ;;
              forEach ks (intercept (watchPojo fuel') l callback)
          end ;;
          modify (with_map (alter (fun cbs => cbs ++ [callback])%list l)) ;;
          ret (mkHandle l callback)
      end
  | VFun _ => throw Unsupported
  | VSym false l =>
      (* a symbol that is not registered is a key the WeakMap takes, and
         Object.keys of it is empty *)
      object <- gets (fun st => st_heap st !! l) ;;
      match object with
      | Some _ => throw Unsupported
      | None =>
          callbacks <- gets (fun st => st_map st !! l) ;;
          match callbacks with
          | Some _ => ret tt
          | None => modify (with_map <[l := []]>)
          end ;;
          modify (with_map (alter (fun cbs => cbs ++ [callback])%list l)) ;;
          ret (mkHandle l callback)
      end
  | _ =>
      (* map.get(pojo) is undefined, and map.set(pojo, ..) refuses a key
         that is neither an object nor a symbol that is not registered *)
      throw TypeError
  end.

(** [callbacks.indexOf(callback)] then [callbacks.splice(idx, 1)]. *)
Fixpoint remove_first (callback : listener) (callbacks : list listener)
    : list listener :=
  match callbacks with
  | [] => []
  | w :: ws =>
      if Nat.eqb (fid_of w) (fid_of callback) then ws
      else w :: remove_first callback ws
  end.

(** [remove] of the handle returned by [watchPojo]. *)
Definition remove (h : handle) : M unit :=
  modify (with_map (alter (remove_first (h_callback h)) (h_pojo h))).

(** The setter installed on [pojo.prop], whose closure is [cell]. *)
Definition setter (fuel : nat) (pojo : loc) (prop : string)
    (cell : property) (newVal : value) : M unit :=
  match cell with
  | Data _ => throw Unsupported
  | Accessor curVal nestedWatcher callback =>
      if js_is newVal curVal then ret tt
      else
        match nestedWatcher with
        | Some h =>
            remove h ;;
            store_cell pojo prop (Accessor curVal None callback)
        | None => ret tt
        end ;;
        nestedWatcher' <-
          (if is_object newVal then
             f <- nested_listener prop callback ;;
             h <- watchPojo fuel newVal f ;;
             ret (Some h)
           else ret None) ;;
        let oldVal := curVal in
        store_cell pojo prop (Accessor newVal nestedWatcher' callback) ;;
        if is_object newVal then
          diff fuel oldVal newVal (notify pojo) (prop ++ ".")
        else
          notify pojo prop oldVal newVal
  end.

(** [pojo[prop] = newVal] as the program being observed writes it: through
    the setter when the property has one, a plain store when not. *)
Definition assign (fuel : nat) (pojo : loc) (prop : string) (newVal : value)
    : M unit :=
  fun st =>
    match st_heap st !! pojo with
    | None => Err Unsupported st
    | Some o =>
        match lookup_prop prop o with
        | Some (Data _) =>
            store_cell pojo prop (Data newVal) st
        | Some cell => setter fuel pojo prop cell newVal st
        | None =>
            if String.eqb prop "__proto__" then Err Unsupported st
            else modify (with_heap <[pojo := set_own prop (Data newVal) o]>) st
        end
    end.

(** ** Public entry point *)

(** [new ChangeCollector(callback)] *)
Definition new_ChangeCollector (callback : nat) : M ChangeCollector :=
  s <- gets st_seq ;;
  modify (with_seq (S s)) ;;
  modify (with_oldVals <[s := ∅]>) ;;
  ret (mkCollector s callback).

Definition observePojo (fuel : nat) (pojo : value) (callback : nat)
    : M handle :=
  changeCollector <- new_ChangeCollector callback ;;
  fid <- fresh_fn ;;
  watchPojo fuel pojo (OnChange fid changeCollector).

(** [obj.observe], when it is a function. *)
Definition observe_member (obj : value) : M (option nat) :=
  match obj with
  | VUndef | VNull => throw TypeError
  | VBool _ | VNum _ | VStr _ | VBigInt _ | VSym _ _ => ret None
  | VFun _ => throw Unsupported
  | VObj _ =>
      m <- get obj "observe" ;;
      ret (match m with VFun f => Some f | _ => None end)
  end.

Definition observe (fuel : nat) (obj : value) (callback : nat)
    : M subscription :=
  m <- observe_member obj ;;
  match m with
  | Some f => ret (Foreign f callback)
  | None =>
      h <- observePojo fuel obj callback ;;
      ret (Sub h)
  end.

(** ** The observed program

    What the code that owns the objects, and the observers' callbacks, can
    do: create objects and symbols, assign properties, observe, and remove
    a subscription obtained earlier. *)

Inductive action :=
| Assign (pojo : loc) (prop : string) (newVal : value)
| NewObject (fields : list (string * value))
| NewSymbol
| Observe (obj : value) (callback : nat)
| Remove (sub : nat).

(** A client gives every callback its body: the actions it runs when called
    with [oldVals], which it may choose by looking at the objects. *)
Definition client :=
  nat -> gmap string value -> gmap loc object -> list action.

(** Callbacks that only look. *)
Definition quiet : client := fun _ _ _ => [].

Definition exec (fuel : nat) (a : action) : M unit :=
  match a with
  | Assign pojo prop newVal => assign fuel pojo prop newVal
  | NewObject fields =>
      if existsb (fun kv => String.eqb (fst kv) "__proto__") fields then
        throw Unsupported
      else
        l <- gets st_next_loc ;;
        modify (with_next_loc (S l)) ;;
        modify (with_heap
          <[l := fold_left (fun o kv => set_own (fst kv) (Data (snd kv)) o)
                   fields []]>)
  | NewSymbol =>
      (* Symbol(): an identity, and nothing on the heap *)
      l <- gets st_next_loc ;;
      modify (with_next_loc (S l))
  | Observe obj callback =>
      s <- observe fuel obj callback ;;
      modify (fun st => with_subs (st_subs st ++ [s])%list st)
  | Remove i =>
      subs <- gets st_subs ;;
      match subs !! i with
      | Some (Sub h) => remove h
      | Some (Foreign _ _) => throw Unsupported
      | None => throw TypeError
      end
  end.

Definition run (fuel : nat) (script : list action) : M unit :=
  forEach script (exec fuel).

(** ** Delivery *)

(** [deliver] *)
Definition deliver (cl : client) (fuel : nat) (this : ChangeCollector)
    : M unit :=
  oldVals <- gets (fun st => oldVals_of st this) ;;
  modify (with_oldVals <[c_seq this := ∅]>) ;;
  modify (log (Delivered this oldVals)) ;;
  body <- gets (fun st => cl (c_callback this) oldVals (st_heap st)) ;;
  run fuel body.

(** [callbacks.sort(function (lhs, rhs) { return lhs._seq - rhs._seq; })] *)
Fixpoint insert_by_seq (c : ChangeCollector) (sorted : list ChangeCollector)
    : list ChangeCollector :=
  match sorted with
  | [] => [c]
  | d :: ds =>
      if Nat.leb (c_seq c) (c_seq d) then c :: d :: ds
      else d :: insert_by_seq c ds
  end.

Definition sort_by_seq (callbacks : list ChangeCollector)
    : list ChangeCollector :=
  foldr insert_by_seq [] callbacks.

(** [for (var s in hotChangeCollectors)
      callbacks.push(hotChangeCollectors[s])] *)
Definition snapshot (hot : gmap nat ChangeCollector) : list ChangeCollector :=
  (map_to_list hot).*2.

Fixpoint deliverAllByTimeout (cl : client) (fuel : nat) : M unit :=
  match fuel with
  | 0 => throw OutOfFuel
  | S fuel' =>
      hot <- gets st_hotChangeCollectors ;;
      modify (with_hot (fun _ => ∅)) ;;
      let callbacks := sort_by_seq (snapshot hot) in
      forEach callbacks (deliver cl fuel') ;;
      match callbacks with
      | [] => modify (with_deliverHandle false)
      | _ :: _ => deliverAllByTimeout cl fuel'
      end
  end.

(** The host: run a script, then whatever [schedule] was asked to run. *)
Definition end_of_task (cl : client) (fuel : nat) : M unit :=
  n <- gets st_scheduled ;;
  match n with
  | 0 => ret tt
  | S n' =>
      modify (with_scheduled n') ;;
      deliverAllByTimeout cl fuel
  end.

Definition task (cl : client) (fuel : nat) (script : list action) : M unit :=
  run fuel script ;;
  end_of_task cl fuel.

Definition init : state :=
  mkState ∅ 0 ∅ 0 0 ∅ ∅ false 0 [] [].

(** * Vocabulary of the properties *)

(** ** Relations between states *)

(** [m] moves every state to one related to it by [R]. *)
Definition steps (R : relation state) {A} (m : M A) : Prop :=
  forall st, R st (state_of (m st)).

(** A relation between states that every state update of the interceptor
    and of the intake respects. *)
Class Interceptor (R : relation state) := {
  resp_preorder :: PreOrder R;
  resp_heap f st : R st (with_heap f st);
  resp_next_loc n st : R st (with_next_loc n st);
  resp_next_fn n st : R st (with_next_fn n st);
  resp_seq n st : R st (with_seq n st);
  resp_scheduled n st : R st (with_scheduled n st);
  resp_subs l st : R st (with_subs l st);
  resp_deliverHandle b st : R st (with_deliverHandle b st);
  resp_oldVals f st : R st (with_oldVals f st);
  resp_register l st : R st (with_map <[l := []]> st);
  resp_listeners f l st : R st (with_map (alter f l) st);
  resp_hot this st : R st (with_hot <[c_seq this := this]> st);
  resp_notified w p o n st : R st (log (Notified w p o n) st)
}.

(** ... and that the delivery respects too. *)
Class Scheduler (R : relation state) := {
  resp_drained st : R st (with_hot (fun _ => ∅) st);
  resp_delivered c m st : R st (log (Delivered c m) st)
}.

(** Not a call of an observer's callback. *)
Definition not_delivery (e : event) : Prop :=
  match e with
  | Delivered _ _ => False
  | Notified _ _ _ _ => True
  end.

(** The later state has the trace of the earlier one, followed by events
    that satisfy [P]. *)
Definition appending (P : event -> Prop) : relation state :=
  fun st st' =>
    exists tr, st_trace st' = (st_trace st ++ tr)%list /\ Forall P tr.

(** Listener sequences are never taken away from an object. *)
Definition map_grows : relation state :=
  fun st st' => dom (st_map st) ⊆ dom (st_map st').

(** Every pending collector is filed under its own registration number. *)
Definition hot_wf (st : state) : Prop :=
  forall s c, st_hotChangeCollectors st !! s = Some c -> c_seq c = s.

(** ... and stays so. *)
Definition keeps_hot_wf : relation state :=
  fun st st' => hot_wf st -> hot_wf st'.

(** ** Traces and sessions *)

(** The collector an event delivers to, if it is a delivery. *)
Definition delivered (e : event) : option ChangeCollector :=
  match e with
  | Delivered c _ => Some c
  | Notified _ _ _ _ => None
  end.

(** The collectors whose callbacks a trace shows, in call order. *)
Definition deliveries (tr : list event) : list ChangeCollector :=
  omap delivered tr.

(** Ascending, and strictly ascending, registration numbers. *)
Definition by_seq (c d : ChangeCollector) : Prop := c_seq c <= c_seq d.
Definition before (c d : ChangeCollector) : Prop := c_seq c < c_seq d.

(** What one session delivers: pass after pass, each pass in ascending
    registration order, the first pass being the set that was pending when
    the session began. *)
Definition session_shape (hot : gmap nat ChangeCollector)
    (passes : list (list ChangeCollector)) : Prop :=
  Forall (fun pass => pass <> [] /\ StronglySorted by_seq pass) passes /\
  match sort_by_seq (snapshot hot) with
  | [] => passes = []
  | first => exists rest, passes = first :: rest
  end.

(** The delivery algorithm in the words of the specification: repeat
    { snapshot and clear the whole pending set; sort the snapshot by
    registration number, ascending; deliver each collector of the snapshot
    in that order } until an iteration finds the snapshot empty, and then
    clear [deliverHandle].  [passes] are the snapshots as they were
    delivered; the pending set of an iteration is what the callbacks of the
    iteration before made pending.  [fuel] bounds the iterations and what a
    callback may do. *)
Inductive drains (cl : client)
    : nat -> state -> list (list ChangeCollector) -> state -> Prop :=
| drains_done fuel st :
    snapshot (st_hotChangeCollectors st) = [] ->
    drains cl (S fuel) st []
      (with_deliverHandle false (with_hot (fun _ => ∅) st))
| drains_pass fuel st st1 passes st' :
    let pass := sort_by_seq (snapshot (st_hotChangeCollectors st)) in
    snapshot (st_hotChangeCollectors st) <> [] ->
    forEach pass (deliver cl fuel) (with_hot (fun _ => ∅) st) = Ok tt st1 ->
    drains cl fuel st1 passes st' ->
    drains cl (S fuel) st (pass :: passes) st'.

(** Delivering to a callback that only looks. *)
Definition delivered_quietly (st : state) (this : ChangeCollector) : state :=
  log (Delivered this (oldVals_of st this))
    (with_oldVals <[c_seq this := ∅]> st).

(** The state without its record of calls. *)
Definition untraced (st : state) : state :=
  mkState (st_heap st) (st_next_loc st) (st_map st) (st_next_fn st)
    (st_seq st) (st_oldVals st) (st_hotChangeCollectors st)
    (st_deliverHandle st) (st_scheduled st) (st_subs st) [].

(** The calls one notification causes: the function itself, then whatever
    it forwards to. *)
Fixpoint call_events (watcher : listener) (prop : string)
    (oldVal newVal : value) : list event :=
  Notified watcher prop oldVal newVal ::
  match watcher with
  | OnChange _ _ => []
  | Nested _ outer callback =>
      call_events callback (outer ++ "." ++ prop) oldVal newVal
  end.

(** Feeding a run of notifications [(prop, oldVal, newVal)] to a listener. *)
Definition feed (watcher : listener)
    (changes : list (string * value * value)) : M unit :=
  forEach changes (fun c => call watcher c.1.1 c.1.2 c.2).

(** Paths that do not collide with a name every object inherits. *)
Definition own_paths (changes : list (string * value * value)) : Prop :=
  Forall (fun c => inherited c.1.1 = false) changes.

(** ** Values and heaps *)

(** What is not an object: [undefined], [null], booleans, numbers,
    strings, bigints and symbols. *)
Definition primitive (v : value) : Prop :=
  match v with
  | VObj _ | VFun _ => False
  | _ => True
  end.

(** A symbol made by [Symbol()]. *)
Definition unregistered_symbol (v : value) : bool :=
  match v with
  | VSym false _ => true
  | _ => false
  end.

(** Failing fast: the call signals an invalid argument, a TypeError. *)
Definition fails_fast (fuel : nat) (obj : value) (callback : nat)
    (st : state) : Prop :=
  exists st', observe fuel obj callback st = Err TypeError st'.

(** The state once the setter has dropped the watch on the old value. *)
Definition detach (nestedWatcher : option handle) (st : state) : state :=
  match nestedWatcher with
  | Some h => state_of (remove h st)
  | None => st
  end.

(** An object with the same keys and the same values as another. *)
Definition same_object (o o' : object) : Prop :=
  map fst o' = map fst o /\
  forall k, read <$> lookup_prop k o' = read <$> lookup_prop k o.

(** Two states whose heaps hold the same objects in that sense. *)
Definition same_values (st st' : state) : Prop :=
  forall l, option_Forall2 same_object (st_heap st !! l) (st_heap st' !! l).

(** No property holds a reference to an object that is not there. *)
Definition closed (st : state) : Prop :=
  forall l o k p l',
    st_heap st !! l = Some o -> lookup_prop k o = Some p ->
    read p = VObj l' -> l' ∈ dom (st_heap st).

(** The property [p] refers to nothing outside [heap]; checking it for
    every property is a check of [closed] that can be run. *)
Definition points_into (heap : gmap loc object) (p : string * property)
    : Prop :=
  match read p.2 with
  | VObj l' => l' ∈ dom heap
  | _ => True
  end.

(** The objects not yet registered in the WeakMap. *)
Definition unwatched (st : state) : gset loc :=
  dom (st_heap st) ∖ dom (st_map st).

(** Every property of [o] has become an accessor over the same value,
    closed over [callback]. *)
Definition installed (callback : listener) (o o' : object) : Prop :=
  map fst o' = map fst o /\
  forall k p,
    lookup_prop k o = Some p ->
    exists nw, lookup_prop k o' = Some (Accessor (read p) nw callback).

(** The outcome of [watchPojo] on [l] with [f]. *)
Definition watched (l : loc) (f : listener) (st st' : state) : Prop :=
  same_values st st' /\
  dom (st_map st) ⊆ dom (st_map st') /\
  (forall l', l' ∈ dom (st_map st) ->
     st_heap st' !! l' = st_heap st !! l') /\
  (exists cbs, st_map st' !! l = Some (cbs ++ [f])%list) /\
  (st_map st !! l = None ->
   forall o, st_heap st !! l = Some o ->
     exists o', st_heap st' !! l = Some o' /\ installed f o o').

(** What the loop over the properties of a registered [l] may change. *)
Definition intercepted (l : loc) (cb : listener) (st st' : state) : Prop :=
  same_values st st' /\
  dom (st_map st) ⊆ dom (st_map st') /\
  (forall l', l' <> l -> l' ∈ dom (st_map st) ->
     st_heap st' !! l' = st_heap st !! l') /\
  (forall o o' k v nw,
     st_heap st !! l = Some o -> st_heap st' !! l = Some o' ->
     lookup_prop k o = Some (Accessor v nw cb) ->
     exists nw', lookup_prop k o' = Some (Accessor v nw' cb)).

(** ** Example programs *)

(** Three objects, observed in the order 0, 1, 2 and then changed in the
    order 2, 0, 1 within one burst. *)
Definition three_observers : list action :=
  [ NewObject [("x", num 0)]; NewObject [("x", num 0)];
    NewObject [("x", num 0)];
    Observe (VObj 0) 10; Observe (VObj 1) 11; Observe (VObj 2) 12;
    Assign 2 "x" (num 1); Assign 0 "x" (num 1); Assign 1 "x" (num 1) ].

(** The state that burst leaves, before the host runs the delivery. *)
Definition after_burst : state := state_of (run 3 three_observers init).

(** An observer whose callback writes to another observed object: objects
    0 and 1, the observer of 1 registered first, the callback of the
    observer of 0 setting [x] on object 1. *)
Definition cascading : client :=
  fun callback _ _ =>
    match callback with
    | 10 => [Assign 1 "x" (num 7)]
    | _ => []
    end.

Definition cascade : list action :=
  [ NewObject [("x", num 0)]; NewObject [("x", num 0)];
    Observe (VObj 1) 11; Observe (VObj 0) 10;
    Assign 0 "x" (num 1) ].

(** An observer whose callback writes to the object it observes. *)
Definition rewriting : client := fun _ _ _ => [Assign 0 "x" (num 5)].

(** A state in which an observer was removed after its collector became
    pending. *)
Definition removed_while_hot : state :=
  state_of (run 3 [ NewObject [("x", num 0)]; Observe (VObj 0) 7;
                    Observe (VObj 0) 8; Assign 0 "x" (num 1) ] init).

(** An object with one observer and a property holding [+0]. *)
Definition watched_zero : state :=
  state_of (run 3 [ NewObject [("x", pzero); ("y", nan)];
                    Observe (VObj 0) 7 ] init).

(** An object with a nested object, before anyone observes it. *)
Definition nested_pojo : state :=
  state_of (run 3 [ NewObject [("b", num 1)];
                    NewObject [("a", VObj 0); ("c", num 2)] ] init).

(** One observer on [{toString: 1}], then [o.toString = 2]. *)
Definition inherited_name : list action :=
  [ NewObject [("toString", num 1)]; Observe (VObj 0) 7;
    Assign 0 "toString" (num 2) ].

(** Two observers on [{a: {b: 1}}], then [o.a.b = 2]. *)
Definition two_observers_nested : list action :=
  [ NewObject [("b", num 1)]; NewObject [("a", VObj 0)];
    Observe (VObj 1) 7; Observe (VObj 1) 8;
    Assign 0 "b" (num 2) ].

(** [old = {x: 5}] and [new = {x: {y: 1}}], at locations 0 and 2. *)
Definition primitive_to_object : state :=
  state_of (run 3 [ NewObject [("x", num 5)]; NewObject [("y", num 1)];
                    NewObject [("x", VObj 1)] ] init).

(** [{a: {x: 5}}] observed, then [o.a = {x: {y: 1}}]. *)
Definition replace_primitive_by_object : list action :=
  [ NewObject [("x", num 5)]; NewObject [("y", num 1)];
    NewObject [("x", VObj 1)]; NewObject [("a", VObj 0)];
    Observe (VObj 3) 7; Assign 3 "a" (VObj 2) ].

(** One observer on [{a: {b: 1}}], removed at once, then [o.a.b = 2]. *)
Definition removed_then_nested : list action :=
  [ NewObject [("b", num 1)]; NewObject [("a", VObj 0)];
    Observe (VObj 1) 7; Remove 0;
    Assign 0 "b" (num 2) ].

(** ** Collectors, scheduling and the rest of the vocabulary *)
(** The part of the state the collectors and the scheduler own. *)
Definition collector_side (st : state) :=
  (st_seq st, st_oldVals st, st_hotChangeCollectors st,
   st_deliverHandle st, st_scheduled st).

(** A relation between states that only looks at the collectors' side, and
    that the intake and the construction of a collector respect. *)
Class Collecting (R : relation state) := {
  col_preorder :: PreOrder R;
  col_frame st st' : collector_side st = collector_side st' -> R st st';
  col_onChange this prop oldVal : steps R (onChange this prop oldVal);
  col_new_ChangeCollector callback : steps R (new_ChangeCollector callback)
}.

(** Between two tasks: what is pending has a delivery scheduled, every
    pending map that holds something belongs to a pending collector, and
    the host holds one request exactly when [deliverHandle] is set. *)
Definition consistent (st : state) : Prop :=
  (st_deliverHandle st = false -> st_hotChangeCollectors st = ∅) /\
  (forall s m,
     st_oldVals st !! s = Some m -> m <> ∅ ->
     is_Some (st_hotChangeCollectors st !! s)) /\
  st_scheduled st = (if st_deliverHandle st then 1 else 0).

Definition keeps_consistent : relation state :=
  fun st st' => consistent st -> consistent st'.

(** Inside a session, with the collectors [rem] of the current pass still
    to be delivered: [deliverHandle] is set, the host holds no request, and
    a pending map that holds something belongs to a pending collector or to
    one of [rem]. *)
Definition draining (rem : list ChangeCollector) (st : state) : Prop :=
  st_deliverHandle st = true /\
  st_scheduled st = 0 /\
  forall s m,
    st_oldVals st !! s = Some m -> m <> ∅ ->
    is_Some (st_hotChangeCollectors st !! s) \/ s ∈ c_seq <$> rem.

Definition keeps_draining (rem : list ChangeCollector) : relation state :=
  fun st st' => draining rem st -> draining rem st'.

(** Nothing recorded, nothing pending, nothing scheduled. *)
Definition quiescent (st : state) : Prop :=
  st_hotChangeCollectors st = ∅ /\
  st_deliverHandle st = false /\
  st_scheduled st = 0 /\
  forall s m, st_oldVals st !! s = Some m -> m = ∅.

(** Once [deliverHandle] is set it stays set and no request is made. *)
Definition wedged : relation state :=
  fun st st' =>
    st_deliverHandle st = true ->
    st_deliverHandle st' = true /\ st_scheduled st' = st_scheduled st.

(** Callbacks that fail: they observe a number. *)
Definition failing : client := fun _ _ _ => [Observe (num 5) 9].

(** Task after task, run by the host. *)
Definition tasks (cl : client) (fuel : nat) (scripts : list (list action))
    (st : state) : state :=
  foldl (fun s script => state_of (task cl fuel script s)) st scripts.

(** One observer on [{x: 0}], then [o.x = 1]. *)
Definition one_change : list action :=
  [ NewObject [("x", num 0)]; Observe (VObj 0) 7; Assign 0 "x" (num 1) ].

(** The registration numbers handed out so far never come back. *)
Definition seq_le : relation state :=
  fun st st' => st_seq st <= st_seq st'.

(** The collector a listener ends in, and the path it hands to it: the
    names of the properties on the way down, joined by dots. *)
Fixpoint target (watcher : listener) : ChangeCollector :=
  match watcher with
  | OnChange _ this => this
  | Nested _ _ callback => target callback
  end.

Fixpoint full_path (watcher : listener) (prop : string) : string :=
  match watcher with
  | OnChange _ _ => prop
  | Nested _ outer callback => full_path callback (outer ++ "." ++ prop)
  end.

(** The listeners other than those of the function [callback]. *)
Definition others (callback : listener) (callbacks : list listener)
    : list listener :=
  filter (fun w => fid_of w <> fid_of callback) callbacks.

(** Every object keeps its keys, in their order. *)
Definition keys_same : relation state :=
  fun st st' =>
    forall l, map fst <$> st_heap st' !! l = map fst <$> st_heap st !! l.

(** The objects are left alone. *)
Definition same_heap : relation state :=
  fun st st' => st_heap st' = st_heap st.

(** Nothing is reported, recorded as pending or scheduled. *)
Definition silent : relation state :=
  fun st st' =>
    st_trace st' = st_trace st /\
    st_hotChangeCollectors st' = st_hotChangeCollectors st /\
    st_deliverHandle st' = st_deliverHandle st /\
    st_scheduled st' = st_scheduled st.

(** [{a: {b: 1}, c: 2}] observed, beside an object [{d: 3}]. *)
Definition observed_nested : state :=
  state_of (run 3 [ NewObject [("b", num 1)];
                    NewObject [("a", VObj 0); ("c", num 2)];
                    NewObject [("d", num 3)];
                    Observe (VObj 1) 7 ] init).

(** The leaves of the object [newObj] with their dotted paths, in the
    order [for .. in] visits them: what is not an object is a leaf. *)
Fixpoint leaves (fuel : nat) (heap : gmap loc object) (newObj : value)
    (prefix : string) : option (list (string * value)) :=
  match fuel with
  | 0 => None
  | S fuel' =>
      match newObj with
      | VObj l =>
          match heap !! l with
          | Some o =>
              lss ← mapM (fun k =>
                match lookup_prop k o with
                | Some p =>
                    if is_object (read p)
                    then leaves fuel' heap (read p) (prefix ++ k ++ ".")
                    else Some [(prefix ++ k, read p)]
                | None => None
                end) (own_enumeration o);
              Some (concat lss)
          | None => None
          end
      | _ => None
      end
  end.

(** Reporting leaves as added: their old value is [undefined]. *)
Definition added (pojo : loc) (ls : list (string * value)) : M unit :=
  forEach ls (fun pn => notify pojo pn.1 VUndef pn.2).

(** [{b: 1, 10: 2, 2: 3}], which is visited in the order 2, 10, b. *)
Definition indexed : state :=
  state_of (run 3 [ NewObject [("b", num 1); ("10", num 2); ("2", num 3)] ]
              init).

(** [{x: 1, y: NaN}] and [{y: NaN, x: 1}]. *)
Definition reordered : state :=
  state_of (run 3 [ NewObject [("x", num 1); ("y", nan)];
                    NewObject [("y", nan); ("x", num 1)] ] init).

(** ** What is owed to the callbacks *)

(** The pending map of the collector numbered [s]. *)
Definition oldVals_at (st : state) (s : nat) : gmap string value :=
  default ∅ (st_oldVals st !! s).

(** After the [i]th event of [tr], the callback of the collector numbered
    [s] is called with a summary that holds the path [p]. *)
Definition handed_over (tr : list event) (i s : nat) (p : string) : Prop :=
  exists j c m,
    i < j /\ tr !! j = Some (Delivered c m) /\ c_seq c = s /\
    is_Some (m !! p).

(** Every change a collector took, of a path that is no name of
    [Object.prototype], was handed to its callback later on. *)
Definition all_delivered (tr : list event) : Prop :=
  forall i fid c p o n,
    tr !! i = Some (Notified (OnChange fid c) p o n) ->
    inherited p = false ->
    handed_over tr i (c_seq c) p.

(** ... or is on record for the next delivery. *)
Definition accounted (st : state) : Prop :=
  forall i fid c p o n,
    st_trace st !! i = Some (Notified (OnChange fid c) p o n) ->
    inherited p = false ->
    handed_over (st_trace st) i (c_seq c) p \/
    is_Some (oldVals_at st (c_seq c) !! p).

(** The collector a listener ends in was made by [new ChangeCollector]:
    its number is below [bound]. *)
Definition known (bound : nat) (w : listener) : Prop :=
  c_seq (target w) < bound.

(** Every listener registered on an object, and every callback an accessor
    closes over, is known. *)
Definition listeners_known (st : state) : Prop :=
  (forall l cbs w,
     st_map st !! l = Some cbs -> w ∈ cbs -> known (st_seq st) w) /\
  (forall l o k v nw cb,
     st_heap st !! l = Some o -> (k, Accessor v nw cb) ∈ o ->
     known (st_seq st) cb).

(** Every collector that took a change is known. *)
Definition notified_known (st : state) : Prop :=
  forall i fid c p o n,
    st_trace st !! i = Some (Notified (OnChange fid c) p o n) ->
    c_seq c < st_seq st.

Definition sound (st : state) : Prop :=
  listeners_known st /\ notified_known st /\ accounted st.

(** What [sound] looks at. *)
Definition sound_side (st : state) :=
  (st_heap st, st_map st, st_seq st, st_oldVals st, st_trace st).

(** Soundness is kept, and so is a bound on the numbers handed out. *)
Definition keeps_sound (bound : nat) : relation state :=
  fun st st' =>
    sound st /\ bound <= st_seq st -> sound st' /\ bound <= st_seq st'.

(** Nothing recorded, pending or scheduled, and nothing owed. *)
Definition settled (st : state) : Prop := quiescent st /\ sound st.

(** The callback an accessor closes over is known below [b]. *)
Definition cell_known (b : nat) (cell : property) : Prop :=
  match cell with
  | Accessor _ _ cb => S (c_seq (target cb)) <= b
  | Data _ => True
  end.

(** * Properties *)

(** ** Same-value equality *)

Lemma SFeqb_refl (x : spec_float) : x <> S754_nan -> SFeqb x x = true.
Proof.
  unfold SFeqb, SFcompare. destruct x as [s|s| |s m e]; try done.
  - by destruct s.
  - intros _. destruct s; rewrite Z.compare_refl;
      change (Pos.compare_cont Eq m m) with (Pos.compare m m);
      by rewrite Pos.compare_refl.
Qed.

(** [==] on numbers relates equal numbers, and the two zeros. *)
Lemma SFeqb_true (x y : spec_float) :
  SFeqb x y = true ->
  x = y \/ (exists s t, x = S754_zero s /\ y = S754_zero t).
Proof.
  unfold SFeqb, SFcompare.
  destruct x as [s|s| |s m e], y as [t|t| |t n f]; try discriminate;
    try (destruct s; discriminate); try (destruct t; discriminate).
  - intros _; right; eauto.
  - destruct s, t; try discriminate; auto.
  - destruct s, t; try discriminate;
      (destruct (Z.compare_spec e f) as [->| |]; try discriminate);
      change (Pos.compare_cont Eq m n) with (Pos.compare m n);
      (destruct (Pos.compare_spec m n) as [->| |]; try discriminate); auto.
Qed.

Lemma strict_eq_true (a b : value) :
  strict_eq a b = true ->
  a = b \/ exists s t, a = VNum (S754_zero s) /\ b = VNum (S754_zero t).
Proof.
  destruct a as [| |p|x|s|f|l|z|r l], b as [| |q|y|t|g|k|w|u k]; simpl;
    try discriminate; auto.
  - intros H%Bool.eqb_prop. left; congruence.
  - intros [->|(s & t & -> & ->)]%SFeqb_true; eauto.
  - intros H%String.eqb_eq. left; congruence.
  - intros H%Nat.eqb_eq. left; congruence.
  - intros H%Nat.eqb_eq. left; congruence.
  - intros H%Z.eqb_eq. left; congruence.
  - intros [H1%Bool.eqb_prop H2%Nat.eqb_eq]%andb_true_iff. left; congruence.
Qed.

Lemma strict_eq_refl (a : value) : a <> nan -> strict_eq a a = true.
Proof.
  destruct a as [| |p|x|s|f|l|z|r l]; simpl; intros H; auto.
  - by destruct p.
  - apply SFeqb_refl. unfold nan in H. congruence.
  - apply String.eqb_refl.
  - apply Nat.eqb_refl.
  - apply Nat.eqb_refl.
  - apply Z.eqb_refl.
  - by rewrite Bool.eqb_reflx, Nat.eqb_refl.
Qed.

Lemma strict_ne_self (a : value) : strict_ne a a = true <-> a = nan.
Proof.
  unfold strict_ne. split.
  - intros H. destruct (decide (a = nan)) as [|Hn]; [done|].
    by rewrite (strict_eq_refl _ Hn) in H.
  - by intros ->.
Qed.

(** [is] holds of identical values and of nothing else. *)
Lemma js_is_spec (a b : value) : js_is a b = true <-> a = b.
Proof.
  unfold js_is.
  rewrite orb_true_iff, !andb_true_iff, orb_true_iff, !strict_ne_self.
  split.
  - intros [[H1 H2]|[-> ->]]; [|done].
    apply strict_eq_true in H1 as [->|(s & t & -> & ->)]; [done|].
    destruct H2 as [H2|H2]; [by destruct s|].
    by destruct s, t.
  - intros <-. destruct (decide (a = nan)) as [->|Hn]; [by right|left].
    split; [by apply strict_eq_refl|].
    destruct a as [| |p|x|s|f|l|z|r l]; auto.
    destruct x as [s|s| |s m e]; auto.
    + right. by destruct s.
    + left. by destruct s.
Qed.

(** Away from [NaN] and the two zeros it is [===]. *)
Lemma js_is_strict_eq (a b : value) :
  a <> nan ->
  ~ (exists s t, a = VNum (S754_zero s) /\ b = VNum (S754_zero t)) ->
  js_is a b = strict_eq a b.
Proof.
  intros Hnan Hzero. destruct (strict_eq a b) eqn:E.
  - apply js_is_spec. by apply strict_eq_true in E as [->|?].
  - destruct (js_is a b) eqn:E'; [|done].
    apply js_is_spec in E' as ->. by rewrite strict_eq_refl in E.
Qed.

(** ** Stepping through computations *)

Section Steps.
Context (R : relation state) `{!PreOrder R}.

Lemma steps_ret {A} (a : A) : steps R (ret a).
Proof. intros st. simpl. reflexivity. Qed.

Lemma steps_throw {A} (e : error) : steps R (@throw A e).
Proof. intros st. simpl. reflexivity. Qed.

Lemma steps_gets {A} (f : state -> A) : steps R (gets f).
Proof. intros st. simpl. reflexivity. Qed.

Lemma steps_modify (f : state -> state) :
  (forall st, R st (f st)) -> steps R (modify f).
Proof. intros Hf st. apply Hf. Qed.

Lemma steps_bind {A B} (m : M A) (k : A -> M B) :
  steps R m -> (forall a, steps R (k a)) -> steps R (bind m k).
Proof.
  intros Hm Hk st. unfold bind. specialize (Hm st).
  destruct (m st) as [a st1|e st1]; simpl in *; [|done].
  etransitivity; [exact Hm|apply Hk].
Qed.

Lemma steps_forEach {A} (xs : list A) (f : A -> M unit) :
  (forall x, steps R (f x)) -> steps R (forEach xs f).
Proof.
  intros Hf. induction xs as [|x xs IH]; simpl.
  - apply steps_ret.
  - apply steps_bind; auto.
Qed.

Lemma steps_own_keys pojo : steps R (own_keys pojo).
Proof.
  intros st. unfold own_keys. destruct (st_heap st !! pojo); reflexivity.
Qed.

Lemma steps_get obj prop : steps R (get obj prop).
Proof.
  intros st. unfold get. destruct obj as [| | | | | |l| |]; try reflexivity.
  destruct (st_heap st !! l) as [o|]; [|reflexivity].
  destruct (lookup_prop prop o); [reflexivity|].
  destruct (inherited prop); reflexivity.
Qed.

Lemma steps_js_in prop obj : steps R (js_in prop obj).
Proof.
  intros st. unfold js_in. destruct obj as [| | | | | |l| |]; try reflexivity.
  destruct (st_heap st !! l); reflexivity.
Qed.
End Steps.

(** Walks through a computation built from the operations above; calls of
    the module's own functions are left to the hypotheses. *)
Ltac walk :=
  repeat match goal with
  | |- PreOrder _ => apply _
  | |- steps _ (ret _) => apply steps_ret
  | |- steps _ (throw _) => apply steps_throw
  | |- steps _ (gets _) => apply steps_gets
  | |- steps _ (own_keys _) => apply steps_own_keys
  | |- steps _ (get _ _) => apply steps_get
  | |- steps _ (js_in _ _) => apply steps_js_in
  | |- steps _ (modify _) =>
      apply steps_modify; intros ?;
      first [ apply resp_heap | apply resp_next_loc | apply resp_next_fn
            | apply resp_seq | apply resp_scheduled | apply resp_subs
            | apply resp_deliverHandle | apply resp_oldVals
            | apply resp_register | apply resp_listeners | apply resp_hot
            | apply resp_notified | apply resp_drained
            | apply resp_delivered
            | apply (resp_scheduled (S _)) ]
  | |- steps _ (bind _ _) => apply steps_bind; [| |intros ?]
  | |- steps _ (forEach _ _) => apply steps_forEach; [|intros ?]
  | |- steps _ (if ?b then _ else _) => destruct b
  | |- steps _ (match ?x with _ => _ end) => destruct x
  | |- steps _ _ => solve [auto]
  end.

Section Interceptor.
Context (R : relation state) `{!Interceptor R}.

Lemma steps_onChange this prop oldVal : steps R (onChange this prop oldVal).
Proof. unfold onChange, schedule. walk. Qed.

Lemma steps_call watcher prop oldVal newVal :
  steps R (call watcher prop oldVal newVal).
Proof.
  pose proof steps_onChange. revert prop.
  induction watcher as [fid this|fid outer cb IH]; intros prop; simpl; walk.
Qed.

Lemma steps_notify pojo prop oldVal newVal :
  steps R (notify pojo prop oldVal newVal).
Proof. pose proof steps_call. unfold notify. walk. Qed.

Lemma steps_diff fuel oldObj newObj notify prefix :
  (forall p o n, steps R (notify p o n)) ->
  steps R (diff fuel oldObj newObj notify prefix).
Proof.
  intros Hn. revert oldObj newObj prefix.
  induction fuel as [|fuel IH]; intros oldObj newObj prefix; simpl; walk.
Qed.

Lemma steps_watchPojo fuel pojo callback :
  steps R (watchPojo fuel pojo callback).
Proof.
  revert pojo callback.
  induction fuel as [|fuel IH]; intros pojo callback;
    destruct pojo; simpl;
    unfold intercept, nested_listener, defineProperty, store_cell, fresh_fn;
    walk.
Qed.

Lemma steps_setter fuel pojo prop cell newVal :
  steps R (setter fuel pojo prop cell newVal).
Proof.
  pose proof steps_watchPojo.
  pose proof (fun f o n p => steps_diff f o n (notify pojo) p
                               (steps_notify pojo)).
  pose proof steps_notify.
  unfold setter, nested_listener, remove, store_cell, fresh_fn. walk.
Qed.

Lemma steps_assign fuel pojo prop newVal :
  steps R (assign fuel pojo prop newVal).
Proof.
  intros st. unfold assign.
  destruct (st_heap st !! pojo) as [o|]; [|reflexivity].
  destruct (lookup_prop prop o) as [[v|c n cb]|].
  - apply resp_heap.
  - apply steps_setter.
  - destruct (String.eqb prop "__proto__"); [reflexivity|apply resp_heap].
Qed.

Lemma steps_observe fuel obj callback : steps R (observe fuel obj callback).
Proof.
  pose proof steps_watchPojo.
  unfold observe, observe_member, observePojo, new_ChangeCollector, fresh_fn.
  walk.
Qed.

Lemma steps_exec fuel a : steps R (exec fuel a).
Proof.
  pose proof steps_assign. pose proof steps_observe.
  destruct a; simpl; unfold remove; walk.
Qed.

Lemma steps_run fuel script : steps R (run fuel script).
Proof. pose proof steps_exec. unfold run. walk. Qed.

Context `{!Scheduler R}.

Lemma steps_deliver cl fuel this : steps R (deliver cl fuel this).
Proof. pose proof steps_run. unfold deliver. walk. Qed.

Lemma steps_deliverAllByTimeout cl fuel :
  steps R (deliverAllByTimeout cl fuel).
Proof.
  pose proof steps_deliver. induction fuel as [|fuel IH]; simpl; walk.
Qed.

Lemma steps_task cl fuel script : steps R (task cl fuel script).
Proof.
  pose proof steps_run. pose proof steps_deliverAllByTimeout.
  unfold task, end_of_task. walk.
Qed.
End Interceptor.

#[local] Instance appending_preorder P : PreOrder (appending P).
Proof.
  split.
  - intros st. exists []. by rewrite app_nil_r.
  - intros st1 st2 st3 (tr1 & E1 & F1) (tr2 & E2 & F2).
    exists (tr1 ++ tr2)%list. rewrite E2, E1, app_assoc.
    split; [done|by apply Forall_app].
Qed.

#[local] Instance appending_interceptor : Interceptor (appending not_delivery).
Proof.
  split; try apply _; try (intros; exists []; simpl; by rewrite app_nil_r).
  intros w p o n st. exists [Notified w p o n]. by repeat constructor.
Qed.

#[local] Instance map_grows_preorder : PreOrder map_grows.
Proof. unfold map_grows. split; [intros ?|intros ? ? ?]; set_solver. Qed.

#[local] Instance map_grows_interceptor : Interceptor map_grows.
Proof.
  split; try apply _; intros; unfold map_grows; simpl;
    rewrite ?dom_insert_L, ?dom_alter_L; set_solver.
Qed.

#[local] Instance map_grows_scheduler : Scheduler map_grows.
Proof. split; intros; by unfold map_grows. Qed.

#[local] Instance keeps_hot_wf_preorder : PreOrder keeps_hot_wf.
Proof. unfold keeps_hot_wf. split; [intros ?|intros ? ? ?]; auto. Qed.

#[local] Instance keeps_hot_wf_interceptor : Interceptor keeps_hot_wf.
Proof.
  split; try apply _; try (by intros; intros ?).
  intros this st Hwf s c Hs. simpl in Hs.
  apply lookup_insert_Some in Hs as [[<- <-]|[_ Hs]]; eauto.
Qed.

#[local] Instance keeps_hot_wf_scheduler : Scheduler keeps_hot_wf.
Proof.
  split; [|by intros; intros ?].
  intros st _ s c Hs. simpl in Hs. by rewrite lookup_empty in Hs.
Qed.

(** Nothing the program, the callbacks or the host do files a pending
    collector under a number that is not its own. *)
Lemma hot_wf_task cl fuel script st :
  hot_wf st -> hot_wf (state_of (task cl fuel script st)).
Proof. apply (steps_task keeps_hot_wf). Qed.

Lemma hot_wf_init : hot_wf init.
Proof. intros s c H. simpl in H. by rewrite lookup_empty in H. Qed.

(** ** Sorting by registration number *)

Lemma insert_by_seq_perm c l : insert_by_seq c l ≡ₚ c :: l.
Proof.
  induction l as [|d l IH]; simpl; [done|].
  destruct (Nat.leb (c_seq c) (c_seq d)); [done|].
  rewrite IH. apply Permutation_swap.
Qed.

Lemma sort_by_seq_perm l : sort_by_seq l ≡ₚ l.
Proof.
  induction l as [|c l IH]; simpl; [done|].
  by rewrite insert_by_seq_perm, IH.
Qed.

Lemma insert_by_seq_sorted c l :
  StronglySorted by_seq l -> StronglySorted by_seq (insert_by_seq c l).
Proof.
  induction 1 as [|d l Hl IH Hd]; simpl.
  - repeat constructor.
  - destruct (Nat.leb_spec (c_seq c) (c_seq d)) as [Hle|Hlt].
    + constructor; [by constructor|].
      constructor; [done|].
      eapply Forall_impl; [exact Hd|]. unfold by_seq. intros; simpl in *; lia.
    + constructor; [done|].
      rewrite insert_by_seq_perm. constructor; [|done].
      unfold by_seq. lia.
Qed.

(** The sort sorts, and keeps what it was given. *)
Lemma sort_by_seq_sorted l : StronglySorted by_seq (sort_by_seq l).
Proof.
  induction l as [|c l IH]; simpl; [constructor|].
  by apply insert_by_seq_sorted.
Qed.

(** Two orderings of the same collectors, one ascending and one strictly
    ascending, are the same list. *)
Lemma sorted_by_seq_unique l1 l2 :
  StronglySorted by_seq l1 -> StronglySorted before l2 -> l1 ≡ₚ l2 ->
  l1 = l2.
Proof.
  intros H1 H2. revert l1 H1.
  induction H2 as [|d l2 Hl2 IH Hd]; intros l1 H1 Hp.
  - by apply Permutation_nil_r in Hp.
  - destruct l1 as [|c l1]; [by apply Permutation_nil_cons in Hp|].
    apply StronglySorted_inv in H1 as [H1 Hc].
    assert (c = d) as ->.
    { assert (c ∈ d :: l2) as Hin by (rewrite <- Hp; left).
      assert (d ∈ c :: l1) as Hin' by (rewrite Hp; left).
      apply elem_of_cons in Hin as [|Hin]; [done|].
      apply elem_of_cons in Hin' as [|Hin']; [done|].
      rewrite Forall_forall in Hd, Hc.
      specialize (Hd _ Hin). specialize (Hc _ Hin').
      unfold by_seq, before in *. lia. }
    f_equal. apply IH; [done|]. by apply Permutation_cons_inv in Hp.
Qed.

Lemma sort_by_seq_unique l l' :
  StronglySorted before l' -> l ≡ₚ l' -> sort_by_seq l = l'.
Proof.
  intros Hs Hp. apply sorted_by_seq_unique; [apply sort_by_seq_sorted|done|].
  by rewrite sort_by_seq_perm.
Qed.

(** ** Delivery sessions *)

Lemma deliveries_app tr1 tr2 :
  deliveries (tr1 ++ tr2) = (deliveries tr1 ++ deliveries tr2)%list.
Proof. apply omap_app. Qed.

Lemma deliveries_none tr : Forall not_delivery tr -> deliveries tr = [].
Proof.
  induction 1 as [|e tr He _ IH]; [done|].
  destruct e; simpl in *; [done|tauto].
Qed.

Lemma bind_Ok {A B} (m : M A) (k : A -> M B) st b st' :
  bind m k st = Ok b st' ->
  exists a st1, m st = Ok a st1 /\ k a st1 = Ok b st'.
Proof. unfold bind. destruct (m st) as [a st1|]; [eauto|discriminate]. Qed.

(** A delivery is one call of the callback, with the pending map, followed
    by what the callback does, which is no call of a callback. *)
Lemma deliver_trace cl fuel this st :
  exists tr,
    st_trace (state_of (deliver cl fuel this st))
    = (st_trace st ++ Delivered this (oldVals_of st this) :: tr)%list
    /\ Forall not_delivery tr.
Proof.
  unfold deliver, bind, gets, modify. simpl.
  match goal with |- context [run fuel ?b ?s] =>
    destruct (steps_run (appending not_delivery) fuel b s)
      as (tr & E & F) end.
  exists tr. split; [|done].
  match goal with |- context [run fuel ?b ?s] =>
    destruct (run fuel b s) end; simpl in *; by rewrite E, <- app_assoc.
Qed.

(** A pass that completes has called the callbacks of its collectors, in
    order. *)
Lemma forEach_deliver_trace cl fuel callbacks st st' :
  forEach callbacks (deliver cl fuel) st = Ok tt st' ->
  exists tr,
    st_trace st' = (st_trace st ++ tr)%list /\ deliveries tr = callbacks.
Proof.
  revert st. induction callbacks as [|c cs IH]; simpl; intros st H.
  - injection H as <-. exists []. by rewrite app_nil_r.
  - apply bind_Ok in H as ([] & st1 & H1 & H2).
    destruct (deliver_trace cl fuel c st) as (tr1 & E1 & F1).
    rewrite H1 in E1. simpl in E1.
    destruct (IH _ H2) as (tr2 & E2 & D2).
    exists (Delivered c (oldVals_of st c) :: tr1 ++ tr2)%list.
    rewrite E2, E1, <- app_assoc. split; [done|].
    simpl. by rewrite deliveries_app, (deliveries_none tr1), D2.
Qed.

(** A session that returns has delivered pass after pass. *)
Lemma drain_passes cl fuel st st' :
  deliverAllByTimeout cl fuel st = Ok tt st' ->
  exists tr passes,
    st_trace st' = (st_trace st ++ tr)%list /\
    deliveries tr = concat passes /\
    session_shape (st_hotChangeCollectors st) passes /\
    st_hotChangeCollectors st' = ∅ /\
    st_deliverHandle st' = false.
Proof.
  revert st. induction fuel as [|fuel IH]; intros st H; [discriminate|].
  simpl in H. unfold bind, gets, modify in H. simpl in H.
  pose proof (sort_by_seq_sorted (snapshot (st_hotChangeCollectors st))) as Hs.
  unfold session_shape.
  destruct (sort_by_seq (snapshot (st_hotChangeCollectors st)))
    as [|c cs] eqn:Hsort.
  - simpl in H. injection H as <-. exists [], []. simpl.
    rewrite app_nil_r. repeat split; auto.
  - match type of H with match ?f ?s with _ => _ end = _ =>
      destruct (f s) as [[] st1|] eqn:Hpass; [|discriminate] end.
    apply forEach_deliver_trace in Hpass as (tr1 & E1 & D1). simpl in E1.
    destruct (IH _ H) as (tr2 & passes & E2 & D2 & [F2 _] & Hhot & Hh).
    exists (tr1 ++ tr2)%list, ((c :: cs) :: passes).
    rewrite E2, E1, <- app_assoc, deliveries_app, D1, D2. simpl.
    repeat split; eauto.
Qed.

Lemma deliver_quiet fuel this st :
  deliver quiet fuel this st = Ok tt (delivered_quietly st this).
Proof. reflexivity. Qed.

Lemma forEach_deliver_quiet fuel callbacks st :
  forEach callbacks (deliver quiet fuel) st
  = Ok tt (foldl delivered_quietly st callbacks).
Proof.
  revert st. induction callbacks as [|c cs IH]; intros st; [done|].
  simpl. unfold bind. by rewrite deliver_quiet, IH.
Qed.

Lemma foldl_delivered_quietly_frame callbacks st :
  let st' := foldl delivered_quietly st callbacks in
  st_hotChangeCollectors st' = st_hotChangeCollectors st /\
  st_deliverHandle st' = st_deliverHandle st /\
  st_heap st' = st_heap st /\
  st_map st' = st_map st.
Proof.
  revert st. induction callbacks as [|c cs IH]; intros st; [done|].
  simpl. destruct (IH (delivered_quietly st c)) as (-> & -> & -> & ->).
  done.
Qed.

Lemma oldVals_of_delivered_quietly st c d :
  c_seq d <> c_seq c ->
  oldVals_of (delivered_quietly st c) d = oldVals_of st d.
Proof.
  intros Hne. unfold oldVals_of, delivered_quietly. simpl.
  by rewrite lookup_insert_ne.
Qed.

(** With distinct registration numbers every collector receives the batch
    it held when the pass began. *)
Lemma foldl_delivered_quietly_trace callbacks st :
  NoDup (c_seq <$> callbacks) ->
  st_trace (foldl delivered_quietly st callbacks)
  = (st_trace st
     ++ ((fun c => Delivered c (oldVals_of st c)) <$> callbacks))%list.
Proof.
  revert st. induction callbacks as [|c cs IH]; intros st Hnd; simpl.
  - by rewrite app_nil_r.
  - apply NoDup_cons in Hnd as [Hc Hnd]. rewrite IH by done. simpl.
    rewrite <- app_assoc. simpl. do 2 f_equal.
    apply list_fmap_ext. intros i d Hd. f_equal.
    apply oldVals_of_delivered_quietly. intros E. apply Hc.
    rewrite <- E. apply list_elem_of_fmap_2. by eapply list_elem_of_lookup_2.
Qed.

Lemma deliveries_fmap_Delivered
    (f : ChangeCollector -> gmap string value) callbacks :
  deliveries ((fun c => Delivered c (f c)) <$> callbacks) = callbacks.
Proof.
  induction callbacks as [|c cs IH]; [done|].
  rewrite fmap_cons. change (deliveries (?e :: ?tr))
    with (from_option (fun c => c :: deliveries tr) (deliveries tr)
            (delivered e)).
  simpl. by rewrite IH.
Qed.

Lemma foldl_delivered_quietly_deliveries callbacks st :
  exists tr,
    st_trace (foldl delivered_quietly st callbacks) = (st_trace st ++ tr)%list
    /\ deliveries tr = callbacks.
Proof.
  eapply forEach_deliver_trace. apply (forEach_deliver_quiet 0).
Qed.

Lemma snapshot_empty : snapshot ∅ = [].
Proof. unfold snapshot. by rewrite map_to_list_empty. Qed.

Lemma with_hot_empty st :
  st_hotChangeCollectors st = ∅ -> with_hot (fun _ => ∅) st = st.
Proof. destruct st; simpl. by intros ->. Qed.

(** A session with quiet callbacks is one pass over the pending set. *)
Lemma drain_quiet fuel st :
  deliverAllByTimeout quiet (S (S fuel)) st
  = Ok tt (with_deliverHandle false
             (foldl delivered_quietly (with_hot (fun _ => ∅) st)
                (sort_by_seq (snapshot (st_hotChangeCollectors st))))).
Proof.
  cbn [deliverAllByTimeout]. unfold bind at 1 2 3, gets at 1, modify at 1.
  rewrite forEach_deliver_quiet.
  destruct (sort_by_seq (snapshot (st_hotChangeCollectors st)))
    as [|c cs] eqn:Hsort; [done|].
  set (st1 := foldl delivered_quietly _ (c :: cs)).
  assert (st_hotChangeCollectors st1 = ∅) as Hhot.
  { unfold st1.
    by destruct (foldl_delivered_quietly_frame (c :: cs)
                   (with_hot (fun _ => ∅) st)) as (-> & _). }
  unfold bind, gets, modify. rewrite Hhot, snapshot_empty. simpl.
  by rewrite with_hot_empty.
Qed.

Lemma snapshot_seqs st :
  hot_wf st ->
  c_seq <$> snapshot (st_hotChangeCollectors st)
  = (map_to_list (st_hotChangeCollectors st)).*1.
Proof.
  intros Hwf. unfold snapshot. rewrite <- list_fmap_compose.
  apply list_fmap_ext. intros i [s c] Hi. simpl.
  apply Hwf. apply elem_of_map_to_list. by eapply list_elem_of_lookup_2.
Qed.

Lemma sorted_snapshot_NoDup st :
  hot_wf st ->
  NoDup (c_seq <$> sort_by_seq (snapshot (st_hotChangeCollectors st))).
Proof.
  intros Hwf. rewrite sort_by_seq_perm, snapshot_seqs by done.
  apply NoDup_fst_map_to_list.
Qed.

Lemma elem_of_snapshot hot c :
  c ∈ snapshot hot <-> exists s, hot !! s = Some c.
Proof.
  unfold snapshot. rewrite list_elem_of_fmap. split.
  - intros ([s d] & -> & Hin). exists s. by apply elem_of_map_to_list.
  - intros (s & Hs). exists (s, c). split; [done|].
    by apply elem_of_map_to_list.
Qed.

(** ** Delivery order *)

Lemma sort_by_seq_nil l : sort_by_seq l = [] -> l = [].
Proof.
  intros E. apply Permutation_nil_r. by rewrite <- E, sort_by_seq_perm.
Qed.

(** The code runs the algorithm, and nothing else. *)
Lemma drains_sound cl fuel st st' :
  deliverAllByTimeout cl fuel st = Ok tt st' ->
  exists passes, drains cl fuel st passes st'.
Proof.
  revert st. induction fuel as [|fuel IH]; intros st H; [discriminate|].
  simpl in H. unfold bind, gets, modify in H. simpl in H.
  destruct (sort_by_seq (snapshot (st_hotChangeCollectors st)))
    as [|c cs] eqn:Hsort.
  - simpl in H. injection H as <-. exists [].
    apply drains_done. by apply sort_by_seq_nil.
  - match type of H with match ?f ?s with _ => _ end = _ =>
      destruct (f s) as [[] st1|] eqn:Hpass; [|discriminate] end.
    destruct (IH _ H) as (passes & Hd). rewrite <- Hsort in Hpass.
    exists (sort_by_seq (snapshot (st_hotChangeCollectors st)) :: passes).
    eapply drains_pass; [|exact Hpass|exact Hd].
    intros E. by rewrite E in Hsort.
Qed.

Lemma drains_complete cl fuel st passes st' :
  drains cl fuel st passes st' ->
  deliverAllByTimeout cl fuel st = Ok tt st'.
Proof.
  induction 1 as [fuel st Hnil|fuel st st1 passes st' pass Hne Hpass _ IH];
    simpl; unfold bind, gets, modify; simpl.
  - by rewrite Hnil.
  - subst pass.
    destruct (sort_by_seq (snapshot (st_hotChangeCollectors st)))
      as [|c cs] eqn:E; [by apply sort_by_seq_nil in E|].
    by rewrite Hpass.
Qed.

(** What the algorithm leaves in the record of calls and in the state. *)
Lemma drains_trace cl fuel st passes st' :
  drains cl fuel st passes st' ->
  exists tr,
    st_trace st' = (st_trace st ++ tr)%list /\
    deliveries tr = concat passes /\
    session_shape (st_hotChangeCollectors st) passes /\
    st_hotChangeCollectors st' = ∅ /\
    st_deliverHandle st' = false.
Proof.
  induction 1 as [fuel st Hnil|fuel st st1 passes st' pass Hne Hpass _ IH].
  - exists []. simpl. rewrite app_nil_r. unfold session_shape.
    rewrite Hnil. repeat split; auto.
  - destruct IH as (tr2 & E2 & D2 & [F2 _] & Hhot & Hh).
    apply forEach_deliver_trace in Hpass as (tr1 & E1 & D1). simpl in E1.
    exists (tr1 ++ tr2)%list.
    rewrite E2, E1, <- app_assoc, deliveries_app, D1, D2. simpl.
    split; [done|]. split; [done|]. split; [|done].
    assert (pass <> []) as Hpass by (by intros E%sort_by_seq_nil).
    split.
    + constructor; [|done]. split; [done|]. apply sort_by_seq_sorted.
    + subst pass.
      destruct (sort_by_seq (snapshot (st_hotChangeCollectors st)));
        [done|eauto].
Qed.

(** C1. A delivery session takes the whole pending set, every entry of
    [hotChangeCollectors] once, orders it by registration number, delivers
    it in that order, and repeats until a pass finds nothing pending: a
    session returns exactly when the algorithm of the specification does,
    pass for pass, each later pass being the ascending ordering of what the
    callbacks of the pass before made pending, and in the same state.  The
    callbacks are called in the order of the passes, the first pass is the
    ascending ordering of the pending set (so three pending observers O1,
    O2, O3 are delivered in that order however the set was filled), and
    the session ends with nothing pending and [deliverHandle] clear.  With
    callbacks that change nothing the session returns and is exactly that
    first pass. *)
Theorem deliver_in_registration_order (cl : client) (fuel : nat) (st : state) :
  let pending := snapshot (st_hotChangeCollectors st) in
  let first := sort_by_seq pending in
  ((forall c,
      c ∈ pending <-> exists s, st_hotChangeCollectors st !! s = Some c) /\
   length pending = size (st_hotChangeCollectors st)) /\
  (StronglySorted by_seq first /\ first ≡ₚ pending) /\
  (forall o1 o2 o3,
     before o1 o2 -> before o2 o3 -> pending ≡ₚ [o1; o2; o3] ->
     first = [o1; o2; o3]) /\
  (forall st',
     deliverAllByTimeout cl fuel st = Ok tt st' <->
     exists passes, drains cl fuel st passes st') /\
  (forall st' passes,
     drains cl fuel st passes st' ->
     exists tr,
       st_trace st' = (st_trace st ++ tr)%list /\
       deliveries tr = concat passes /\
       session_shape (st_hotChangeCollectors st) passes /\
       st_hotChangeCollectors st' = ∅ /\
       st_deliverHandle st' = false) /\
  (exists st' tr,
     deliverAllByTimeout quiet (S (S fuel)) st = Ok tt st' /\
     st_trace st' = (st_trace st ++ tr)%list /\
     deliveries tr = first /\
     st_hotChangeCollectors st' = ∅ /\
     st_deliverHandle st' = false).
Proof.
  intros pending first.
  split; [split|split; [split|split; [|split; [|split]]]].
  - intros c. apply elem_of_snapshot.
  - unfold pending, snapshot. by rewrite length_fmap, length_map_to_list.
  - apply sort_by_seq_sorted.
  - apply sort_by_seq_perm.
  - intros o1 o2 o3 H12 H23 Hp. apply sort_by_seq_unique; [|done].
    unfold before in *. repeat constructor; lia.
  - intros st'. split; [apply drains_sound|].
    intros [passes H]. by eapply drains_complete.
  - intros st' passes. apply drains_trace.
  - rewrite drain_quiet.
    destruct (foldl_delivered_quietly_deliveries first
                (with_hot (fun _ => ∅) st)) as (tr & E & D).
    destruct (foldl_delivered_quietly_frame first
                (with_hot (fun _ => ∅) st)) as (Hhot & _).
    eexists _, tr. repeat split; simpl; eauto.
Qed.

(** On [after_burst]: the objects were changed in the order 2, 0, 1 and
    the observers are delivered in the order of registration.  On
    [cascade]: the callback of the second observer makes the first one
    pending, which a second pass delivers. *)
Lemma deliver_in_registration_order_witness :
  let o1 := mkCollector 0 10 in
  let o2 := mkCollector 1 11 in
  let o3 := mkCollector 2 12 in
  let c1 := mkCollector 0 11 in
  let c2 := mkCollector 1 10 in
  let st := state_of (run 3 cascade init) in
  let st' := state_of (deliverAllByTimeout cascading 5 st) in
  (snapshot (st_hotChangeCollectors after_burst) ≡ₚ [o1; o2; o3] /\
   sort_by_seq (snapshot (st_hotChangeCollectors after_burst)) = [o1; o2; o3])
  /\ (drains cascading 5 st [[c2]; [c1]] st' /\
      deliverAllByTimeout cascading 5 st = Ok tt st' /\
      exists tr,
        st_trace st' = (st_trace st ++ tr)%list /\
        deliveries tr = [c2; c1] /\
        st_hotChangeCollectors st' = ∅ /\
        st_deliverHandle st' = false).
Proof.
  intros o1 o2 o3 c1 c2 st st'.
  assert (snapshot (st_hotChangeCollectors after_burst) ≡ₚ [o1; o2; o3])
    as Hp.
  { vm_compute. symmetry. exact (Permutation_rev [o1; o2; o3]). }
  split.
  - split; [exact Hp|].
    destruct (deliver_in_registration_order quiet 2 after_burst)
      as (_ & _ & H3 & _).
    apply H3; [unfold before; simpl; lia|unfold before; simpl; lia|exact Hp].
  - destruct (deliver_in_registration_order cascading 5 st)
      as (_ & _ & _ & Hiff & Htr & _).
    assert (drains cascading 5 st [[c2]; [c1]] st') as Hd.
    { set (s1 := state_of (forEach [c2] (deliver cascading 4)
                             (with_hot (fun _ => ∅) st))).
      set (s2 := state_of (forEach [c1] (deliver cascading 3)
                             (with_hot (fun _ => ∅) s1))).
      assert (sort_by_seq (snapshot (st_hotChangeCollectors st)) = [c2])
        as E1 by (vm_compute; reflexivity).
      assert (sort_by_seq (snapshot (st_hotChangeCollectors s1)) = [c1])
        as E2 by (vm_compute; reflexivity).
      assert (st' = with_deliverHandle false (with_hot (fun _ => ∅) s2))
        as -> by (vm_compute; reflexivity).
      rewrite <- E1. apply (drains_pass _ 4 st s1).
      - vm_compute. discriminate.
      - rewrite E1. vm_compute. reflexivity.
      - rewrite <- E2. apply (drains_pass _ 3 s1 s2).
        + vm_compute. discriminate.
        + rewrite E2. vm_compute. reflexivity.
        + apply drains_done. vm_compute. reflexivity. }
    split; [exact Hd|]. split; [apply Hiff; eauto|].
    destruct (Htr st' _ Hd) as (tr & E & D & _ & Hhot & Hh).
    exists tr. auto.
Defined.

(** A collector that becomes pending during a pass is delivered in the
    next pass of the same session, also when it was registered before the
    collector whose callback made it pending. *)
Lemma cascade_is_delivered_in_a_later_pass :
  let o1 := mkCollector 0 11 in
  let o2 := mkCollector 1 10 in
  exists st,
    task cascading 5 cascade init = Ok tt st /\
    st_trace st
    = [ Notified (OnChange 1 o2) "x" (num 0) (num 1);
        Delivered o2 {[ "x" := num 0 ]};
        Notified (OnChange 0 o1) "x" (num 0) (num 7);
        Delivered o1 {[ "x" := num 0 ]} ] /\
    st_hotChangeCollectors st = ∅ /\
    st_deliverHandle st = false.
Proof.
  intros o1 o2. exists (state_of (task cascading 5 cascade init)).
  repeat (split; [vm_compute; reflexivity|]). vm_compute. reflexivity.
Qed.

(** ** Intake *)

(** The intake returns; it touches neither the objects nor the listener
    sequences and records no call. *)
Lemma onChange_Ok this prop oldVal st :
  exists st',
    onChange this prop oldVal st = Ok tt st' /\
    st_trace st' = st_trace st /\
    st_heap st' = st_heap st /\
    st_map st' = st_map st.
Proof.
  unfold onChange, bind, gets, modify, schedule, ret. simpl.
  destruct (in_oldVals prop (oldVals_of st this)); simpl;
    destruct (st_deliverHandle st); simpl; eauto.
Qed.

(** A registered function returns too, having recorded the calls of
    [call_events]. *)
Lemma call_Ok watcher prop oldVal newVal st :
  exists st',
    call watcher prop oldVal newVal st = Ok tt st' /\
    st_trace st'
    = (st_trace st ++ call_events watcher prop oldVal newVal)%list /\
    st_heap st' = st_heap st /\
    st_map st' = st_map st.
Proof.
  revert prop st.
  induction watcher as [fid this|fid outer cb IH]; intros prop st; simpl;
    unfold bind, modify.
  - destruct (onChange_Ok this prop oldVal
                (log (Notified (OnChange fid this) prop oldVal newVal) st))
      as (st' & -> & Et & Eh & Em).
    exists st'. by rewrite Et, Eh, Em.
  - destruct (IH (outer ++ "." ++ prop)
                (log (Notified (Nested fid outer cb) prop oldVal newVal) st))
      as (st' & -> & Et & Eh & Em).
    exists st'. rewrite Et, Eh, Em. simpl. by rewrite <- app_assoc.
Qed.

(** Intake does not look at the new value, nor at the record of calls. *)
Lemma onChange_untraced this prop oldVal st1 st2 :
  untraced st1 = untraced st2 ->
  untraced (state_of (onChange this prop oldVal st1))
  = untraced (state_of (onChange this prop oldVal st2)).
Proof.
  destruct st1, st2. unfold untraced. simpl.
  intros [= -> -> -> -> -> -> -> -> -> ->].
  unfold onChange, bind, gets, modify, schedule, ret, oldVals_of. simpl.
  match goal with |- context [in_oldVals ?p ?m] =>
    destruct (in_oldVals p m) end; simpl;
    match goal with |- context [negb ?b] => destruct b end; reflexivity.
Qed.

Lemma call_untraced watcher prop oldVal new1 new2 st1 st2 :
  untraced st1 = untraced st2 ->
  untraced (state_of (call watcher prop oldVal new1 st1))
  = untraced (state_of (call watcher prop oldVal new2 st2)).
Proof.
  revert prop st1 st2.
  induction watcher as [fid this|fid outer cb IH]; intros prop st1 st2 E;
    simpl; unfold bind, modify.
  - apply onChange_untraced. destruct st1, st2. unfold untraced in *.
    simpl in *. congruence.
  - apply IH. destruct st1, st2. unfold untraced in *. simpl in *.
    congruence.
Qed.

(** Feeding always goes through. *)
Lemma feed_Ok watcher changes st :
  exists st', feed watcher changes st = Ok tt st'.
Proof.
  revert st. induction changes as [|c cs IH]; intros st; simpl.
  - by exists st.
  - unfold feed. simpl. unfold bind.
    destruct (call_Ok watcher c.1.1 c.1.2 c.2 st) as (st1 & -> & _).
    apply IH.
Qed.

Lemma feed_untraced watcher run1 run2 st1 st2 :
  fst <$> run1 = fst <$> run2 ->
  untraced st1 = untraced st2 ->
  untraced (state_of (feed watcher run1 st1))
  = untraced (state_of (feed watcher run2 st2)).
Proof.
  revert run2 st1 st2.
  induction run1 as [|[[p o] n1] run1 IH]; intros [|[[q o'] n2] run2] st1 st2;
    try discriminate; [done|].
  rewrite !fmap_cons. simpl. intros [= <- <- E] Hst.
  unfold feed. simpl. unfold bind.
  pose proof (call_untraced watcher p o n1 n2 st1 st2 Hst) as Hc.
  destruct (call_Ok watcher p o n1 st1) as (s1 & E1 & _).
  destruct (call_Ok watcher p o n2 st2) as (s2 & E2 & _).
  rewrite E1, E2 in *. simpl in Hc. by apply IH.
Qed.

(** C10. The intake ignores the new value: two runs of notifications with
    the same paths and old values, fed to the same listener from the same
    state, both go through, leave every collector with the same pending
    map, the same collectors pending and the same scheduling state, and a
    delivery made after either run hands the callback the same summary. *)
Theorem onChange_ignores_newVal (watcher : listener) (st : state)
    (run1 run2 : list (string * value * value)) :
  fst <$> run1 = fst <$> run2 ->
  exists st1 st2,
    feed watcher run1 st = Ok tt st1 /\
    feed watcher run2 st = Ok tt st2 /\
    untraced st1 = untraced st2 /\
    (forall this, oldVals_of st1 this = oldVals_of st2 this) /\
    forall cl fuel this, exists summary tr1 tr2,
      st_trace (state_of (deliver cl fuel this st1))
      = (st_trace st1 ++ Delivered this summary :: tr1)%list /\
      st_trace (state_of (deliver cl fuel this st2))
      = (st_trace st2 ++ Delivered this summary :: tr2)%list.
Proof.
  intros E.
  destruct (feed_Ok watcher run1 st) as (st1 & H1).
  destruct (feed_Ok watcher run2 st) as (st2 & H2).
  pose proof (feed_untraced watcher run1 run2 st st E eq_refl) as Hu.
  rewrite H1, H2 in Hu. simpl in Hu.
  assert (forall this, oldVals_of st1 this = oldVals_of st2 this) as Ho.
  { intros this. unfold oldVals_of.
    by replace (st_oldVals st1) with (st_oldVals (untraced st1))
      by done; rewrite Hu. }
  exists st1, st2. repeat split; auto.
  intros cl fuel this.
  destruct (deliver_trace cl fuel this st1) as (tr1 & E1 & _).
  destruct (deliver_trace cl fuel this st2) as (tr2 & E2 & _).
  exists (oldVals_of st1 this), tr1, tr2. by rewrite E1, E2, Ho.
Qed.

(** Two such runs through a nested listener. *)
Lemma onChange_ignores_newVal_witness :
  let c := mkCollector 0 7 in
  let w := Nested 1 "a" (OnChange 0 c) in
  let run1 :=
    [("b", num 1, num 2); ("c", VUndef, num 3); ("b", num 2, num 4)] in
  let run2 :=
    [("b", num 1, VStr "x"); ("c", VUndef, VNull); ("b", num 2, nan)] in
  fst <$> run1 = fst <$> run2 /\
  oldVals_of (state_of (feed w run1 init)) c
  = {[ "a.b" := num 1; "a.c" := VUndef ]} /\
  oldVals_of (state_of (feed w run2 init)) c
  = {[ "a.b" := num 1; "a.c" := VUndef ]}.
Proof.
  intros c w run1 run2.
  assert (fst <$> run1 = fst <$> run2) as E by reflexivity.
  destruct (onChange_ignores_newVal w init run1 run2 E)
    as (st1 & st2 & H1 & H2 & _ & Ho & _).
  rewrite H1, H2. simpl. rewrite <- Ho.
  replace st1 with (state_of (feed w run1 init)) by (by rewrite H1).
  split; [exact E|]. split; vm_compute; reflexivity.
Defined.

(** ** Entry point *)

(** C9. Observing a primitive other than a symbol that is not registered
    fails at once with a TypeError, whatever the fuel: [undefined] and
    [null] have no [observe] member to read, and for booleans, numbers,
    strings, bigints and registered symbols the WeakMap refuses the key.
    No listener is registered, no object is touched and nothing is handed
    back.  A symbol that is not registered is a key the WeakMap takes:
    observing one returns a handle, and no object is touched. *)
Theorem observe_primitive_fails_fast (fuel : nat) (obj : value)
    (callback : nat) (st : state) :
  primitive obj ->
  (unregistered_symbol obj = false ->
   exists st',
     observe fuel obj callback st = Err TypeError st' /\
     st_heap st' = st_heap st /\
     st_map st' = st_map st /\
     st_hotChangeCollectors st' = st_hotChangeCollectors st /\
     st_subs st' = st_subs st /\
     st_trace st' = st_trace st) /\
  (forall l,
     obj = VSym false l -> st_heap st !! l = None ->
     exists callbacks st',
       let w := OnChange (st_next_fn st) (mkCollector (st_seq st) callback) in
       observe fuel obj callback st = Ok (Sub (mkHandle l w)) st' /\
       st_map st' = <[l := (callbacks ++ [w])%list]> (st_map st) /\
       callbacks = default [] (st_map st !! l) /\
       st_heap st' = st_heap st /\
       st_hotChangeCollectors st' = st_hotChangeCollectors st /\
       st_trace st' = st_trace st).
Proof.
  intros Hp. split.
  - intros Hs.
    destruct obj as [| | | | | | | |[] ?]; try done; destruct fuel;
      eexists; split; try reflexivity; simpl; auto.
  - intros l -> Hl.
    unfold observe, observe_member, observePojo, new_ChangeCollector,
      fresh_fn, bind, gets, modify, ret.
    destruct fuel; simpl; unfold bind, gets, modify, ret; simpl;
      rewrite Hl; simpl;
      (destruct (st_map st !! l) as [cbs|] eqn:Hm; simpl; rewrite ?Hm; simpl).
    all: try (exists cbs; eexists; split; [reflexivity|]; simpl;
              split; [|done]; apply map_eq; intros k;
              destruct (decide (k = l)) as [->|Hne];
              [by rewrite lookup_alter_eq, lookup_insert_eq, Hm
              |by rewrite lookup_alter_ne, lookup_insert_ne]).
    all: exists []; eexists; (split; [reflexivity|]); simpl;
      (split; [|done]); apply map_eq; intros k;
      (destruct (decide (k = l)) as [->|Hne];
       [by rewrite lookup_alter_eq, !lookup_insert_eq
       |by rewrite lookup_alter_ne, !lookup_insert_ne]).
Qed.

(** [observe(42, cb)], [observe(42n, cb)] and [observe(Symbol.for("k"), cb)]
    fail. *)
Lemma observe_primitive_fails_fast_witness :
  (exists st', observe 3 (num 42) 7 init = Err TypeError st') /\
  (exists st', observe 3 (VBigInt 42) 7 init = Err TypeError st') /\
  (exists st', observe 3 (VSym true 0) 7 init = Err TypeError st').
Proof.
  repeat split.
  - destruct (observe_primitive_fails_fast 3 (num 42) 7 init I)
      as [H _].
    destruct (H eq_refl) as (st' & E & _). by exists st'.
  - destruct (observe_primitive_fails_fast 3 (VBigInt 42) 7 init I)
      as [H _].
    destruct (H eq_refl) as (st' & E & _). by exists st'.
  - destruct (observe_primitive_fails_fast 3 (VSym true 0) 7 init I)
      as [H _].
    destruct (H eq_refl) as (st' & E & _). by exists st'.
Defined.

(** As the claim has it, every primitive target fails fast.  It does not:
    [observe(Symbol(), cb)] returns a subscription, and since a symbol has
    no property to intercept the callback can never be called. *)
Lemma observe_symbol_returns_a_handle :
  ~ (forall fuel obj callback st,
       primitive obj -> fails_fast fuel obj callback st) /\
  (let st := state_of (run 1 [NewSymbol] init) in
   let w := OnChange 0 (mkCollector 0 7) in
   primitive (VSym false 0) /\
   exists st',
     observe 3 (VSym false 0) 7 st = Ok (Sub (mkHandle 0 w)) st' /\
     st_map st' = {[ 0 := [w] ]} /\
     st_heap st' = ∅).
Proof.
  split.
  - intros H.
    destruct (H 3 (VSym false 0) 7 (state_of (run 1 [NewSymbol] init)) I)
      as (st' & E).
    vm_compute in E. discriminate.
  - intros st w. split; [exact I|]. eexists.
    split; [vm_compute; reflexivity|]. split; reflexivity.
Qed.

(** ** Removing a subscription *)

Lemma elem_of_sorted_snapshot hot this :
  hot !! c_seq this = Some this -> this ∈ sort_by_seq (snapshot hot).
Proof.
  intros H. rewrite sort_by_seq_perm. apply elem_of_snapshot. eauto.
Qed.

(** C8. Removing a subscription whose collector is already pending only
    takes the listener out of the object's listener sequence: the pending
    set, the pending maps and everything else stay as they were.  The next
    session therefore still delivers that collector: with callbacks that
    change nothing exactly once, with the batch it had accumulated, and
    with any callbacks in the first pass of the session. *)
Theorem removed_hot_collector_still_delivered (st : state) (h : handle)
    (this : ChangeCollector) (fuel : nat) :
  hot_wf st ->
  st_hotChangeCollectors st !! c_seq this = Some this ->
  exists st1,
    remove h st = Ok tt st1 /\
    st1 = with_map (alter (remove_first (h_callback h)) (h_pojo h)) st /\
    st_hotChangeCollectors st1 = st_hotChangeCollectors st /\
    st_oldVals st1 = st_oldVals st /\
    (exists st2 tr1 tr2,
       deliverAllByTimeout quiet (S (S fuel)) st1 = Ok tt st2 /\
       st_trace st2
       = (st_trace st ++ tr1
            ++ Delivered this (oldVals_of st this) :: tr2)%list /\
       (this ∉ deliveries tr1) /\
       (this ∉ deliveries tr2)) /\
    (forall cl st2,
       deliverAllByTimeout cl fuel st1 = Ok tt st2 ->
       exists tr first rest,
         st_trace st2 = (st_trace st ++ tr)%list /\
         deliveries tr = (first ++ concat rest)%list /\
         this ∈ first).
Proof.
  intros Hwf Hhot.
  set (st1 := with_map (alter (remove_first (h_callback h)) (h_pojo h)) st).
  exists st1. repeat split.
  - rewrite drain_quiet. fold st1.
    set (pass := sort_by_seq (snapshot (st_hotChangeCollectors st1))).
    assert (NoDup (c_seq <$> pass)) as Hnd
      by (by apply (sorted_snapshot_NoDup st1)).
    assert (this ∈ pass) as Hin by (by apply elem_of_sorted_snapshot).
    apply list_elem_of_split in Hin as (l1 & l2 & Hpass).
    set (D := fun c =>
           Delivered c (oldVals_of (with_hot (fun _ => ∅) st1) c)).
    exists (with_deliverHandle false
              (foldl delivered_quietly (with_hot (fun _ => ∅) st1) pass)),
      (D <$> l1), (D <$> l2).
    split; [done|]. split.
    + simpl. rewrite foldl_delivered_quietly_trace by done.
      fold D. by rewrite Hpass, fmap_app, fmap_cons.
    + unfold D. rewrite !deliveries_fmap_Delivered.
      apply NoDup_fmap_1 in Hnd. rewrite Hpass in Hnd.
      apply NoDup_app in Hnd as (_ & H1 & H2).
      apply NoDup_cons in H2 as [H2 _]. split; [|done].
      intros Hl1. apply (H1 _ Hl1). left.
  - intros cl st2 Hdrain.
    apply drain_passes in Hdrain as (tr & passes & E & D & [_ Hshape] & _).
    pose proof (elem_of_sorted_snapshot _ _ Hhot) as Hin.
    change (st_hotChangeCollectors st1) with (st_hotChangeCollectors st)
      in Hshape.
    destruct (sort_by_seq (snapshot (st_hotChangeCollectors st)))
      as [|c cs] eqn:Hsort; [by apply elem_of_nil in Hin|].
    destruct Hshape as (rest & ->).
    exists tr, (c :: cs), rest. by rewrite D.
Qed.

(** On [removed_while_hot]: the first of two observers is removed after the
    change and is still called with [{x: 0}]. *)
Lemma removed_hot_collector_still_delivered_witness :
  let this := mkCollector 0 7 in
  let h := mkHandle 0 (OnChange 0 this) in
  hot_wf removed_while_hot /\
  st_hotChangeCollectors removed_while_hot !! 0 = Some this /\
  exists st1,
    remove h removed_while_hot = Ok tt st1 /\
    st_map st1 !! 0 = Some [OnChange 1 (mkCollector 1 8)] /\
    st_hotChangeCollectors st1 = st_hotChangeCollectors removed_while_hot /\
    exists st2 tr1 tr2,
      deliverAllByTimeout quiet 2 st1 = Ok tt st2 /\
      st_trace st2
      = (st_trace removed_while_hot ++ tr1
           ++ Delivered this {[ "x" := num 0 ]} :: tr2)%list.
Proof.
  intros this h.
  assert (hot_wf removed_while_hot) as Hwf.
  { assert (st_hotChangeCollectors removed_while_hot
            = {[ 0 := this; 1 := mkCollector 1 8 ]}) as E
      by (vm_compute; reflexivity).
    intros s c. rewrite E. intros H.
    apply lookup_insert_Some in H as [[<- <-]|[_ H]]; [reflexivity|].
    apply lookup_singleton_Some in H as [<- <-]. reflexivity. }
  assert (st_hotChangeCollectors removed_while_hot !! c_seq this = Some this)
    as Hhot by (vm_compute; reflexivity).
  destruct (removed_hot_collector_still_delivered
              removed_while_hot h this 0 Hwf Hhot)
    as (st1 & Hr & E1 & Hh & _ & (st2 & tr1 & tr2 & Hd & Et & _) & _).
  split; [exact Hwf|]. split; [exact Hhot|].
  exists st1. split; [exact Hr|]. split; [rewrite E1; vm_compute; reflexivity|].
  split; [exact Hh|].
  exists st2, tr1, tr2. split; [exact Hd|].
  rewrite Et. replace (oldVals_of removed_while_hot this)
    with ({[ "x" := num 0 ]} : gmap string value)
    by (vm_compute; reflexivity).
  reflexivity.
Defined.

(** ** The setter *)

Lemma lookup_replace_prop prop p o :
  is_Some (lookup_prop prop o) ->
  lookup_prop prop (replace_prop prop p o) = Some p.
Proof.
  induction o as [|[k q] o IH]; simpl; [by intros [? ?]|].
  destruct (String.eqb k prop) eqn:E; simpl; rewrite E; auto.
Qed.

Lemma lookup_replace_prop_ne prop prop' p o :
  prop <> prop' ->
  lookup_prop prop' (replace_prop prop p o) = lookup_prop prop' o.
Proof.
  intros Hne. induction o as [|[k q] o IH]; simpl; [done|].
  destruct (String.eqb k prop) eqn:E; simpl.
  - apply String.eqb_eq in E as ->.
    by destruct (String.eqb_spec prop prop').
  - by rewrite IH.
Qed.

Lemma keys_replace_prop prop p o :
  map fst (replace_prop prop p o) = map fst o.
Proof.
  induction o as [|[k q] o IH]; simpl; [done|].
  destruct (String.eqb k prop); simpl; [done|]. by rewrite IH.
Qed.

Lemma forEach_call callbacks prop oldVal newVal st :
  exists st',
    forEach callbacks (fun watcher => call watcher prop oldVal newVal) st
    = Ok tt st' /\
    st_trace st'
    = (st_trace st
       ++ concat ((fun w => call_events w prop oldVal newVal)
                    <$> callbacks))%list
    /\ st_heap st' = st_heap st
    /\ st_map st' = st_map st.
Proof.
  revert st. induction callbacks as [|w ws IH]; intros st; simpl.
  - exists st. by rewrite app_nil_r.
  - unfold bind.
    destruct (call_Ok w prop oldVal newVal st) as (st1 & -> & Et & Eh & Em).
    destruct (IH st1) as (st' & -> & Et' & Eh' & Em').
    exists st'. rewrite Et', Et, Eh', Eh, Em', Em, <- app_assoc. auto.
Qed.

(** [notify] calls every listener registered on the object, once, in the
    order of registration. *)
Lemma notify_Ok pojo prop oldVal newVal st :
  exists st',
    notify pojo prop oldVal newVal st = Ok tt st' /\
    st_trace st'
    = (st_trace st
       ++ concat ((fun w => call_events w prop oldVal newVal)
                    <$> default [] (st_map st !! pojo)))%list
    /\ st_heap st' = st_heap st
    /\ st_map st' = st_map st.
Proof. unfold notify, bind, gets. apply forEach_call. Qed.

(** Assigning a different value that is not an object: the shadow value
    changes and every listener of the object hears of it. *)
Lemma assign_primitive fuel st pojo prop o curVal nw cb newVal :
  st_heap st !! pojo = Some o ->
  lookup_prop prop o = Some (Accessor curVal nw cb) ->
  js_is newVal curVal = false ->
  is_object newVal = false ->
  exists st' o',
    assign fuel pojo prop newVal st = Ok tt st' /\
    st_heap st' !! pojo = Some o' /\
    lookup_prop prop o' = Some (Accessor newVal None cb) /\
    st_trace st'
    = (st_trace st
       ++ concat ((fun w => call_events w prop curVal newVal)
                    <$> default [] (st_map (detach nw st) !! pojo)))%list.
Proof.
  intros Hheap Hcell Hne Hprim.
  unfold assign. rewrite Hheap, Hcell. unfold setter. rewrite Hne, Hprim.
  destruct nw as [h|]; unfold bind, remove, store_cell, modify, ret; simpl.
  - match goal with |- context [notify pojo prop curVal newVal ?s] =>
      destruct (notify_Ok pojo prop curVal newVal s)
        as (st' & -> & Et & Eh & Em) end.
    simpl in *. exists st'. eexists. split; [done|]. rewrite Eh, Et.
    rewrite !lookup_alter_eq, Hheap. simpl. split; [done|]. split; [|done].
    apply lookup_replace_prop. rewrite lookup_replace_prop; eauto.
  - match goal with |- context [notify pojo prop curVal newVal ?s] =>
      destruct (notify_Ok pojo prop curVal newVal s)
        as (st' & -> & Et & Eh & Em) end.
    simpl in *. exists st'. eexists. split; [done|]. rewrite Eh, Et.
    rewrite !lookup_alter_eq, Hheap. simpl. split; [done|]. split; [|done].
    apply lookup_replace_prop. eauto.
Qed.

(** C5. The setter compares with same-value equality, which holds exactly
    of identical values ([NaN] is itself, [+0] and [-0] differ) and is
    [===] everywhere else.  Assigning
    a value that is same-value-equal to the shadow value, [NaN] over [NaN]
    included, returns with the state as it was: the shadow value stays and
    no listener is called.  Assigning [-0] over [+0], or [+0] over [-0],
    changes the shadow value and calls every listener of the object with
    the property, the old and the new value. *)
Theorem setter_same_value_is_noop (fuel : nat) (st : state) (pojo : loc)
    (prop : string) (o : object) (curVal : value) (nw : option handle)
    (cb : listener) :
  st_heap st !! pojo = Some o ->
  lookup_prop prop o = Some (Accessor curVal nw cb) ->
  (forall a b, js_is a b = true <-> a = b) /\
  (forall a b,
     a <> nan ->
     ~ (exists s t, a = VNum (S754_zero s) /\ b = VNum (S754_zero t)) ->
     js_is a b = strict_eq a b) /\
  js_is nzero pzero = false /\
  js_is pzero nzero = false /\
  js_is nan nan = true /\
  (forall newVal,
     js_is newVal curVal = true ->
     assign fuel pojo prop newVal st = Ok tt st) /\
  (forall newVal,
     (curVal = pzero /\ newVal = nzero) \/ (curVal = nzero /\ newVal = pzero) ->
     exists st' o',
       assign fuel pojo prop newVal st = Ok tt st' /\
       st_heap st' !! pojo = Some o' /\
       lookup_prop prop o' = Some (Accessor newVal None cb) /\
       st_trace st'
       = (st_trace st
          ++ concat ((fun w => call_events w prop curVal newVal)
                       <$> default [] (st_map (detach nw st) !! pojo)))%list).
Proof.
  intros Hheap Hcell. repeat split; try reflexivity.
  - by apply js_is_spec.
  - by apply js_is_spec.
  - apply js_is_strict_eq.
  - intros newVal Hsame. unfold assign. rewrite Hheap, Hcell.
    unfold setter. by rewrite Hsame.
  - intros newVal [[-> ->]|[-> ->]];
      by apply (assign_primitive fuel st pojo prop o).
Qed.

(** On [watched_zero]: [+0] over [+0] and [NaN] over [NaN] change nothing,
    [-0] over [+0] is notified. *)
Lemma setter_same_value_is_noop_witness :
  let w := OnChange 0 (mkCollector 0 7) in
  assign 3 0 "x" pzero watched_zero = Ok tt watched_zero /\
  assign 3 0 "y" nan watched_zero = Ok tt watched_zero /\
  exists st',
    assign 3 0 "x" nzero watched_zero = Ok tt st' /\
    st_trace st' = [Notified w "x" pzero nzero].
Proof.
  intros w.
  assert (st_heap watched_zero !! 0
          = Some [("x", Accessor pzero None w); ("y", Accessor nan None w)])
    as Hheap by (vm_compute; reflexivity).
  destruct (setter_same_value_is_noop 3 watched_zero 0 "x" _ pzero None w
              Hheap eq_refl) as (_ & _ & _ & _ & _ & Hsame & Hzero).
  destruct (setter_same_value_is_noop 3 watched_zero 0 "y" _ nan None w
              Hheap eq_refl) as (_ & _ & _ & _ & _ & Hnan & _).
  split; [apply Hsame; reflexivity|].
  split; [apply Hnan; reflexivity|].
  destruct (Hzero nzero (or_introl (conj eq_refl eq_refl)))
    as (st' & o' & Ha & _ & _ & Et).
  exists st'. split; [exact Ha|]. rewrite Et. vm_compute. reflexivity.
Defined.

(** ** Interception happens once *)

Lemma same_object_refl o : same_object o o.
Proof. by split. Qed.

Lemma same_object_trans o1 o2 o3 :
  same_object o1 o2 -> same_object o2 o3 -> same_object o1 o3.
Proof.
  intros [K1 R1] [K2 R2]. split; [congruence|]. intros k. by rewrite R2.
Qed.

Lemma same_values_refl st : same_values st st.
Proof.
  intros l. destruct (st_heap st !! l); constructor. apply same_object_refl.
Qed.

Lemma same_values_heap st st' :
  st_heap st' = st_heap st -> same_values st st'.
Proof.
  intros E l. rewrite E. destruct (st_heap st !! l); constructor.
  apply same_object_refl.
Qed.

Lemma same_values_trans st1 st2 st3 :
  same_values st1 st2 -> same_values st2 st3 -> same_values st1 st3.
Proof.
  intros H1 H2 l. specialize (H1 l). specialize (H2 l).
  destruct H1 as [o1 o2 H1|]; inversion H2; subst; constructor.
  by eapply same_object_trans.
Qed.

Lemma same_values_dom st st' :
  same_values st st' -> dom (st_heap st') = dom (st_heap st).
Proof.
  intros H. apply set_eq. intros l. rewrite !elem_of_dom.
  specialize (H l). destruct H; split; intros [? ?]; done.
Qed.

(** Interception keeps a heap closed. *)
Lemma closed_same_values st st' :
  closed st -> same_values st st' -> closed st'.
Proof.
  intros Hc Hs l o' k p' l' Hl Hk Hr.
  rewrite (same_values_dom _ _ Hs).
  pose proof (Hs l) as Hsl. rewrite Hl in Hsl.
  inversion Hsl as [o ? [_ Hread] Ho|]; subst.
  specialize (Hread k). rewrite Hk in Hread. simpl in Hread.
  destruct (lookup_prop k o) as [p|] eqn:Hp; [|done].
  injection Hread as Hread.
  eapply (Hc l o k p); [done|done|congruence].
Qed.

Lemma same_object_replace prop p q o :
  lookup_prop prop o = Some p -> read q = read p ->
  same_object o (replace_prop prop q o).
Proof.
  intros Hp Hq. split; [apply keys_replace_prop|].
  intros k. destruct (decide (prop = k)) as [<-|Hne].
  - rewrite lookup_replace_prop, Hp by eauto. simpl. by rewrite Hq.
  - by rewrite lookup_replace_prop_ne.
Qed.

Lemma lookup_prop_keys k o :
  k ∈ map fst o -> is_Some (lookup_prop k o).
Proof.
  induction o as [|[k' p] o IH]; simpl; [by intros ?%elem_of_nil|].
  intros [->|Hin]%elem_of_cons.
  - rewrite String.eqb_refl. eauto.
  - destruct (String.eqb k' k); eauto.
Qed.

Lemma is_object_VObj v : is_object v = true -> exists l, v = VObj l.
Proof.
  destruct v; try discriminate; eauto.
  - simpl. by destruct b.
  - unfold is_object. simpl. by destruct x.
  - unfold is_object. simpl. by rewrite andb_false_r.
  - unfold is_object. simpl. by rewrite andb_false_r.
Qed.

Lemma intercepted_refl l cb st : intercepted l cb st st.
Proof.
  split; [apply same_values_refl|]. split; [done|]. split; [done|].
  intros o o' k v nw Ho Ho' Hk. assert (o' = o) as -> by congruence. eauto.
Qed.

Lemma intercepted_trans l cb st1 st2 st3 :
  intercepted l cb st1 st2 -> intercepted l cb st2 st3 ->
  intercepted l cb st1 st3.
Proof.
  intros (S1 & D1 & F1 & A1) (S2 & D2 & F2 & A2).
  split; [by eapply same_values_trans|]. split; [set_solver|]. split.
  - intros l' Hne Hl'. rewrite F2 by set_solver. by apply F1.
  - intros o o3 k v nw Ho Ho3 Hk.
    pose proof (S1 l) as Hl. rewrite Ho in Hl.
    inversion Hl as [? o2 _ E1 E2|]; subst.
    symmetry in E2.
    destruct (A1 o o2 k v nw Ho E2 Hk) as (nw' & Hk2).
    by eapply A2.
Qed.

Lemma unwatched_mono st st' :
  same_values st st' -> dom (st_map st) ⊆ dom (st_map st') ->
  size (unwatched st') <= size (unwatched st).
Proof.
  intros Hs Hd. apply subseteq_size. unfold unwatched.
  rewrite (same_values_dom _ _ Hs).
  intros x [Hx Hn]%elem_of_difference. apply elem_of_difference.
  split; [done|]. intros Hx'. by apply Hn, Hd.
Qed.

Lemma watched_intercepted l l2 cb f st st' :
  l ∈ dom (st_map st) -> watched l2 f st st' -> intercepted l cb st st'.
Proof.
  intros Hl (S & D & F & _). split; [done|]. split; [done|]. split.
  - intros l' _ Hl'. by apply F.
  - intros o o' k v nw Ho Ho' Hk. rewrite (F l Hl), Ho in Ho'.
    injection Ho' as <-. eauto.
Qed.

Lemma defineProperty_intercepted l cb prop st o p nw :
  st_heap st !! l = Some o ->
  lookup_prop prop o = Some p ->
  exists st',
    defineProperty l prop (Accessor (read p) nw cb) st = Ok tt st' /\
    intercepted l cb st st' /\
    st_heap st' !! l
    = Some (replace_prop prop (Accessor (read p) nw cb) o) /\
    st_map st' = st_map st.
Proof.
  intros Ho Hp. eexists. split; [reflexivity|]. simpl.
  assert (forall l', l' <> l ->
    alter (replace_prop prop (Accessor (read p) nw cb)) l (st_heap st) !! l'
    = st_heap st !! l') as Hother
    by (intros l' Hne; by rewrite lookup_alter_ne).
  assert (alter (replace_prop prop (Accessor (read p) nw cb)) l (st_heap st)
            !! l
          = Some (replace_prop prop (Accessor (read p) nw cb) o)) as Hsame
    by (by rewrite lookup_alter_eq, Ho).
  split; [|done]. split; [|split; [done|split]].
  - intros l'. simpl. destruct (decide (l' = l)) as [->|Hne].
    + rewrite Hsame, Ho. constructor. by eapply same_object_replace.
    + rewrite Hother by done. destruct (st_heap st !! l'); constructor.
      apply same_object_refl.
  - intros l' Hne _. simpl. by apply Hother.
  - intros o1 o' k v nw1 Ho1 Ho' Hk. simpl in Ho'.
    rewrite Hsame in Ho'. injection Ho' as <-.
    assert (o1 = o) as -> by congruence.
    destruct (decide (prop = k)) as [<-|Hne].
    + rewrite lookup_replace_prop by eauto.
      rewrite Hp in Hk. injection Hk as ->. eauto.
    + rewrite lookup_replace_prop_ne by done. eauto.
Qed.

Section Intercept.
Variable watch : value -> listener -> M handle.
Variable n : nat.
Hypothesis watch_spec :
  forall l f st,
    closed st -> l ∈ dom (st_heap st) -> size (unwatched st) < n ->
    exists st',
      watch (VObj l) f st = Ok (mkHandle l f) st' /\ watched l f st st'.

(** One property: its accessor is installed, and those installed before
    stay. *)
Lemma intercept_step l cb prop st o :
  closed st -> l ∈ dom (st_map st) -> size (unwatched st) < n ->
  st_heap st !! l = Some o -> is_Some (lookup_prop prop o) ->
  exists st' o' v nw,
    intercept watch l cb prop st = Ok tt st' /\
    intercepted l cb st st' /\
    st_heap st' !! l = Some o' /\
    lookup_prop prop o' = Some (Accessor v nw cb).
Proof.
  intros Hc Hl Hn Ho [p Hp].
  unfold intercept. unfold bind at 1. unfold get. rewrite Ho, Hp.
  destruct (is_object (read p)) eqn:Hobj.
  - apply is_object_VObj in Hobj as [l2 Hl2]. rewrite Hl2.
    unfold nested_listener, fresh_fn, bind, gets, modify, ret. simpl.
    set (st1 := with_next_fn (S (st_next_fn st)) st).
    set (f := Nested (st_next_fn st) prop cb).
    destruct (watch_spec l2 f st1) as (st2 & -> & Hw);
      [done|by eapply Hc|done|].
    pose proof Hw as (S2 & D2 & F2 & _).
    assert (st_heap st2 !! l = Some o) as Ho2 by (by rewrite F2).
    rewrite <- Hl2.
    destruct (defineProperty_intercepted l cb prop st2 o p
                (Some (mkHandle l2 f)) Ho2 Hp)
      as (st3 & -> & Hi & Ho3 & _).
    exists st3. do 3 eexists. split; [done|]. split; [|split; [done|]].
    + eapply (intercepted_trans _ _ st st2 st3); [|done].
      by eapply (watched_intercepted l l2 cb f st1 st2).
    + apply lookup_replace_prop. eauto.
  - unfold bind, ret.
    destruct (defineProperty_intercepted l cb prop st o p None Ho Hp)
      as (st3 & -> & Hi & Ho3 & _).
    exists st3. do 3 eexists. split; [done|]. split; [done|split; [done|]].
    apply lookup_replace_prop. eauto.
Qed.

(** All properties. *)
Lemma forEach_intercept l cb ks st o :
  closed st -> l ∈ dom (st_map st) -> size (unwatched st) < n ->
  st_heap st !! l = Some o ->
  (forall k, k ∈ ks -> is_Some (lookup_prop k o)) ->
  exists st' o',
    forEach ks (intercept watch l cb) st = Ok tt st' /\
    intercepted l cb st st' /\
    st_heap st' !! l = Some o' /\
    forall k, k ∈ ks -> exists v nw,
      lookup_prop k o' = Some (Accessor v nw cb).
Proof.
  revert st o. induction ks as [|k ks IH]; intros st o Hc Hl Hn Ho Hks.
  - exists st, o. split; [done|]. split; [apply intercepted_refl|].
    split; [done|]. by intros k ?%elem_of_nil.
  - destruct (intercept_step l cb k st o)
      as (st1 & o1 & v & nw & E1 & I1 & Ho1 & Hk1); auto.
    { apply Hks. left. }
    pose proof I1 as (S1 & D1 & _).
    destruct (IH st1 o1) as (st' & o' & E' & I' & Ho' & Hks').
    + by eapply closed_same_values.
    + set_solver.
    + pose proof (unwatched_mono _ _ S1 D1). lia.
    + done.
    + intros k' Hk'. specialize (S1 l). rewrite Ho, Ho1 in S1.
      inversion S1 as [? ? [_ Hread]|]; subst. specialize (Hread k').
      destruct (Hks k') as [p Hp]; [by right|]. rewrite Hp in Hread.
      destruct (lookup_prop k' o1); [eauto|done].
    + exists st', o'. simpl. unfold bind. rewrite E1.
      split; [done|]. split; [by eapply intercepted_trans|].
      split; [done|]. intros k' [->|Hk']%elem_of_cons; [|by apply Hks'].
      destruct I' as (_ & _ & _ & A').
      destruct (A' o1 o' k v nw Ho1 Ho' Hk1) as (nw' & ?). eauto.
Qed.
End Intercept.

Lemma unwatched_register l st :
  l ∈ dom (st_heap st) -> st_map st !! l = None ->
  size (unwatched (with_map <[l := []]> st)) < size (unwatched st).
Proof.
  intros Hh Hm. apply subset_size. unfold unwatched. simpl.
  rewrite dom_insert_L. apply not_elem_of_dom in Hm. split.
  - intros x [Hx Hn]%elem_of_difference. apply elem_of_difference.
    split; [done|]. intros Hx'. apply Hn, elem_of_union. by right.
  - intros Hsub.
    assert (l ∈ dom (st_heap st) ∖ dom (st_map st)) as Hin
      by (by apply elem_of_difference).
    apply Hsub, elem_of_difference in Hin as [_ Hin].
    apply Hin, elem_of_union. left. by apply elem_of_singleton.
Qed.

(** The enumeration visits the own names, all of them. *)
Lemma insert_index_perm k l : insert_index k l ≡ₚ k :: l.
Proof.
  induction l as [|j l IH]; simpl; [done|].
  destruct (k.1 <=? j.1)%N; [done|].
  rewrite IH. apply Permutation_swap.
Qed.

Lemma sort_index_perm l : foldr insert_index [] l ≡ₚ l.
Proof.
  induction l as [|k l IH]; simpl; [done|].
  by rewrite insert_index_perm, IH.
Qed.

Lemma elem_of_own_enumeration k (o : object) :
  k ∈ own_enumeration o <-> k ∈ map fst o.
Proof.
  unfold own_enumeration. rewrite elem_of_app, sort_index_perm.
  rewrite list_elem_of_fmap, list_elem_of_filter. split.
  - intros [([n k'] & -> & Hin)|[_ Hin]]; [|done].
    apply list_elem_of_omap in Hin as (k0 & Hk0 & Hn).
    destruct (array_index k0); [|done]. by injection Hn as _ <-.
  - intros Hin. destruct (array_index k) as [n|] eqn:Hn; [left|by right].
    exists (n, k). split; [done|]. apply list_elem_of_omap.
    exists k. by rewrite Hn.
Qed.

Lemma own_enumeration_keys (o o' : object) :
  map fst o' = map fst o -> own_enumeration o' = own_enumeration o.
Proof. unfold own_enumeration. by intros ->. Qed.

(** With fuel for every object that is not registered yet, [watchPojo]
    returns. *)
Lemma watchPojo_total fuel l f st :
  closed st -> l ∈ dom (st_heap st) -> size (unwatched st) < fuel ->
  exists st',
    watchPojo fuel (VObj l) f st = Ok (mkHandle l f) st' /\
    watched l f st st'.
Proof.
  revert l f st. induction fuel as [|fuel IH]; intros l f st Hc Hl Hn; [lia|].
  simpl. unfold bind at 1. unfold gets at 1.
  destruct (st_map st !! l) as [cbs|] eqn:Hm.
  - eexists. split; [reflexivity|]. unfold watched. simpl.
    split; [by apply same_values_heap|]. split; [by rewrite dom_alter_L|].
    split; [done|]. split; [|intros ?; congruence].
    exists cbs. by rewrite lookup_alter_eq, Hm.
  - unfold bind at 1 2. unfold modify at 1.
    unfold bind at 1, own_keys at 1. cbn [st_heap with_map].
    destruct (st_heap st !! l) as [o|] eqn:Ho;
      [|by apply not_elem_of_dom in Ho].
    set (st1 := with_map <[l := []]> st).
    destruct (forEach_intercept (watchPojo fuel) fuel IH l f
                (own_enumeration o) st1 o)
      as (st2 & o2 & -> & (S2 & D2 & F2 & A2) & Ho2 & Hacc).
    + done.
    + simpl. rewrite dom_insert_L. set_solver.
    + pose proof (unwatched_register l st Hl Hm) as Hlt.
      fold st1 in Hlt. lia.
    + done.
    + intros k Hk. by apply lookup_prop_keys, elem_of_own_enumeration.
    + eexists. split; [reflexivity|]. unfold watched. simpl.
      assert (l ∈ dom (st_map st2)) as Hl2.
      { apply D2. simpl. rewrite dom_insert_L. set_solver. }
      split.
      { eapply same_values_trans; [|exact S2]. by apply same_values_heap. }
      split.
      { rewrite dom_alter_L. etransitivity; [|exact D2].
        simpl. rewrite dom_insert_L. set_solver. }
      split.
      { intros l' Hl'. rewrite F2; [done| |].
        - intros ->. apply not_elem_of_dom in Hm. done.
        - simpl. rewrite dom_insert_L. set_solver. }
      split.
      { apply elem_of_dom in Hl2 as [cbs Hcbs]. exists cbs.
        by rewrite lookup_alter_eq, Hcbs. }
      intros _ o0 Ho0. assert (o0 = o) as -> by congruence.
      exists o2. split; [done|].
      specialize (S2 l). simpl in S2. rewrite Ho, Ho2 in S2.
      inversion S2 as [? ? [Hkeys Hread]|]; subst. split; [done|].
      intros k p Hk.
      destruct (Hacc k) as (v & nw & Hk2).
      { apply elem_of_own_enumeration.
        apply list_elem_of_fmap. exists (k, p). split; [done|].
        clear -Hk. induction o as [|[k' q] o IHo]; [done|]. simpl in Hk.
        destruct (String.eqb_spec k' k) as [->|].
        - injection Hk as ->. left.
        - right. auto. }
      specialize (Hread k). rewrite Hk, Hk2 in Hread. simpl in Hread.
      injection Hread as ->. eauto.
Qed.

#[local] Instance points_into_dec heap p : Decision (points_into heap p).
Proof. unfold points_into. destruct (read p.2); apply _. Defined.

Lemma lookup_prop_elem_of k p (o : object) :
  lookup_prop k o = Some p -> (k, p) ∈ o.
Proof.
  induction o as [|[k' q] o IH]; simpl; [done|].
  destruct (String.eqb_spec k' k) as [->|].
  - intros [= ->]. left.
  - right. auto.
Qed.

Lemma closed_checked st :
  map_Forall (fun _ o => Forall (points_into (st_heap st)) o) (st_heap st) ->
  closed st.
Proof.
  intros H l o k p l' Ho Hk Hr.
  specialize (H l o Ho). rewrite Forall_forall in H.
  specialize (H _ (lookup_prop_elem_of _ _ _ Hk)).
  unfold points_into in H. simpl in H. by rewrite Hr in H.
Qed.

(** A later [watchPojo] of a registered object pushes its callback and does
    nothing else. *)
Lemma watchPojo_registered fuel l callback callbacks st :
  st_map st !! l = Some callbacks ->
  watchPojo (S fuel) (VObj l) callback st
  = Ok (mkHandle l callback)
      (with_map (alter (fun cbs => cbs ++ [callback])%list l) st).
Proof. intros H. simpl. unfold bind, gets. by rewrite H. Qed.

(** C7. Watching an object for the first time registers it and turns each
    of its own properties into an accessor over the value it held; given
    fuel for the objects not registered yet, the call returns.  From then on
    the object stays registered whatever the program and the callbacks do,
    and every later watch of a registered object returns with its callback
    appended to the listener sequence and nothing else changed: no property
    is read and no accessor is defined again. *)
Theorem accessors_installed_once (fuel : nat) (st : state) (l : loc)
    (callback : listener) :
  closed st -> l ∈ dom (st_heap st) -> size (unwatched st) < fuel ->
  exists st',
    watchPojo fuel (VObj l) callback st = Ok (mkHandle l callback) st' /\
    (st_map st !! l = None ->
     forall o, st_heap st !! l = Some o ->
       exists o', st_heap st' !! l = Some o' /\ installed callback o o') /\
    (exists cbs, st_map st' !! l = Some (cbs ++ [callback])%list) /\
    (forall cl fuel' script,
       l ∈ dom (st_map (state_of (task cl fuel' script st')))) /\
    (forall st2 fuel2 callback2 callbacks,
       st_map st2 !! l = Some callbacks ->
       watchPojo (S fuel2) (VObj l) callback2 st2
       = Ok (mkHandle l callback2)
           (with_map (alter (fun cbs => cbs ++ [callback2])%list l) st2)).
Proof.
  intros Hc Hl Hn.
  destruct (watchPojo_total fuel l callback st Hc Hl Hn)
    as (st' & E & _ & _ & _ & Hlast & Hinst).
  exists st'. split; [done|]. split; [done|]. split; [done|]. split.
  - intros cl fuel' script. apply (steps_task map_grows cl fuel' script st').
    destruct Hlast as (cbs & Hcbs). apply elem_of_dom. eauto.
  - intros st2 fuel2 callback2 callbacks. apply watchPojo_registered.
Qed.

(** On [nested_pojo]: the first watch installs the accessors, the second
    only adds its listener. *)
Lemma accessors_installed_once_witness :
  let w := OnChange 0 (mkCollector 0 7) in
  let w2 := OnChange 5 (mkCollector 1 8) in
  closed nested_pojo /\
  1 ∈ dom (st_heap nested_pojo) /\
  size (unwatched nested_pojo) < 3 /\
  exists st',
    watchPojo 3 (VObj 1) w nested_pojo = Ok (mkHandle 1 w) st' /\
    st_heap st' !! 1
    = Some [ ("a", Accessor (VObj 0) (Some (mkHandle 0 (Nested 0 "a" w))) w);
             ("c", Accessor (num 2) None w) ] /\
    st_map st' !! 1 = Some [w] /\
    exists st'',
      watchPojo 3 (VObj 1) w2 st' = Ok (mkHandle 1 w2) st'' /\
      st_heap st'' = st_heap st' /\
      st_map st'' !! 1 = Some [w; w2].
Proof.
  intros w w2.
  assert (closed nested_pojo) as Hc.
  { apply closed_checked. apply (bool_decide_unpack _).
    vm_compute. reflexivity. }
  assert (1 ∈ dom (st_heap nested_pojo)) as Hl
    by (apply (bool_decide_unpack _); vm_compute; reflexivity).
  assert (size (unwatched nested_pojo) < 3) as Hn
    by (apply (bool_decide_unpack _); vm_compute; reflexivity).
  destruct (accessors_installed_once 3 nested_pojo 1 w Hc Hl Hn)
    as (st' & E & _ & _ & _ & Hagain).
  split; [exact Hc|]. split; [exact Hl|]. split; [exact Hn|].
  exists st'. split; [exact E|].
  assert (st' = state_of (watchPojo 3 (VObj 1) w nested_pojo)) as ->
    by (by rewrite E).
  assert (st_map (state_of (watchPojo 3 (VObj 1) w nested_pojo)) !! 1
          = Some [w]) as Hm by (vm_compute; reflexivity).
  split; [vm_compute; reflexivity|]. split; [exact Hm|].
  eexists. split; [apply (Hagain _ 2 w2 [w] Hm)|].
  split; [reflexivity|]. vm_compute. reflexivity.
Defined.

(** ** First write wins *)

(** The pending map [this.oldVals] after [onChange]. *)
Lemma onChange_oldVals this prop oldVal st :
  oldVals_of (state_of (onChange this prop oldVal st)) this
  = if in_oldVals prop (oldVals_of st this) then oldVals_of st this
    else <[prop := oldVal]> (oldVals_of st this).
Proof.
  unfold onChange, bind, gets, modify, schedule, ret. simpl.
  destruct (in_oldVals prop (oldVals_of st this)); simpl;
    destruct (st_deliverHandle st); simpl; try done;
    unfold oldVals_of; simpl; by rewrite lookup_insert_eq.
Qed.

(** A recorded path makes its collector pending, with a delivery
    scheduled. *)
Lemma onChange_hot this prop oldVal st :
  in_oldVals prop (oldVals_of st this) = false ->
  let st' := state_of (onChange this prop oldVal st) in
  st_hotChangeCollectors st'
  = <[c_seq this := this]> (st_hotChangeCollectors st)
  /\ st_deliverHandle st' = true.
Proof.
  intros Hin. unfold onChange, bind, gets, modify, schedule, ret. simpl.
  rewrite Hin. simpl. destruct (st_deliverHandle st) eqn:E; simpl; auto.
Qed.

Lemma feed_cons watcher c cs st :
  feed watcher (c :: cs) st
  = match call watcher c.1.1 c.1.2 c.2 st with
    | Ok _ st' => feed watcher cs st'
    | Err e st' => Err e st'
    end.
Proof. reflexivity. Qed.

(** Fed a burst of such changes, the collector holds for every path the
    old value of its first change, on top of what it held before. *)
Lemma feed_first_write_wins fid this changes st :
  own_paths changes ->
  oldVals_of (state_of (feed (OnChange fid this) changes st)) this
  = oldVals_of st this ∪ list_to_map (fst <$> changes).
Proof.
  revert st. induction changes as [|[[p o] n] cs IH]; intros st Hown.
  - simpl. apply map_eq. intros k. rewrite lookup_union, lookup_empty.
    by destruct (oldVals_of st this !! k).
  - apply Forall_cons in Hown as [Hp Hown]. simpl in Hp.
    rewrite feed_cons. cbn [fst snd].
    destruct (call_Ok (OnChange fid this) p o n st) as (st1 & E1 & _).
    rewrite E1. rewrite IH by done.
    assert (oldVals_of st1 this
            = if in_oldVals p (oldVals_of st this) then oldVals_of st this
              else <[p := o]> (oldVals_of st this)) as ->.
    { replace st1 with (state_of (call (OnChange fid this) p o n st))
        by (by rewrite E1).
      simpl. unfold bind, modify. by rewrite onChange_oldVals. }
    rewrite fmap_cons. simpl.
    unfold in_oldVals. rewrite Hp.
    destruct (oldVals_of st this !! p) as [v|] eqn:Hv.
    + apply map_eq. intros k. rewrite !lookup_union.
      destruct (decide (p = k)) as [<-|Hne].
      * rewrite Hv, lookup_insert_eq. simpl.
        by destruct (list_to_map (fst <$> cs) !! p).
      * by rewrite lookup_insert_ne.
    + apply map_eq. intros k. rewrite !lookup_union.
      destruct (decide (p = k)) as [<-|Hne].
      * rewrite Hv, !lookup_insert_eq. simpl.
        by destruct (list_to_map (fst <$> cs) !! p).
      * by rewrite !lookup_insert_ne.
Qed.

Lemma onChange_hot_stable this prop oldVal st :
  st_hotChangeCollectors st !! c_seq this = Some this ->
  st_hotChangeCollectors (state_of (onChange this prop oldVal st))
  = st_hotChangeCollectors st.
Proof.
  intros Hhot. unfold onChange, bind, gets, modify, schedule, ret. simpl.
  destruct (in_oldVals prop (oldVals_of st this)); simpl;
    destruct (st_deliverHandle st); simpl; try done; by apply insert_id.
Qed.

Lemma feed_hot_stable fid this changes st :
  st_hotChangeCollectors st !! c_seq this = Some this ->
  st_hotChangeCollectors (state_of (feed (OnChange fid this) changes st))
  = st_hotChangeCollectors st.
Proof.
  revert st. induction changes as [|[[p o] n] cs IH]; intros st Hhot; [done|].
  rewrite feed_cons. cbn [fst snd].
  destruct (call_Ok (OnChange fid this) p o n st) as (st1 & E1 & _).
  rewrite E1.
  assert (st_hotChangeCollectors st1 = st_hotChangeCollectors st) as E.
  { replace st1 with (state_of (call (OnChange fid this) p o n st))
      by (by rewrite E1).
    simpl. unfold bind, modify. by rewrite onChange_hot_stable. }
  rewrite IH; [done|]. by rewrite E.
Qed.

(** One burst, one call: with callbacks that only look and no other
    collector pending, a collector with nothing pending that is fed a burst
    of changes is called once by the next session, with every path of the
    burst mapped to the old value of its first change. *)
Lemma burst_delivered_once fid this changes st fuel :
  own_paths changes -> changes <> [] ->
  st_hotChangeCollectors st = ∅ -> oldVals_of st this = ∅ ->
  exists st1 st2,
    feed (OnChange fid this) changes st = Ok tt st1 /\
    deliverAllByTimeout quiet (S (S fuel)) st1 = Ok tt st2 /\
    st_trace st2
    = (st_trace st1
       ++ [Delivered this (list_to_map (fst <$> changes))])%list.
Proof.
  intros Hown Hne Hhot Hold.
  destruct (feed_Ok (OnChange fid this) changes st) as (st1 & E1).
  exists st1. eexists. split; [done|]. split; [apply drain_quiet|].
  assert (oldVals_of st1 this = list_to_map (fst <$> changes)) as Hsum.
  { replace st1 with (state_of (feed (OnChange fid this) changes st))
      by (by rewrite E1).
    rewrite feed_first_write_wins, Hold by done.
    apply map_eq. intros k. rewrite lookup_union, lookup_empty.
    by destruct (list_to_map (fst <$> changes) !! k). }
  assert (st_hotChangeCollectors st1 = {[ c_seq this := this ]}) as Hhot1.
  { replace st1 with (state_of (feed (OnChange fid this) changes st))
      by (by rewrite E1).
    destruct changes as [|[[p o] n] cs]; [done|].
    apply Forall_cons in Hown as [Hp _]. simpl in Hp.
    rewrite feed_cons. cbn [fst snd].
    destruct (call_Ok (OnChange fid this) p o n st) as (s1 & Es1 & _).
    rewrite Es1.
    assert (st_hotChangeCollectors s1 = {[ c_seq this := this ]}) as Hs1.
    { replace s1 with (state_of (call (OnChange fid this) p o n st))
        by (by rewrite Es1).
      simpl. unfold bind, modify.
      destruct (onChange_hot this p o
                  (log (Notified (OnChange fid this) p o n) st)) as [-> _].
      - change (in_oldVals p (oldVals_of st this) = false).
        rewrite Hold. unfold in_oldVals. by rewrite lookup_empty.
      - simpl. by rewrite Hhot. }
    rewrite feed_hot_stable; [done|]. by rewrite Hs1, lookup_singleton_eq. }
  simpl. rewrite Hhot1. unfold snapshot. rewrite map_to_list_singleton.
  simpl.
  change (oldVals_of (with_hot (fun _ => ∅) st1) this)
    with (oldVals_of st1 this).
  by rewrite Hsum.
Qed.

(** ** Where the code falls short *)

(** C2. The batch of an observer should hold every changed path with the
    value it had before the burst.  The intake tests [prop in this.oldVals],
    and [in] also sees what the pending map inherits from
    [Object.prototype]: a change of a property called [toString] reaches
    the listener, is not recorded, and the callback is never called. *)
Theorem inherited_name_is_never_delivered :
  let this := mkCollector 0 7 in
  in_oldVals "toString" ∅ = true /\
  exists st,
    task quiet 5 inherited_name init = Ok tt st /\
    get (VObj 0) "toString" st = Ok (num 2) st /\
    st_trace st = [Notified (OnChange 0 this) "toString" (num 1) (num 2)] /\
    oldVals_of st this = ∅ /\
    deliveries (st_trace st) = [].
Proof.
  intros this. split; [reflexivity|].
  exists (state_of (task quiet 5 inherited_name init)).
  repeat (split; [vm_compute; reflexivity|]). vm_compute. reflexivity.
Qed.

(** C3. Every listener of an object should hear of every change, nested
    ones included.  The listener [watchPojo] puts on a nested object
    forwards to the [callback] of the call that first intercepted the
    parent, not to the parent's [callbacks]: of two observers of the same
    object only the first hears of a nested change, and only its callback
    is called. *)
Theorem nested_change_reaches_first_listener_only :
  let o1 := mkCollector 0 7 in
  let o2 := mkCollector 1 8 in
  exists st,
    task quiet 5 two_observers_nested init = Ok tt st /\
    st_map st !! 1 = Some [OnChange 0 o1; OnChange 2 o2] /\
    st_map st !! 0 = Some [Nested 1 "a" (OnChange 0 o1)] /\
    st_trace st
    = [ Notified (Nested 1 "a" (OnChange 0 o1)) "b" (num 1) (num 2);
        Notified (OnChange 0 o1) "a.b" (num 1) (num 2);
        Delivered o1 {[ "a.b" := num 1 ]} ].
Proof.
  intros o1 o2.
  exists (state_of (task quiet 5 two_observers_nested init)).
  repeat (split; [vm_compute; reflexivity|]). vm_compute. reflexivity.
Qed.

(** The same burst on a direct property reaches both, in the order of
    registration. *)
Lemma direct_change_reaches_every_listener :
  let o1 := mkCollector 0 7 in
  let o2 := mkCollector 1 8 in
  st_trace (state_of (task quiet 5
    [ NewObject [("b", num 1)]; Observe (VObj 0) 7; Observe (VObj 0) 8;
      Assign 0 "b" (num 2) ] init))
  = [ Notified (OnChange 0 o1) "b" (num 1) (num 2);
      Notified (OnChange 1 o2) "b" (num 1) (num 2);
      Delivered o1 {[ "b" := num 1 ]};
      Delivered o2 {[ "b" := num 1 ]} ].
Proof. vm_compute. reflexivity. Qed.

(** C4. The diff should report every leaf of the new object that differs,
    leaves that are new included.  When a key holds a number in the old
    object and an object in the new one, the recursive call receives the
    number as [oldObj] and [prop in oldObj] throws: nothing is reported, and
    an assignment that replaces such an object ends in a TypeError after
    the shadow value has changed. *)
Theorem diff_throws_on_primitive_replaced_by_object :
  diff 5 (VObj 0) (VObj 2) (fun _ _ _ => ret tt) "" primitive_to_object
  = Err TypeError primitive_to_object /\
  exists st,
    task quiet 5 replace_primitive_by_object init = Err TypeError st /\
    get (VObj 3) "a" st = Ok (VObj 2) st /\
    st_trace st = [].
Proof.
  split; [vm_compute; reflexivity|].
  exists (state_of (task quiet 5 replace_primitive_by_object init)).
  repeat (split; [vm_compute; reflexivity|]). vm_compute. reflexivity.
Qed.

(** Where no primitive is replaced by an object the diff reports the
    changed and the added leaves only: [{a: {b: 1, c: 2}}] observed, then
    [o.a = {b: 1, c: 3, d: 4}]. *)
Lemma diff_reports_changed_leaves :
  let this := mkCollector 0 7 in
  st_trace (state_of (task quiet 5
    [ NewObject [("b", num 1); ("c", num 2)]; NewObject [("a", VObj 0)];
      Observe (VObj 1) 7;
      NewObject [("b", num 1); ("c", num 3); ("d", num 4)];
      Assign 1 "a" (VObj 2) ] init))
  = [ Notified (OnChange 0 this) "a.c" (num 2) (num 3);
      Notified (OnChange 0 this) "a.d" VUndef (num 4);
      Delivered this {[ "a.c" := num 2; "a.d" := VUndef ]} ].
Proof. vm_compute. reflexivity. Qed.

(** C6. A removed observer should never be called again.  [remove] takes
    the listener off the object it was registered on and leaves in place
    the listeners [watchPojo] put on the nested objects, which forward to
    it: after the removal, with no listener left on the object, a nested
    change still reaches the collector and the callback is called. *)
Theorem removed_observer_hears_nested_change :
  let this := mkCollector 0 7 in
  exists st,
    task quiet 5 removed_then_nested init = Ok tt st /\
    st_map st !! 1 = Some [] /\
    st_map st !! 0 = Some [Nested 1 "a" (OnChange 0 this)] /\
    st_trace st
    = [ Notified (Nested 1 "a" (OnChange 0 this)) "b" (num 1) (num 2);
        Notified (OnChange 0 this) "a.b" (num 1) (num 2);
        Delivered this {[ "a.b" := num 1 ]} ].
Proof.
  intros this.
  exists (state_of (task quiet 5 removed_then_nested init)).
  repeat (split; [vm_compute; reflexivity|]). vm_compute. reflexivity.
Qed.

(** Removed before a change of a direct property, the observer is not
    called. *)
Lemma removed_observer_misses_direct_change :
  st_trace (state_of (task quiet 5
    [ NewObject [("b", num 1)]; Observe (VObj 0) 7; Remove 0;
      Assign 0 "b" (num 2) ] init)) = [].
Proof. vm_compute. reflexivity. Qed.

(** ** Stepping on the collectors' side *)

(** As [walk], with [tac] for the state updates. *)
Ltac walk_by tac :=
  repeat match goal with
  | |- PreOrder _ => apply _
  | |- steps _ (ret _) => apply steps_ret
  | |- steps _ (throw _) => apply steps_throw
  | |- steps _ (gets _) => apply steps_gets
  | |- steps _ (own_keys _) => apply steps_own_keys
  | |- steps _ (get _ _) => apply steps_get
  | |- steps _ (js_in _ _) => apply steps_js_in
  | |- steps _ (modify _) => apply steps_modify; intros ?; tac
  | |- steps _ (bind _ _) => apply steps_bind; [| |intros ?]
  | |- steps _ (forEach _ _) => apply steps_forEach; [|intros ?]
  | |- steps _ (if ?b then _ else _) => destruct b
  | |- steps _ (match ?x with _ => _ end) => destruct x
  | |- steps _ _ => solve [auto]
  end.

Section Collecting.
Context (R : relation state) `{!Collecting R}.

Ltac frame := walk_by ltac:(apply col_frame; reflexivity).

Lemma col_watchPojo fuel pojo callback :
  steps R (watchPojo fuel pojo callback).
Proof.
  revert pojo callback.
  induction fuel as [|fuel IH]; intros pojo callback;
    destruct pojo; simpl;
    unfold intercept, nested_listener, defineProperty, store_cell, fresh_fn;
    frame.
Qed.

Lemma col_call watcher prop oldVal newVal :
  steps R (call watcher prop oldVal newVal).
Proof.
  pose proof col_onChange. revert prop.
  induction watcher as [fid this|fid outer cb IH]; intros prop; simpl; frame.
Qed.

Lemma col_notify pojo prop oldVal newVal :
  steps R (notify pojo prop oldVal newVal).
Proof. pose proof col_call. unfold notify. frame. Qed.

Lemma col_diff fuel oldObj newObj notify prefix :
  (forall p o n, steps R (notify p o n)) ->
  steps R (diff fuel oldObj newObj notify prefix).
Proof.
  intros Hn. revert oldObj newObj prefix.
  induction fuel as [|fuel IH]; intros oldObj newObj prefix; simpl; frame.
Qed.

Lemma col_setter fuel pojo prop cell newVal :
  steps R (setter fuel pojo prop cell newVal).
Proof.
  pose proof col_watchPojo.
  pose proof (fun f o n p => col_diff f o n (notify pojo) p
                               (col_notify pojo)).
  pose proof col_notify.
  unfold setter, nested_listener, remove, store_cell, fresh_fn. frame.
Qed.

Lemma col_assign fuel pojo prop newVal :
  steps R (assign fuel pojo prop newVal).
Proof.
  intros st. unfold assign.
  destruct (st_heap st !! pojo) as [o|]; [|reflexivity].
  destruct (lookup_prop prop o) as [[v|c n cb]|].
  - by apply col_frame.
  - apply col_setter.
  - destruct (String.eqb prop "__proto__"); [reflexivity|by apply col_frame].
Qed.

Lemma col_observe fuel obj callback : steps R (observe fuel obj callback).
Proof.
  pose proof col_watchPojo. pose proof col_new_ChangeCollector.
  unfold observe, observe_member, observePojo, fresh_fn. frame.
Qed.

Lemma col_exec fuel a : steps R (exec fuel a).
Proof.
  pose proof col_assign. pose proof col_observe.
  destruct a; simpl; unfold remove; frame.
Qed.

Lemma col_run fuel script : steps R (run fuel script).
Proof. pose proof col_exec. unfold run. frame. Qed.
End Collecting.

(** ** Pending collectors and bursts *)

(** X1. Nothing the program, the callbacks or the host do files a pending
    collector under a number that is not its own: if the keys of
    [hotChangeCollectors] are the [_seq] of the collectors they hold, they
    still are after any sequence of actions, finished or failed, and after
    any task; and the pass a session would then deliver names no
    registration number twice. *)
Theorem pending_filed_under_own_seq (cl : client) (fuel : nat)
    (script : list action) (st : state) :
  hot_wf st ->
  let st' := state_of (run fuel script st) in
  hot_wf st' /\
  NoDup (c_seq <$> sort_by_seq (snapshot (st_hotChangeCollectors st'))) /\
  hot_wf (state_of (task cl fuel script st)).
Proof.
  intros Hwf st'.
  assert (hot_wf st') as Hwf' by (by apply (steps_run keeps_hot_wf)).
  split; [done|]. split; [by apply sorted_snapshot_NoDup|].
  by apply hot_wf_task.
Qed.

(** From [after_burst], where three collectors are pending, one more
    assignment. *)
Lemma pending_filed_under_own_seq_witness :
  let st' := state_of (run 3 [Assign 1 "x" (num 9)] after_burst) in
  size (st_hotChangeCollectors after_burst) = 3 /\
  size (st_hotChangeCollectors st') = 3 /\
  (forall s c, st_hotChangeCollectors st' !! s = Some c -> c_seq c = s) /\
  NoDup (c_seq <$> sort_by_seq (snapshot (st_hotChangeCollectors st'))).
Proof.
  intros st'.
  assert (hot_wf after_burst) as Hwf.
  { assert (st_hotChangeCollectors after_burst
            = {[ 0 := mkCollector 0 10; 1 := mkCollector 1 11;
                 2 := mkCollector 2 12 ]}) as E
      by (vm_compute; reflexivity).
    intros s c. rewrite E. intros H.
    apply lookup_insert_Some in H as [[<- <-]|[_ H]]; [reflexivity|].
    apply lookup_insert_Some in H as [[<- <-]|[_ H]]; [reflexivity|].
    apply lookup_singleton_Some in H as [<- <-]. reflexivity. }
  destruct (pending_filed_under_own_seq quiet 3 [Assign 1 "x" (num 9)]
              after_burst Hwf) as (H1 & H2 & _).
  split; [vm_compute; reflexivity|]. split; [vm_compute; reflexivity|].
  split; [exact H1|exact H2].
Defined.

#[local] Instance growing_interceptor : Interceptor (appending (fun _ => True)).
Proof.
  split; try apply _; try (intros; exists []; simpl; by rewrite app_nil_r).
  intros w p o n st. exists [Notified w p o n]. by repeat constructor.
Qed.

#[local] Instance growing_scheduler : Scheduler (appending (fun _ => True)).
Proof.
  split; [intros; exists []; simpl; by rewrite app_nil_r|].
  intros c m st. exists [Delivered c m]. by repeat constructor.
Qed.

(** A burst fed to a collector with nothing pending leaves it pending,
    alone, with the old value of the first change of every path. *)
Lemma feed_burst_pending fid this changes st :
  own_paths changes -> changes <> [] ->
  st_hotChangeCollectors st = ∅ -> oldVals_of st this = ∅ ->
  exists st1,
    feed (OnChange fid this) changes st = Ok tt st1 /\
    oldVals_of st1 this = list_to_map (fst <$> changes) /\
    st_hotChangeCollectors st1 = {[ c_seq this := this ]}.
Proof.
  intros Hown Hne Hhot Hold.
  destruct (feed_Ok (OnChange fid this) changes st) as (st1 & E1).
  exists st1. split; [done|]. split.
  - replace st1 with (state_of (feed (OnChange fid this) changes st))
      by (by rewrite E1).
    rewrite feed_first_write_wins, Hold by done.
    apply map_eq. intros k. rewrite lookup_union, lookup_empty.
    by destruct (list_to_map (fst <$> changes) !! k).
  - replace st1 with (state_of (feed (OnChange fid this) changes st))
      by (by rewrite E1).
    destruct changes as [|[[p o] n] cs]; [done|].
    apply Forall_cons in Hown as [Hp _]. simpl in Hp.
    rewrite feed_cons. cbn [fst snd].
    destruct (call_Ok (OnChange fid this) p o n st) as (s1 & Es1 & _).
    rewrite Es1.
    assert (st_hotChangeCollectors s1 = {[ c_seq this := this ]}) as Hs1.
    { replace s1 with (state_of (call (OnChange fid this) p o n st))
        by (by rewrite Es1).
      simpl. unfold bind, modify.
      destruct (onChange_hot this p o
                  (log (Notified (OnChange fid this) p o n) st)) as [-> _].
      - change (in_oldVals p (oldVals_of st this) = false).
        rewrite Hold. unfold in_oldVals. by rewrite lookup_empty.
      - simpl. by rewrite Hhot. }
    rewrite feed_hot_stable; [done|]. by rewrite Hs1, lookup_singleton_eq.
Qed.

(** X2. A burst is summed up in one call.  A collector with nothing
    pending, no other collector being pending, is fed a burst of changes
    of paths that are no names of [Object.prototype]: whatever the
    callbacks do, the first thing the next session does is to call the
    collector's callback with every path of the burst mapped to the old
    value of its first change; and when the callbacks only look, that call
    is all the session does.  (A callback that writes to an observed object
    is called again, by a later pass, with the changes it made.) *)
Theorem burst_summed_up_in_one_call (cl : client) (fid : nat)
    (this : ChangeCollector) (changes : list (string * value * value))
    (st : state) (fuel : nat) :
  own_paths changes -> changes <> [] ->
  st_hotChangeCollectors st = ∅ -> oldVals_of st this = ∅ ->
  let summary : gmap string value := list_to_map (fst <$> changes) in
  exists st1,
    feed (OnChange fid this) changes st = Ok tt st1 /\
    (exists tr,
       st_trace (state_of (deliverAllByTimeout cl (S fuel) st1))
       = (st_trace st1 ++ Delivered this summary :: tr)%list) /\
    (exists st2,
       deliverAllByTimeout quiet (S (S fuel)) st1 = Ok tt st2 /\
       st_trace st2 = (st_trace st1 ++ [Delivered this summary])%list).
Proof.
  intros Hown Hne Hhot Hold summary.
  destruct (feed_burst_pending fid this changes st Hown Hne Hhot Hold)
    as (st1 & E1 & Hsum & Hhot1).
  exists st1. split; [done|]. split.
  - simpl. unfold bind at 1 2 3, gets at 1, modify at 1. simpl.
    rewrite Hhot1. unfold snapshot. rewrite map_to_list_singleton. simpl.
    set (s0 := with_hot (fun _ => ∅) st1).
    destruct (deliver_trace cl fuel this s0) as (tr1 & Et & _).
    change (oldVals_of s0 this) with (oldVals_of st1 this) in Et.
    rewrite Hsum in Et. fold summary in Et.
    change (st_trace s0) with (st_trace st1) in Et.
    unfold bind at 1.
    destruct (deliver cl fuel this s0) as [[] s|e s]; simpl in *.
    + destruct (steps_deliverAllByTimeout (appending (fun _ => True))
                  cl fuel s) as (tr2 & E2 & _).
      exists (tr1 ++ tr2)%list. rewrite E2, Et, <- app_assoc. done.
    + by exists tr1.
  - destruct (burst_delivered_once fid this changes st fuel Hown Hne Hhot Hold)
      as (s1 & st2 & F1 & H2 & Et).
    assert (s1 = st1) as -> by congruence.
    by exists st2.
Qed.

(** On [watched_zero]: with callbacks that only look the collector is
    called once; with a callback that writes to the object it is called
    with the same summary first, and then once more. *)
Lemma burst_summed_up_in_one_call_witness :
  let this := mkCollector 0 7 in
  let changes :=
    [("x", pzero, num 1); ("y", nan, num 3); ("x", num 1, num 2)] in
  let summary : gmap string value := {[ "x" := pzero; "y" := nan ]} in
  exists st1,
    feed (OnChange 0 this) changes watched_zero = Ok tt st1 /\
    (exists tr,
       st_trace (state_of (deliverAllByTimeout rewriting 4 st1))
       = (st_trace st1 ++ Delivered this summary :: tr)%list) /\
    deliveries (st_trace (state_of (deliverAllByTimeout rewriting 4 st1)))
    = [this; this] /\
    (exists st2,
       deliverAllByTimeout quiet 2 st1 = Ok tt st2 /\
       st_trace st2 = (st_trace st1 ++ [Delivered this summary])%list).
Proof.
  intros this changes summary.
  destruct (burst_summed_up_in_one_call rewriting 0 this changes
              watched_zero 3) as (st1 & E1 & Hfirst & _).
  - unfold own_paths, changes. repeat constructor.
  - done.
  - reflexivity.
  - reflexivity.
  - destruct (burst_summed_up_in_one_call quiet 0 this changes
                watched_zero 0) as (s1 & F1 & _ & Hquiet).
    + unfold own_paths, changes. repeat constructor.
    + done.
    + reflexivity.
    + reflexivity.
    + assert (s1 = st1) as -> by congruence.
      assert (st1 = state_of (feed (OnChange 0 this) changes watched_zero))
        as Est by (by rewrite E1).
      assert (list_to_map (fst <$> changes) = summary) as Es
        by (vm_compute; reflexivity).
      rewrite Es in Hfirst, Hquiet.
      exists st1. split; [done|]. split; [exact Hfirst|].
      split; [|exact Hquiet].
      rewrite Est. vm_compute. reflexivity.
Defined.

(** ** Scheduling and quiescence *)

#[local] Instance keeps_consistent_preorder : PreOrder keeps_consistent.
Proof. unfold keeps_consistent. split; [intros ?|intros ? ? ?]; auto. Qed.

Lemma consistent_frame st st' :
  collector_side st = collector_side st' -> consistent st -> consistent st'.
Proof.
  unfold collector_side, consistent. intros [= _ Ho Hh Hd Hs].
  by rewrite Ho, Hh, Hd, Hs.
Qed.

Lemma consistent_onChange this prop oldVal :
  steps keeps_consistent (onChange this prop oldVal).
Proof.
  intros st (J1 & J2 & J3).
  unfold onChange, bind, gets, modify, schedule, ret, consistent. simpl.
  destruct (in_oldVals prop (oldVals_of st this)); simpl;
    destruct (st_deliverHandle st) eqn:Hd; simpl; rewrite ?Hd; simpl;
    (split; [intros [=]|]); (split; [|by rewrite ?J3]); try done;
    intros s m Hs Hm;
    (destruct (decide (c_seq this = s)) as [<-|Hne];
     [rewrite lookup_insert_eq; eauto|]);
    rewrite lookup_insert_ne in Hs by done;
    rewrite lookup_insert_ne by done; by apply J2 in Hs.
Qed.

Lemma consistent_new_ChangeCollector callback :
  steps keeps_consistent (new_ChangeCollector callback).
Proof.
  intros st (J1 & J2 & J3). split; [done|]. split; [|done].
  intros s m Hs Hm. simpl in *.
  destruct (decide (st_seq st = s)) as [<-|Hne].
  - rewrite lookup_insert_eq in Hs. by injection Hs as <-.
  - rewrite lookup_insert_ne in Hs by done. by apply J2 in Hs.
Qed.

#[local] Instance keeps_consistent_collecting : Collecting keeps_consistent.
Proof.
  split; [apply _|intros st st' H; exact (consistent_frame _ _ H)
         |apply consistent_onChange|apply consistent_new_ChangeCollector].
Qed.

#[local] Instance keeps_draining_preorder rem : PreOrder (keeps_draining rem).
Proof. unfold keeps_draining. split; [intros ?|intros ? ? ?]; auto. Qed.

Lemma draining_frame rem st st' :
  collector_side st = collector_side st' -> draining rem st ->
  draining rem st'.
Proof.
  unfold collector_side, draining. intros [= _ Ho Hh Hd Hs].
  by rewrite Ho, Hh, Hd, Hs.
Qed.

Lemma draining_onChange rem this prop oldVal :
  steps (keeps_draining rem) (onChange this prop oldVal).
Proof.
  intros st (Hd & Hs & J2).
  unfold onChange, bind, gets, modify, schedule, ret, draining. simpl.
  destruct (in_oldVals prop (oldVals_of st this)); simpl;
    rewrite ?Hd; simpl; rewrite ?Hd; (split; [done|]); (split; [done|]);
    [done|].
  intros s m Hm Hne.
  destruct (decide (c_seq this = s)) as [<-|Hne'].
  - left. rewrite lookup_insert_eq. eauto.
  - rewrite lookup_insert_ne in Hm by done.
    rewrite lookup_insert_ne by done. by apply J2 in Hm.
Qed.

Lemma draining_new_ChangeCollector rem callback :
  steps (keeps_draining rem) (new_ChangeCollector callback).
Proof.
  intros st (Hd & Hs & J2). split; [done|]. split; [done|].
  intros s m Hm Hne. simpl in *.
  destruct (decide (st_seq st = s)) as [<-|Hne'].
  - rewrite lookup_insert_eq in Hm. by injection Hm as <-.
  - rewrite lookup_insert_ne in Hm by done. by apply J2 in Hm.
Qed.

#[local] Instance keeps_draining_collecting rem :
  Collecting (keeps_draining rem).
Proof.
  split; [apply _|intros st st' H; exact (draining_frame _ _ _ H)
         |apply draining_onChange|apply draining_new_ChangeCollector].
Qed.

(** Delivering to the first collector of the rest of a pass. *)
Lemma draining_deliver cl fuel this rem st st' :
  draining (this :: rem) st ->
  deliver cl fuel this st = Ok tt st' ->
  draining rem st'.
Proof.
  intros (Hd & Hs & J2) H. unfold deliver in H.
  unfold bind at 1 2 3 4, gets at 1 2, modify at 1 2 in H. simpl in H.
  match type of H with run fuel ?b ?s = _ =>
    pose proof (col_run (keeps_draining rem) fuel b s) as Hrun end.
  rewrite H in Hrun. apply Hrun.
  split; [done|]. split; [done|]. intros s m Hm Hne. simpl in *.
  destruct (decide (c_seq this = s)) as [<-|Hne'].
  - rewrite lookup_insert_eq in Hm. by injection Hm as <-.
  - rewrite lookup_insert_ne in Hm by done.
    destruct (J2 s m Hm Hne) as [?|Hin]; [by left|right].
    apply elem_of_cons in Hin as [->|?]; done.
Qed.

Lemma draining_pass cl fuel rem st st' :
  draining rem st ->
  forEach rem (deliver cl fuel) st = Ok tt st' ->
  draining [] st'.
Proof.
  revert st. induction rem as [|c rem IH]; intros st Hd H.
  - by injection H as <-.
  - simpl in H. apply bind_Ok in H as ([] & st1 & H1 & H2).
    eapply IH; [|exact H2]. by eapply draining_deliver.
Qed.

(** A session that returns leaves nothing behind. *)
Lemma drain_quiescent cl fuel st st' :
  draining [] st -> hot_wf st ->
  deliverAllByTimeout cl fuel st = Ok tt st' ->
  quiescent st'.
Proof.
  revert st. induction fuel as [|fuel IH]; intros st Hd Hwf H; [done|].
  simpl in H. unfold bind at 1 2 3, gets at 1, modify at 1 in H.
  simpl in H.
  set (st1 := with_hot (fun _ => ∅) st) in *.
  set (cbs := sort_by_seq (snapshot (st_hotChangeCollectors st))) in *.
  assert (draining cbs st1) as Hd1.
  { destruct Hd as (Hh & Hs & J2). split; [done|]. split; [done|].
    intros s m Hm Hne. right.
    destruct (J2 s m Hm Hne) as [[c Hc]|Hin]; [|by apply elem_of_nil in Hin].
    apply list_elem_of_fmap. exists c. split; [by rewrite (Hwf s c)|].
    unfold cbs. rewrite sort_by_seq_perm. apply elem_of_snapshot. eauto. }
  destruct (forEach cbs (deliver cl fuel) st1) as [[] st2|] eqn:Hpass;
    [|done].
  pose proof (draining_pass _ _ _ _ _ Hd1 Hpass) as Hd2.
  destruct cbs as [|c cbs'] eqn:Hcbs.
  - injection Hpass as <-. injection H as <-.
    destruct Hd2 as (Hh & Hs & J2). repeat split; simpl; auto.
    intros s m Hm. destruct (decide (m = ∅)) as [|Hne]; [done|].
    destruct (J2 s m Hm Hne) as [[c Hc]|Hin].
    + simpl in Hc. by rewrite lookup_empty in Hc.
    + by apply elem_of_nil in Hin.
  - apply (IH st2); [done| |done].
    pose proof (steps_forEach keeps_hot_wf (c :: cbs') (deliver cl fuel)
                  (steps_deliver keeps_hot_wf cl fuel) st1) as Hw.
    rewrite Hpass in Hw. apply Hw. intros s d Hs. simpl in Hs.
    by rewrite lookup_empty in Hs.
Qed.

Lemma quiescent_consistent st : quiescent st -> consistent st.
Proof.
  intros (Hh & Hd & Hs & Ho). split; [done|]. split.
  - intros s m Hm Hne. by apply Ho in Hm.
  - by rewrite Hd.
Qed.

(** A task that starts with nothing recorded, pending or scheduled, and
    that returns, ends in the same way. *)
Lemma task_ends_quiescent (cl : client) (fuel : nat)
    (script : list action) (st st' : state) :
  quiescent st ->
  task cl fuel script st = Ok tt st' ->
  quiescent st'.
Proof.
  intros Hq H. unfold task in H.
  apply bind_Ok in H as ([] & st1 & Hrun & Hend).
  assert (consistent st1) as (J1 & J2 & J3).
  { pose proof (col_run keeps_consistent fuel script st) as Hc.
    rewrite Hrun in Hc. by apply Hc, quiescent_consistent. }
  assert (hot_wf st1) as Hwf.
  { pose proof (steps_run keeps_hot_wf fuel script st) as Hw.
    rewrite Hrun in Hw. apply Hw. destruct Hq as (Hh & _).
    intros s c Hs. by rewrite Hh, lookup_empty in Hs. }
  unfold end_of_task, bind, gets, modify in Hend. simpl in Hend.
  destruct (st_scheduled st1) as [|n] eqn:Hs.
  - injection Hend as <-.
    destruct (st_deliverHandle st1) eqn:Hd; [done|].
    specialize (J1 eq_refl). repeat split; auto.
    intros s m Hm. destruct (decide (m = ∅)) as [|Hne]; [done|].
    destruct (J2 s m Hm Hne) as [c Hc]. by rewrite J1, lookup_empty in Hc.
  - destruct (st_deliverHandle st1) eqn:Hd; [|done].
    injection J3 as ->.
    eapply drain_quiescent; [| |exact Hend]; [|done].
    split; [done|]. split; [done|]. intros s m Hm Hne. left.
    by apply (J2 s m).
Qed.

(** X4. One request for a burst.  After any sequence of actions run from
    a state with nothing recorded, pending or scheduled, also one that
    fails half way, the host holds one request when [deliverHandle] is set
    and none when it is not; and a collector that holds a recorded change
    is pending, with exactly one delivery requested. *)
Theorem burst_schedules_one_delivery (fuel : nat) (script : list action)
    (st : state) :
  quiescent st ->
  let st' := state_of (run fuel script st) in
  st_scheduled st' = (if st_deliverHandle st' then 1 else 0) /\
  forall s m,
    st_oldVals st' !! s = Some m -> m <> ∅ ->
    is_Some (st_hotChangeCollectors st' !! s) /\ st_scheduled st' = 1.
Proof.
  intros Hq st'.
  destruct (col_run keeps_consistent fuel script st
              (quiescent_consistent _ Hq)) as (J1 & J2 & J3).
  fold st' in J1, J2, J3. split; [done|]. intros s m Hm Hne.
  destruct (J2 s m Hm Hne) as [c Hc]. split; [by exists c|].
  destruct (st_deliverHandle st'); [done|].
  by rewrite (J1 eq_refl), lookup_empty in Hc.
Qed.

Lemma burst_schedules_one_delivery_witness :
  let st' := state_of (run 3 three_observers init) in
  st_scheduled st' = 1 /\
  is_Some (st_hotChangeCollectors st' !! 2).
Proof.
  intros st'.
  destruct (burst_schedules_one_delivery 3 three_observers init) as [_ H].
  - repeat split. intros s m H. simpl in H. by rewrite lookup_empty in H.
  - destruct (H 2 {["x" := num 0]}) as [H1 H2].
    + vm_compute. reflexivity.
    + intros E. apply (f_equal (fun m => m !! "x")) in E.
      vm_compute in E. discriminate.
    + split; assumption.
Defined.

(** ** A session that fails *)

#[local] Instance wedged_preorder : PreOrder wedged.
Proof.
  unfold wedged. split; [by intros ?|].
  intros x y z Hxy Hyz Hx. destruct (Hxy Hx) as [Hy E].
  destruct (Hyz Hy) as [Hz E']. split; [done|congruence].
Qed.

#[local] Instance wedged_collecting : Collecting wedged.
Proof.
  split; [apply _| | |].
  - unfold collector_side, wedged. intros st st' [= _ _ _ Hd Hs] H.
    by rewrite <- Hd, <- Hs.
  - intros this prop oldVal st Hd.
    unfold onChange, bind, gets, modify, schedule, ret. simpl.
    destruct (in_oldVals prop (oldVals_of st this)); simpl;
      rewrite Hd; simpl; by rewrite ?Hd.
  - by intros callback st Hd.
Qed.

Lemma wedged_deliver cl fuel this : steps wedged (deliver cl fuel this).
Proof.
  intros st Hd. unfold deliver.
  unfold bind at 1 2 3 4, gets at 1 2, modify at 1 2. simpl.
  match goal with |- context [run fuel ?b ?s] =>
    destruct (col_run wedged fuel b s Hd) as [H1 H2] end.
  done.
Qed.

Lemma wedged_session cl fuel st e st1 :
  deliverAllByTimeout cl fuel st = Err e st1 -> wedged st st1.
Proof.
  revert st. induction fuel as [|fuel IH]; intros st H.
  - injection H as _ <-. reflexivity.
  - simpl in H. unfold bind at 1 2 3, gets at 1, modify at 1 in H.
    simpl in H.
    set (st0 := with_hot (fun _ => ∅) st) in *.
    set (cbs := sort_by_seq (snapshot (st_hotChangeCollectors st))) in *.
    pose proof (steps_forEach wedged cbs (deliver cl fuel)
                  (wedged_deliver cl fuel) st0) as Hw.
    destruct (forEach cbs (deliver cl fuel) st0) as [[] st2|e' st2].
    + destruct cbs; [done|]. simpl in Hw.
      intros Hd. destruct (Hw Hd) as [Hd2 E2].
      destruct (IH st2 H Hd2) as [Hd1 E1]. split; [done|].
      by rewrite E1, E2.
    + injection H as _ <-. exact Hw.
Qed.

Lemma wedged_task cl fuel script st :
  st_deliverHandle st = true -> st_scheduled st = 0 ->
  let st' := state_of (task cl fuel script st) in
  deliveries (st_trace st') = deliveries (st_trace st) /\
  st_deliverHandle st' = true /\ st_scheduled st' = 0.
Proof.
  intros Hd Hs. unfold task, bind.
  destruct (col_run wedged fuel script st Hd) as [Hd1 Hs1].
  destruct (steps_run (appending not_delivery) fuel script st)
    as (tr & Htr & Hnd).
  assert (deliveries (st_trace (state_of (run fuel script st)))
          = deliveries (st_trace st)) as Hdel.
  { rewrite Htr, deliveries_app, (deliveries_none tr) by done.
    apply app_nil_r. }
  rewrite Hs in Hs1.
  destruct (run fuel script st) as [[] st1|e st1]; simpl in *; [|done].
  unfold end_of_task, bind, gets. by rewrite Hs1.
Qed.

(** X5. A callback that throws ends all delivery.  When a session the
    host started fails with a TypeError, [deliverHandle] is left set:
    [deliverHandle = null] at the end of [deliverAllByTimeout] is not
    reached.  From then on [onChange] never asks the host again, so in
    every later task, whatever it records, no callback is called. *)
Theorem failed_session_ends_delivery (cl cl' : client) (fuel fuel' : nat)
    (st st1 : state) (scripts : list (list action)) :
  st_deliverHandle st = true -> st_scheduled st = 0 ->
  deliverAllByTimeout cl fuel st = Err TypeError st1 ->
  let st2 := tasks cl' fuel' scripts st1 in
  deliveries (st_trace st2) = deliveries (st_trace st1) /\
  st_deliverHandle st2 = true /\
  st_scheduled st2 = 0.
Proof.
  intros Hd Hs H.
  destruct (wedged_session _ _ _ _ _ H Hd) as [Hd1 Hs1].
  rewrite Hs in Hs1. clear H Hd Hs. revert st1 Hd1 Hs1.
  induction scripts as [|script scripts IH]; intros st1 Hd1 Hs1; [done|].
  destruct (wedged_task cl' fuel' script st1 Hd1 Hs1) as (E & Hd2 & Hs2).
  destruct (IH _ Hd2 Hs2) as (E' & ? & ?). split; [|done].
  etrans; [exact E'|exact E].
Qed.

Lemma failed_session_ends_delivery_witness :
  let st := with_scheduled 0 (state_of (run 3 one_change init)) in
  let st1 := state_of (deliverAllByTimeout failing 3 st) in
  let st2 :=
    tasks quiet 3 [[Assign 0 "x" (num 2)]; [Assign 0 "x" (num 3)]] st1 in
  deliveries (st_trace st2) = [mkCollector 0 7] /\
  st_deliverHandle st2 = true /\
  st_scheduled st2 = 0.
Proof.
  intros st st1 st2.
  destruct (failed_session_ends_delivery failing quiet 3 3 st st1
              [[Assign 0 "x" (num 2)]; [Assign 0 "x" (num 3)]])
    as (E & Hd & Hs).
  - vm_compute. reflexivity.
  - vm_compute. reflexivity.
  - vm_compute. reflexivity.
  - fold st2 in E, Hd, Hs. split; [|done]. rewrite E. vm_compute.
    reflexivity.
Defined.

(** ** Registration numbers *)

#[local] Instance seq_le_preorder : PreOrder seq_le.
Proof. unfold seq_le. split; [intros ?|intros ? ? ?]; lia. Qed.

#[local] Instance seq_le_collecting : Collecting seq_le.
Proof.
  split; [apply _| | |].
  - unfold collector_side, seq_le. intros st st' [= -> _ _ _ _]. done.
  - intros this prop oldVal st.
    unfold onChange, bind, gets, modify, schedule, ret, seq_le. simpl.
    destruct (in_oldVals prop (oldVals_of st this)); simpl;
      destruct (st_deliverHandle st); simpl; done.
  - intros callback st. unfold seq_le. simpl. lia.
Qed.

Ltac seq_le_walk := walk_by ltac:(unfold seq_le; simpl; lia).

Lemma seq_le_deliver cl fuel this : steps seq_le (deliver cl fuel this).
Proof.
  pose proof (col_run seq_le). unfold deliver. seq_le_walk.
Qed.

Lemma seq_le_session cl fuel : steps seq_le (deliverAllByTimeout cl fuel).
Proof.
  pose proof seq_le_deliver.
  induction fuel as [|fuel IH]; simpl; seq_le_walk.
Qed.

Lemma seq_le_task cl fuel script : steps seq_le (task cl fuel script).
Proof.
  pose proof (col_run seq_le). pose proof seq_le_session.
  unfold task, end_of_task. seq_le_walk.
Qed.

Lemma seq_le_tasks cl fuel scripts st :
  st_seq st <= st_seq (tasks cl fuel scripts st).
Proof.
  revert st. induction scripts as [|script scripts IH]; intros st; [done|].
  etrans; [apply (seq_le_task cl fuel script st)|apply IH].
Qed.

Lemma watchPojo_handle fuel pojo callback st h st' :
  watchPojo fuel pojo callback st = Ok h st' ->
  h_callback h = callback.
Proof.
  destruct fuel as [|fuel], pojo as [| | | | | |l| |[] l]; try done; simpl.
  - unfold bind, gets, modify, ret.
    destruct (st_heap st !! l); [done|].
    destruct (st_map st !! l); by intros [= <- _].
  - unfold bind at 1 2. unfold gets at 1.
    match goal with |- context [match ?m st with _ => _ end] =>
      destruct (m st) end; [|done].
    unfold bind, modify, ret. by intros [= <- _].
  - unfold bind, gets, modify, ret.
    destruct (st_heap st !! l); [done|].
    destruct (st_map st !! l); by intros [= <- _].
Qed.

(** What a successful [observe] of a plain object hands out. *)
Lemma observe_collector fuel obj callback st h st' :
  observe fuel obj callback st = Ok (Sub h) st' ->
  h_callback h
  = OnChange (st_next_fn st) (mkCollector (st_seq st) callback) /\
  S (st_seq st) <= st_seq st'.
Proof.
  unfold observe. unfold bind at 1. intros H.
  pose proof (col_frame (R := seq_le)) as Hframe.
  assert (forall m, observe_member obj st = Ok m st -> m = None ->
          h_callback h
          = OnChange (st_next_fn st) (mkCollector (st_seq st) callback) /\
          S (st_seq st) <= st_seq st') as Hmain.
  { intros m Em ->. rewrite Em in H.
    unfold observePojo, new_ChangeCollector, fresh_fn in H.
    unfold bind, gets, modify, ret in H. simpl in H.
    match type of H with
      match watchPojo fuel obj ?w ?s with _ => _ end = _ =>
      pose proof (col_watchPojo seq_le fuel obj w s) as Hs;
      destruct (watchPojo fuel obj w s) as [h' s'|] eqn:Hw; [|done]
    end.
    injection H as -> ->. apply watchPojo_handle in Hw as ->.
    split; [done|]. exact Hs. }
  destruct obj as [| |b|x|s|f|l|z|r l]; try done;
    try (apply (Hmain None); [reflexivity|done]).
  simpl in H. unfold bind at 1 in H.
  destruct (get (VObj l) "observe" st) as [m s|] eqn:Eg; [|done].
  assert (s = st) as ->.
  { unfold get in Eg. destruct (st_heap st !! l) as [o|]; [|done].
    destruct (lookup_prop "observe" o); [by injection Eg|].
    destruct (inherited "observe"); [done|by injection Eg]. }
  unfold ret in H.
  destruct m as [| | | | |f| | |]; try done;
    (eapply Hmain; [simpl; unfold bind; rewrite Eg; reflexivity|done]).
Qed.

(** X6. Observers are numbered in the order they registered.  Of two
    calls of [observe] on plain objects that return, with any tasks in
    between, the collector of the later one has the larger [_seq]; each
    handle carries the [onChange] of a collector made for its callback. *)
Theorem observers_numbered_in_registration_order (cl : client)
    (fuel fuel' fuel'' : nat) (scripts : list (list action))
    (obj1 obj2 : value) (cb1 cb2 : nat) (st st1 st2 : state)
    (h1 h2 : handle) :
  observe fuel obj1 cb1 st = Ok (Sub h1) st1 ->
  observe fuel'' obj2 cb2 (tasks cl fuel' scripts st1) = Ok (Sub h2) st2 ->
  exists f1 f2 c1 c2,
    h_callback h1 = OnChange f1 c1 /\ c_callback c1 = cb1 /\
    h_callback h2 = OnChange f2 c2 /\ c_callback c2 = cb2 /\
    before c1 c2.
Proof.
  intros H1 H2.
  apply observe_collector in H1 as [E1 Hs1].
  apply observe_collector in H2 as [E2 _].
  pose proof (seq_le_tasks cl fuel' scripts st1) as Hs.
  eexists _, _, _, _. split; [exact E1|]. split; [done|].
  split; [exact E2|]. split; [done|]. unfold before. simpl. lia.
Qed.

Lemma observers_numbered_in_registration_order_witness :
  let st := state_of (run 3 [NewObject [("x", num 0)];
                             NewObject [("y", num 0)]] init) in
  exists f1 f2 c1 c2 st1 st2,
    observe 3 (VObj 1) 7 st = Ok (Sub (mkHandle 1 (OnChange f1 c1))) st1 /\
    observe 3 (VObj 0) 8 (tasks quiet 3 [[Assign 1 "y" (num 1)]] st1)
    = Ok (Sub (mkHandle 0 (OnChange f2 c2))) st2 /\
    before c1 c2.
Proof.
  intros st.
  set (h1 := mkHandle 1 (OnChange 0 (mkCollector 0 7))).
  set (h2 := mkHandle 0 (OnChange 1 (mkCollector 1 8))).
  set (st1 := state_of (observe 3 (VObj 1) 7 st)).
  set (st2 := state_of (observe 3 (VObj 0) 8
                          (tasks quiet 3 [[Assign 1 "y" (num 1)]] st1))).
  assert (observe 3 (VObj 1) 7 st = Ok (Sub h1) st1) as H1
    by (vm_compute; reflexivity).
  assert (observe 3 (VObj 0) 8 (tasks quiet 3 [[Assign 1 "y" (num 1)]] st1)
          = Ok (Sub h2) st2) as H2 by (vm_compute; reflexivity).
  destruct (observers_numbered_in_registration_order quiet 3 3 3
              [[Assign 1 "y" (num 1)]] (VObj 1) (VObj 0) 7 8 st st1 st2
              h1 h2 H1 H2)
    as (f1 & f2 & c1 & c2 & E1 & _ & E2 & _ & Hb).
  exists f1, f2, c1, c2, st1, st2.
  simpl in E1, E2. rewrite <- E1, <- E2. auto.
Defined.

(** ** Nested paths *)

(** X7. A nested change is recorded under its dotted path.  Calling a
    listener always returns; whatever chain of nested closures it goes
    through, the module ends in the state in which the collector at the end
    of the chain took [onChange] with the names of the properties on the
    way down put before the name that changed, and every function on the
    chain was called once, outermost object last. *)
Theorem nested_change_recorded_under_dotted_path (watcher : listener)
    (prop : string) (oldVal newVal : value) (st : state) :
  exists st',
    call watcher prop oldVal newVal st = Ok tt st' /\
    untraced st'
    = untraced (state_of (onChange (target watcher)
                            (full_path watcher prop) oldVal st)) /\
    st_trace st'
    = (st_trace st ++ call_events watcher prop oldVal newVal)%list.
Proof.
  destruct (call_Ok watcher prop oldVal newVal st) as (st' & E & Et & _).
  exists st'. split; [done|]. split; [|done].
  replace st' with (state_of (call watcher prop oldVal newVal st))
    by (by rewrite E).
  clear E Et st'. revert prop st.
  induction watcher as [fid this|fid outer cb IH]; intros prop st; simpl;
    unfold bind, modify.
  - apply onChange_untraced. by destruct st.
  - rewrite IH. apply onChange_untraced. by destruct st.
Qed.

(** ** Removing a listener *)

Lemma others_absent callback callbacks :
  fid_of callback ∉ fid_of <$> callbacks ->
  others callback callbacks = callbacks.
Proof.
  induction callbacks as [|w ws IH]; intros Hn; [done|].
  rewrite fmap_cons in Hn. apply not_elem_of_cons in Hn as [Hw Hws].
  unfold others. rewrite filter_cons_True by done.
  f_equal. by apply IH.
Qed.

Lemma remove_first_absent callback callbacks :
  fid_of callback ∉ fid_of <$> callbacks ->
  remove_first callback callbacks = callbacks.
Proof.
  induction callbacks as [|w ws IH]; intros Hn; [done|].
  rewrite fmap_cons in Hn. apply not_elem_of_cons in Hn as [Hw Hws].
  simpl. destruct (Nat.eqb_spec (fid_of w) (fid_of callback)); [done|].
  f_equal. by apply IH.
Qed.

Lemma remove_first_others callback callbacks :
  NoDup (fid_of <$> callbacks) ->
  remove_first callback callbacks = others callback callbacks.
Proof.
  induction callbacks as [|w ws IH]; intros Hnd; [done|].
  rewrite fmap_cons in Hnd. apply NoDup_cons in Hnd as [Hw Hws].
  simpl. unfold others.
  destruct (Nat.eqb_spec (fid_of w) (fid_of callback)) as [E|E].
  - rewrite filter_cons_False by (intros H; by apply H).
    symmetry. apply others_absent. by rewrite <- E.
  - rewrite filter_cons_True by done. f_equal. by apply IH.
Qed.

Lemma others_gone callback callbacks :
  fid_of callback ∉ fid_of <$> others callback callbacks.
Proof.
  intros Hin. apply list_elem_of_fmap in Hin as (w & E & Hw).
  apply list_elem_of_filter in Hw as [Hne _]. by apply Hne.
Qed.

(** X8. [remove] detaches its own listener and nothing else.  When the
    functions listening on the object are distinct, [remove] takes the
    handle's function out of the object's listeners and keeps the others in
    their order; the listeners of other objects, the objects themselves
    (the accessors stay installed), the collectors and the record of calls
    are untouched, and a second [remove] changes nothing. *)
Theorem remove_detaches_only_its_listener (h : handle) (st : state)
    (callbacks : list listener) :
  st_map st !! h_pojo h = Some callbacks ->
  NoDup (fid_of <$> callbacks) ->
  let st' := state_of (remove h st) in
  st_map st' !! h_pojo h = Some (others (h_callback h) callbacks) /\
  (forall l, l <> h_pojo h -> st_map st' !! l = st_map st !! l) /\
  st_heap st' = st_heap st /\
  collector_side st' = collector_side st /\
  st_trace st' = st_trace st /\
  remove h st' = Ok tt st'.
Proof.
  intros Hm Hnd. simpl.
  split; [by rewrite lookup_alter_eq, Hm; simpl; rewrite remove_first_others|].
  split; [by intros l Hl; rewrite lookup_alter_ne|].
  do 3 (split; [done|]).
  unfold remove, modify. f_equal. destruct st. unfold with_map. simpl.
  f_equal. simpl in Hm. apply map_eq. intros l.
  destruct (decide (l = h_pojo h)) as [->|Hl].
  - rewrite !lookup_alter_eq, Hm. simpl. f_equal.
    rewrite (remove_first_others _ callbacks) by done.
    apply remove_first_absent, others_gone.
  - by rewrite !lookup_alter_ne.
Qed.

Lemma remove_detaches_only_its_listener_witness :
  let first := OnChange 0 (mkCollector 0 7) in
  let second := OnChange 1 (mkCollector 1 8) in
  let st' := state_of (remove (mkHandle 0 first) removed_while_hot) in
  st_map st' !! 0 = Some [second] /\
  remove (mkHandle 0 first) st' = Ok tt st'.
Proof.
  intros first second st'.
  destruct (remove_detaches_only_its_listener (mkHandle 0 first)
              removed_while_hot [first; second])
    as (H1 & _ & _ & _ & _ & H2).
  - vm_compute. reflexivity.
  - apply (bool_decide_unpack _). vm_compute. reflexivity.
  - split; [exact H1|exact H2].
Defined.

(** ** Writing and reading back *)

#[local] Instance keys_same_preorder : PreOrder keys_same.
Proof.
  unfold keys_same. split; [by intros ?|].
  intros x y z Hxy Hyz l. by rewrite Hyz, Hxy.
Qed.

#[local] Instance same_heap_preorder : PreOrder same_heap.
Proof.
  unfold same_heap. split; [by intros ?|].
  intros x y z Hxy Hyz. by rewrite Hyz, Hxy.
Qed.

Lemma keys_same_heap st st' : st_heap st' = st_heap st -> keys_same st st'.
Proof. intros E l. by rewrite E. Qed.

Lemma keys_same_store pojo prop p st :
  keys_same st (with_heap (alter (replace_prop prop p) pojo) st).
Proof.
  intros l. simpl. destruct (decide (l = pojo)) as [->|Hne].
  - rewrite lookup_alter_eq. destruct (st_heap st !! pojo); simpl; [|done].
    by rewrite keys_replace_prop.
  - by rewrite lookup_alter_ne.
Qed.

Ltac keys_walk :=
  walk_by ltac:(first [ apply keys_same_store
                      | apply keys_same_heap; reflexivity ]).

Lemma keys_same_watchPojo fuel pojo callback :
  steps keys_same (watchPojo fuel pojo callback).
Proof.
  revert pojo callback.
  induction fuel as [|fuel IH]; intros pojo callback;
    destruct pojo; simpl;
    unfold intercept, nested_listener, defineProperty, store_cell, fresh_fn;
    keys_walk.
Qed.

Lemma same_heap_notify pojo prop oldVal newVal :
  steps same_heap (notify pojo prop oldVal newVal).
Proof.
  intros st.
  by destruct (notify_Ok pojo prop oldVal newVal st) as (st' & -> & _ & E & _).
Qed.

Lemma same_heap_diff fuel oldObj newObj notify prefix :
  (forall p o n, steps same_heap (notify p o n)) ->
  steps same_heap (diff fuel oldObj newObj notify prefix).
Proof.
  intros Hn. revert oldObj newObj prefix.
  induction fuel as [|fuel IH]; intros oldObj newObj prefix; simpl;
    walk_by idtac.
Qed.

Lemma lookup_prop_app_None prop p o :
  lookup_prop prop o = None ->
  lookup_prop prop (o ++ [(prop, p)]) = Some p.
Proof.
  induction o as [|[k q] o IH]; simpl; [by rewrite String.eqb_refl|].
  destruct (String.eqb k prop); [done|auto].
Qed.

Lemma lookup_prop_in_keys prop p o :
  lookup_prop prop o = Some p -> prop ∈ map fst o.
Proof.
  intros H%lookup_prop_elem_of.
  change (map fst o) with (fst <$> o). apply list_elem_of_fmap.
  by exists (prop, p).
Qed.

(** X9. What is written is what is read.  After an assignment that
    returns, to a plain property, to a new one or through an installed
    setter, whether or not the value differs from the one before and
    whether or not it is an object, reading the property gives the value
    that was assigned. *)
Theorem assign_then_get (fuel : nat) (pojo : loc) (prop : string)
    (newVal : value) (st st' : state) :
  assign fuel pojo prop newVal st = Ok tt st' ->
  get (VObj pojo) prop st' = Ok newVal st'.
Proof.
  unfold assign. intros H.
  destruct (st_heap st !! pojo) as [o|] eqn:Ho; [|done].
  destruct (lookup_prop prop o) as [[v|curVal nw cb]|] eqn:Hp.
  - injection H as <-. unfold get. simpl.
    rewrite lookup_alter_eq, Ho. simpl.
    rewrite lookup_replace_prop by (by rewrite Hp). done.
  - unfold setter in H.
    destruct (js_is newVal curVal) eqn:Eis.
    { injection H as <-. apply js_is_spec in Eis as ->.
      unfold get. by rewrite Ho, Hp. }
    apply bind_Ok in H as ([] & s1 & H1 & H).
    apply bind_Ok in H as (nw' & s2 & H2 & H).
    apply bind_Ok in H as ([] & s3 & H3 & H).
    assert (keys_same st s1) as K1.
    { replace s1 with (state_of
        (match nw with
         | Some h => remove h;; store_cell pojo prop (Accessor curVal None cb)
         | None => ret ()
         end st)) by (by rewrite H1).
      generalize st. change (steps keys_same
        (match nw with
         | Some h => remove h;; store_cell pojo prop (Accessor curVal None cb)
         | None => ret ()
         end)).
      unfold remove, store_cell. keys_walk. }
    assert (keys_same s1 s2) as K2.
    { replace s2 with (state_of
        ((if is_object newVal
          then f <- nested_listener prop cb;;
               h <- watchPojo fuel newVal f;; ret (Some h)
          else ret None) s1)) by (by rewrite H2).
      generalize s1. change (steps keys_same
        (if is_object newVal
         then f <- nested_listener prop cb;;
              h <- watchPojo fuel newVal f;; ret (Some h)
         else ret None)).
      pose proof keys_same_watchPojo.
      unfold nested_listener, fresh_fn. keys_walk. }
    assert (st_heap st' = st_heap s3) as E3.
    { pose proof (same_heap_notify pojo) as Hn.
      destruct (is_object newVal).
      - pose proof (same_heap_diff fuel curVal newVal (notify pojo)
                      (prop ++ ".") Hn s3) as Hd.
        by rewrite H in Hd.
      - pose proof (Hn prop curVal newVal s3) as Hd. by rewrite H in Hd. }
    injection H3 as <-.
    pose proof (K2 pojo) as K. rewrite (K1 pojo), Ho in K.
    destruct (st_heap s2 !! pojo) as [o2|] eqn:Ho2; [|done].
    injection K as K.
    unfold get. rewrite E3. simpl. rewrite lookup_alter_eq, Ho2. simpl.
    rewrite lookup_replace_prop; [done|].
    apply lookup_prop_keys. rewrite K. by eapply lookup_prop_in_keys.
  - destruct (String.eqb prop "__proto__"); [done|].
    injection H as <-. unfold get. simpl. rewrite lookup_insert_eq.
    unfold set_own. rewrite Hp. by rewrite lookup_prop_app_None.
Qed.

Lemma assign_then_get_witness :
  let st' := state_of (assign 3 1 "a" (VObj 2) observed_nested) in
  get (VObj 1) "a" st' = Ok (VObj 2) st'.
Proof.
  intros st'. apply (assign_then_get 3 1 "a" (VObj 2) observed_nested).
  vm_compute. reflexivity.
Defined.

(** ** Observing changes nothing the program can see *)

#[local] Instance silent_preorder : PreOrder silent.
Proof.
  unfold silent. split; [by intros ?|].
  intros x y z (? & ? & ? & ?) (? & ? & ? & ?).
  repeat split; etrans; eauto.
Qed.

Ltac silent_walk := walk_by ltac:(by unfold silent).

Lemma silent_watchPojo fuel pojo callback :
  steps silent (watchPojo fuel pojo callback).
Proof.
  revert pojo callback.
  induction fuel as [|fuel IH]; intros pojo callback;
    destruct pojo; simpl;
    unfold intercept, nested_listener, defineProperty, store_cell, fresh_fn;
    silent_walk.
Qed.

Lemma silent_observe fuel obj callback :
  steps silent (observe fuel obj callback).
Proof.
  pose proof silent_watchPojo.
  unfold observe, observe_member, observePojo, new_ChangeCollector, fresh_fn.
  silent_walk.
Qed.

Lemma same_values_get st st' obj k v :
  same_values st st' -> get obj k st = Ok v st -> get obj k st' = Ok v st'.
Proof.
  intros Hs. destruct obj as [| | | | | |l| |]; try done.
  unfold get. specialize (Hs l).
  destruct Hs as [o o' [_ Hread]|]; [|done]. specialize (Hread k).
  destruct (lookup_prop k o) as [p|], (lookup_prop k o') as [p'|];
    try done; simpl in Hread.
  - injection Hread as ->. by intros [= <-].
  - destruct (inherited k); [done|]. by intros [= <-].
Qed.

Lemma same_values_own_keys st st' l ks :
  same_values st st' ->
  own_keys l st = Ok ks st -> own_keys l st' = Ok ks st'.
Proof.
  intros Hs. unfold own_keys. specialize (Hs l).
  destruct Hs as [o o' [Hkeys _]|]; [|done].
  rewrite (own_enumeration_keys o o' Hkeys). by intros [= <-].
Qed.

(** X10. Observing an object changes nothing the program can read.  On a
    heap without dangling references, with fuel for the objects not yet
    registered, [observe] of a plain object without an [observe] method
    returns a handle; every property of every object still reads as it did,
    every object has the keys it had in the order it had them, and nothing
    is reported, made pending or scheduled. *)
Theorem observe_is_transparent (fuel : nat) (st : state) (l : loc)
    (callback : nat) :
  closed st -> l ∈ dom (st_heap st) -> size (unwatched st) < fuel ->
  (forall f, get (VObj l) "observe" st <> Ok (VFun f) st) ->
  exists h st',
    observe fuel (VObj l) callback st = Ok (Sub h) st' /\
    (forall obj k v, get obj k st = Ok v st -> get obj k st' = Ok v st') /\
    (forall l' ks, own_keys l' st = Ok ks st -> own_keys l' st' = Ok ks st') /\
    silent st st'.
Proof.
  intros Hc Hl Hn Hobs.
  pose proof (silent_observe fuel (VObj l) callback st) as Hsil.
  assert (observe_member (VObj l) st = Ok None st) as Em.
  { unfold observe_member, bind. unfold get in *.
    apply elem_of_dom in Hl as [o Ho]. rewrite Ho in *.
    destruct (lookup_prop "observe" o) as [p|]; [|done].
    destruct (read p) as [| | | | |f| | |]; try done. by destruct (Hobs f). }
  unfold observe, bind in *. rewrite Em in *.
  unfold observePojo, new_ChangeCollector, fresh_fn in *.
  unfold bind, gets, modify, ret in *. simpl in *.
  match goal with |- context [watchPojo fuel (VObj l) ?w ?s] =>
    destruct (watchPojo_total fuel l w s Hc Hl Hn) as (st' & E & Hv & _)
  end.
  rewrite E in *. simpl in Hsil. eexists _, st'. split; [done|].
  assert (same_values st st') as Hv' by exact Hv.
  split; [intros obj k v; by apply same_values_get|].
  split; [intros l' ks; by apply same_values_own_keys|done].
Qed.

Lemma observe_is_transparent_witness :
  let st' := state_of (observe 3 (VObj 1) 7 nested_pojo) in
  get (VObj 1) "a" st' = Ok (VObj 0) st' /\
  get (VObj 0) "b" st' = Ok (num 1) st' /\
  own_keys 1 st' = Ok ["a"; "c"] st' /\
  st_trace st' = st_trace nested_pojo.
Proof.
  intros st'.
  destruct (observe_is_transparent 3 nested_pojo 1 7)
    as (h & s & E & Hget & Hkeys & Htr & _).
  - apply closed_checked. apply (bool_decide_unpack _). vm_compute.
    reflexivity.
  - apply (bool_decide_unpack _). vm_compute. reflexivity.
  - vm_compute. lia.
  - intros f. vm_compute. discriminate.
  - assert (st' = s) as -> by (unfold st'; by rewrite E).
    split; [apply Hget; vm_compute; reflexivity|].
    split; [apply Hget; vm_compute; reflexivity|].
    split; [apply Hkeys; vm_compute; reflexivity|exact Htr].
Defined.

(** ** Deep diff *)

(** X11. [diff] is silent when nothing differs.  If every own property
    of the new object is an own property of the old one with the same
    value, in whatever order, [diff] returns without calling [notify] and
    leaves the state as it was; properties only the old object has are not
    reported as removed. *)
Theorem diff_of_unchanged_properties_is_silent (fuel : nat)
    (old new : loc) (o o' : object)
    (notify : string -> value -> value -> M unit) (prefix : string)
    (st : state) :
  st_heap st !! old = Some o -> st_heap st !! new = Some o' ->
  (forall k, k ∈ map fst o' ->
     read <$> lookup_prop k o = read <$> lookup_prop k o') ->
  diff (S fuel) (VObj old) (VObj new) notify prefix st = Ok tt st.
Proof.
  intros Ho Ho' Hsame.
  assert (forall k, k ∈ own_enumeration o' ->
            exists p p', lookup_prop k o = Some p /\
                         lookup_prop k o' = Some p' /\
                         read p = read p') as Hks.
  { intros k Hk%elem_of_own_enumeration. specialize (Hsame k Hk).
    destruct (lookup_prop_keys k o' Hk) as [p' Hp']. rewrite Hp' in Hsame.
    destruct (lookup_prop k o) as [p|]; [|done].
    injection Hsame as Hr. eauto. }
  clear Hsame. simpl. unfold bind at 1. unfold own_keys.
  rewrite Ho'. revert Hks. generalize (own_enumeration o') as ks.
  induction ks as [|k ks IH]; intros Hks; [done|].
  destruct (Hks k) as (p & p' & Hp & Hp' & E); [left|].
  simpl. unfold bind at 1.
  unfold bind, js_in, get, has_own, ret.
  rewrite Ho, Hp. simpl. rewrite Ho, Hp, Ho', Hp'.
  rewrite E, (proj2 (js_is_spec _ _) eq_refl). simpl.
  apply IH. intros k' Hin. apply Hks. by right.
Qed.

Lemma diff_of_unchanged_properties_is_silent_witness :
  diff 1 (VObj 0) (VObj 1) (notify 0) "" reordered = Ok tt reordered.
Proof.
  apply (diff_of_unchanged_properties_is_silent 0 0 1
           [("x", Data (num 1)); ("y", Data nan)]
           [("y", Data nan); ("x", Data (num 1))]).
  - vm_compute. reflexivity.
  - vm_compute. reflexivity.
  - intros k Hk. simpl in Hk.
    apply elem_of_cons in Hk as [->|Hk]; [vm_compute; reflexivity|].
    apply elem_of_cons in Hk as [->|Hk]; [vm_compute; reflexivity|].
    by apply elem_of_nil in Hk.
Defined.

Lemma added_Ok pojo ls st :
  exists st', added pojo ls st = Ok tt st' /\ st_heap st' = st_heap st.
Proof.
  revert st. induction ls as [|[p n] ls IH]; intros st; [by exists st|].
  unfold added. simpl. unfold bind.
  destruct (notify_Ok pojo p VUndef n st) as (s1 & -> & _ & E1 & _).
  destruct (IH s1) as (st' & E & Eh). exists st'. split; [done|].
  by rewrite Eh.
Qed.

Lemma added_app pojo ls1 ls2 st :
  added pojo (ls1 ++ ls2) st
  = (added pojo ls1 ;; added pojo ls2) st.
Proof.
  revert st. induction ls1 as [|[p n] ls1 IH]; intros st; [done|].
  unfold added in *. simpl. unfold bind in *.
  destruct (notify pojo p VUndef n st) as [[] s1|]; [|done]. apply IH.
Qed.

(** X12. An object that replaces a falsy value is reported leaf by leaf.
    When the old value is [undefined], [null], [false], a zero, [NaN] or
    the empty string, and the fuel covers the depth of the new object,
    [diff] calls [notify] once for every leaf of the new object, in
    [for .. in] order, with the dotted path of the leaf, the old value
    [undefined] and the leaf's value, and it returns. *)
Theorem diff_against_nothing_reports_every_leaf (fuel : nat) (pojo : loc)
    (oldObj newObj : value) (prefix : string) (st : state)
    (ls : list (string * value)) :
  truthy oldObj = false ->
  leaves fuel (st_heap st) newObj prefix = Some ls ->
  diff fuel oldObj newObj (notify pojo) prefix st = added pojo ls st /\
  exists st', added pojo ls st = Ok tt st'.
Proof.
  intros Hold Hls. split; [|destruct (added_Ok pojo ls st) as (? & ? & _);
                            eauto].
  revert newObj prefix st ls Hls.
  induction fuel as [|fuel IH]; intros newObj prefix st ls Hls; [done|].
  simpl in Hls. destruct newObj as [| | | | | |l| |]; try done.
  destruct (st_heap st !! l) as [o|] eqn:Ho; [|done].
  simpl. unfold bind at 1. unfold own_keys. rewrite Ho.
  match type of Hls with
    (mbind _ (mapM ?g _)) = _ => set (leaf := g) in *
  end.
  destruct (mapM leaf (own_enumeration o)) as [lss|] eqn:Hm; [|done].
  injection Hls as <-.
  cut (forall ks lss s,
         st_heap s = st_heap st -> mapM leaf ks = Some lss ->
         forEach ks (fun prop =>
           changed <-
             (if negb (truthy oldObj) then ret true
              else
                present <- js_in prop oldObj ;;
                if negb present then ret true
                else
                  o <- get oldObj prop ;;
                  n <- get (VObj l) prop ;;
                  ret (negb (js_is o n))) ;;
           if (changed : bool) then
             n <- get (VObj l) prop ;;
             if is_object n then
               o <- (if truthy oldObj then get oldObj prop
                     else ret oldObj) ;;
               diff fuel o n (notify pojo) (prefix ++ prop ++ ".")
             else
               o <- (if truthy oldObj then get oldObj prop
                     else ret VUndef) ;;
               notify pojo (prefix ++ prop) o n
           else ret tt) s
         = added pojo (concat lss) s).
  { intros Hcut. by apply Hcut. }
  clear lss Hm.
  match goal with |- forall ks lss s, _ -> _ -> forEach ks ?b s = _ =>
    set (body := b) end.
  intros ks. induction ks as [|k ks IHks]; intros lss s Hs Hm.
  { injection Hm as <-. reflexivity. }
  apply mapM_Some in Hm.
  inversion Hm as [|? l1 ? lss' Hl1 Hm']; subst. apply mapM_Some in Hm'.
  assert (body k s = added pojo l1 s) as Hk.
  { unfold leaf in Hl1. unfold body, bind. rewrite Hold. simpl.
    unfold get. rewrite Hs, Ho.
    destruct (lookup_prop k o) as [p|]; [|done].
    destruct (is_object (read p)).
    - unfold ret. apply IH. by rewrite Hs.
    - injection Hl1 as <-. unfold ret, added. simpl. unfold bind.
      by destruct (notify_Ok pojo (prefix ++ k) VUndef (read p) s)
        as (s1 & -> & _). }
  simpl forEach. simpl concat. rewrite added_app.
  unfold bind at 1 2. rewrite Hk.
  destruct (added_Ok pojo l1 s) as (s1 & -> & Eh1).
  apply IHks; [by rewrite Eh1|done].
Qed.

Lemma diff_against_nothing_reports_every_leaf_witness :
  diff 3 VUndef (VObj 1) (notify 1) "p." observed_nested
  = added 1 [("p.a.b", num 1); ("p.c", num 2)] observed_nested /\
  diff 2 VNull (VObj 0) (notify 0) "a." indexed
  = added 0 [("a.2", num 3); ("a.10", num 2); ("a.b", num 1)] indexed.
Proof.
  split.
  - apply (diff_against_nothing_reports_every_leaf 3 1 VUndef (VObj 1) "p."
             observed_nested [("p.a.b", num 1); ("p.c", num 2)]).
    + reflexivity.
    + vm_compute. reflexivity.
  - apply (diff_against_nothing_reports_every_leaf 2 0 VNull (VObj 0) "a."
             indexed [("a.2", num 3); ("a.10", num 2); ("a.b", num 1)]).
    + reflexivity.
    + vm_compute. reflexivity.
Defined.

(** ** Replacing an object *)

(** X13. The setter takes the watch off the value it replaces.  Assigning
    a different value that is not an object to a property whose old value
    was being watched returns; the listener that watch had put on the old
    object is gone from its listeners, the others stay in their order, no
    other listener sequence changes, and the accessor now holds the new
    value and no nested watch. *)
Theorem setter_detaches_old_nested_watch (fuel : nat) (st : state)
    (pojo : loc) (prop : string) (o : object) (curVal newVal : value)
    (h : handle) (cb : listener) (callbacks : list listener) :
  st_heap st !! pojo = Some o ->
  lookup_prop prop o = Some (Accessor curVal (Some h) cb) ->
  st_map st !! h_pojo h = Some callbacks ->
  NoDup (fid_of <$> callbacks) ->
  js_is newVal curVal = false ->
  is_object newVal = false ->
  exists st' o',
    assign fuel pojo prop newVal st = Ok tt st' /\
    st_map st' = alter (remove_first (h_callback h)) (h_pojo h) (st_map st) /\
    st_map st' !! h_pojo h = Some (others (h_callback h) callbacks) /\
    st_heap st' !! pojo = Some o' /\
    lookup_prop prop o' = Some (Accessor newVal None cb).
Proof.
  intros Ho Hp Hm Hnd Hne Hprim.
  destruct (assign_primitive fuel st pojo prop o curVal (Some h) cb newVal
              Ho Hp Hne Hprim) as (st' & o' & E & Ho' & Hp' & _).
  exists st', o'. split; [done|].
  assert (st_map st'
          = alter (remove_first (h_callback h)) (h_pojo h) (st_map st))
    as Em.
  { unfold assign in E. rewrite Ho, Hp in E. unfold setter in E.
    rewrite Hne, Hprim in E.
    unfold bind, remove, store_cell, modify, ret in E. simpl in E.
    match type of E with notify pojo prop curVal newVal ?s = _ =>
      destruct (notify_Ok pojo prop curVal newVal s)
        as (s' & E' & _ & _ & Em) end.
    rewrite E' in E. injection E as <-. by rewrite Em. }
  split; [done|]. split; [|done].
  rewrite Em, lookup_alter_eq, Hm. simpl. by rewrite remove_first_others.
Qed.

Lemma setter_detaches_old_nested_watch_witness :
  exists st',
    assign 3 1 "a" (num 5) observed_nested = Ok tt st' /\
    st_map observed_nested !! 0
    = Some [Nested 1 "a" (OnChange 0 (mkCollector 0 7))] /\
    st_map st' !! 0 = Some [].
Proof.
  destruct (setter_detaches_old_nested_watch 3 observed_nested 1 "a"
              [("a", Accessor (VObj 0)
                       (Some (mkHandle 0
                          (Nested 1 "a" (OnChange 0 (mkCollector 0 7)))))
                       (OnChange 0 (mkCollector 0 7)));
               ("c", Accessor (num 2) None (OnChange 0 (mkCollector 0 7)))]
              (VObj 0) (num 5)
              (mkHandle 0 (Nested 1 "a" (OnChange 0 (mkCollector 0 7))))
              (OnChange 0 (mkCollector 0 7))
              [Nested 1 "a" (OnChange 0 (mkCollector 0 7))])
    as (st' & o' & E & _ & Hm & _).
  - vm_compute. reflexivity.
  - vm_compute. reflexivity.
  - vm_compute. reflexivity.
  - apply (bool_decide_unpack _). vm_compute. reflexivity.
  - vm_compute. reflexivity.
  - vm_compute. reflexivity.
  - exists st'. split; [exact E|]. split; [vm_compute; reflexivity|].
    exact Hm.
Defined.

(** ** No change is lost *)

#[local] Instance keeps_sound_preorder b : PreOrder (keeps_sound b).
Proof. unfold keeps_sound. split; [intros ?|intros ? ? ?]; auto. Qed.

Lemma sound_frame st st' :
  sound_side st = sound_side st' -> sound st -> sound st'.
Proof.
  unfold sound_side, sound, listeners_known, notified_known, accounted,
    oldVals_at.
  intros [= Hh Hm Hs Ho Ht]. by rewrite Hh, Hm, Hs, Ho, Ht.
Qed.

Lemma keeps_sound_frame b st st' :
  sound_side st = sound_side st' -> keeps_sound b st st'.
Proof.
  intros E [H Hb]. split; [by eapply sound_frame|].
  unfold sound_side in E. injection E as _ _ <- _ _. done.
Qed.

Lemma handed_over_app tr tr' i s p :
  handed_over tr i s p -> handed_over (tr ++ tr') i s p.
Proof.
  intros (j & c & m & Hij & Hj & Hc & Hp). exists j, c, m.
  split; [done|]. split; [|done]. by apply lookup_app_l_Some.
Qed.

Lemma onChange_effect this p o st :
  let st' := state_of (onChange this p o st) in
  st_heap st' = st_heap st /\ st_map st' = st_map st /\
  st_seq st' = st_seq st /\ st_trace st' = st_trace st /\
  st_oldVals st'
  = if in_oldVals p (oldVals_of st this) then st_oldVals st
    else <[c_seq this := <[p := o]> (oldVals_of st this)]> (st_oldVals st).
Proof.
  unfold onChange, bind, gets, modify, schedule, ret. simpl.
  destruct (in_oldVals p (oldVals_of st this)); simpl;
    destruct (st_deliverHandle st); simpl; done.
Qed.

(** Logging a call that is no intake. *)
Lemma sound_log_other e st :
  (forall fid c p o n, e <> Notified (OnChange fid c) p o n) ->
  sound st -> sound (log e st).
Proof.
  intros He (G & B & A). split; [done|]. split.
  - intros i fid c p o n Hi. simpl in Hi.
    apply lookup_app_Some in Hi as [Hi|[_ Hi]]; [by eapply B|].
    apply list_lookup_singleton_Some in Hi as [_ ->].
    by destruct (He fid c p o n).
  - intros i fid c p o n Hi Hp. simpl in Hi.
    apply lookup_app_Some in Hi as [Hi|[_ Hi]].
    + destruct (A i fid c p o n Hi Hp) as [H|H]; [left|by right].
      by apply handed_over_app.
    + apply list_lookup_singleton_Some in Hi as [_ ->].
      by destruct (He fid c p o n).
Qed.

(** The intake keeps the record: the change it is called with is on
    record when it returns. *)
Lemma call_sound w p o n st :
  sound st -> known (st_seq st) w ->
  let st' := state_of (call w p o n st) in
  sound st' /\ st_seq st' = st_seq st /\ st_map st' = st_map st /\
  st_heap st' = st_heap st.
Proof.
  revert p st. induction w as [fid c|fid outer cb IH]; intros p st Hs Hk.
  - simpl. unfold bind, modify.
    set (st0 := log (Notified (OnChange fid c) p o n) st).
    destruct (onChange_effect c p o st0) as (Eh & Em & Es & Et & Eo).
    destruct (onChange_Ok c p o st0) as (st' & E & _).
    rewrite E in *. simpl in *. split; [|done].
    destruct Hs as ((G1 & G2) & B & A).
    split; [|split].
    + split.
      * intros l cbs w. rewrite Em, Es. apply G1.
      * intros l ob k v nw cb. rewrite Eh, Es. apply G2.
    + intros i fid' c' p' o' n' Hi. rewrite Es. rewrite Et in Hi.
      apply lookup_app_Some in Hi as [Hi|[_ Hi]]; [by eapply B|].
      apply list_lookup_singleton_Some in Hi as [_ [= <- <- <- <- <-]].
      exact Hk.
    + assert (forall s q, is_Some (oldVals_at st s !! q) ->
                          is_Some (oldVals_at st' s !! q)) as Hmono.
      { intros s q Hq. unfold oldVals_at. rewrite Eo.
        destruct (in_oldVals p (oldVals_of st0 c)); [done|].
        destruct (decide (s = c_seq c)) as [->|Hne].
        - rewrite lookup_insert_eq. simpl.
          destruct (decide (q = p)) as [->|Hq'].
          + rewrite lookup_insert_eq. eauto.
          + by rewrite lookup_insert_ne.
        - by rewrite lookup_insert_ne. }
      intros i fid' c' p' o' n' Hi Hp. rewrite Et in *.
      apply lookup_app_Some in Hi as [Hi|[_ Hi]].
      * destruct (A i fid' c' p' o' n' Hi Hp) as [H|H].
        -- left. by apply handed_over_app.
        -- right. by apply Hmono.
      * apply list_lookup_singleton_Some in Hi as [_ [= <- <- <- <- <-]].
        right. unfold oldVals_at. rewrite Eo.
        unfold in_oldVals, oldVals_of. rewrite Hp.
        change (st_oldVals st0) with (st_oldVals st).
        destruct (default ∅ (st_oldVals st !! c_seq c) !! p) as [v|] eqn:Hv.
        -- by rewrite Hv.
        -- rewrite lookup_insert_eq. simpl. rewrite lookup_insert_eq. eauto.
  - simpl. unfold bind, modify.
    set (st0 := log (Notified (Nested fid outer cb) p o n) st).
    destruct (IH (outer ++ "." ++ p) st0) as (H1 & H2 & H3 & H4);
      [|exact Hk|done].
    apply sound_log_other; [|done]. intros; discriminate.
Qed.

Lemma forEach_call_sound cbs p o n st :
  sound st -> Forall (known (st_seq st)) cbs ->
  let st' := state_of (forEach cbs (fun w => call w p o n) st) in
  sound st' /\ st_seq st' = st_seq st /\ st_map st' = st_map st /\
  st_heap st' = st_heap st.
Proof.
  revert st. induction cbs as [|w ws IH]; intros st Hs Hk; [done|].
  apply Forall_cons in Hk as [Hw Hws]. simpl. unfold bind.
  destruct (call_sound w p o n st Hs Hw) as (Hs1 & E1 & Em1 & Eh1).
  destruct (call_Ok w p o n st) as (s1 & E & _). rewrite E in *.
  simpl in *. rewrite <- E1, <- Em1, <- Eh1. apply IH; [done|].
  by rewrite E1.
Qed.

Lemma notify_sound pojo p o n st :
  sound st ->
  let st' := state_of (notify pojo p o n st) in
  sound st' /\ st_seq st' = st_seq st.
Proof.
  intros Hs. unfold notify, bind, gets.
  destruct (forEach_call_sound (default [] (st_map st !! pojo)) p o n st Hs)
    as (H1 & H2 & _); [|done].
  apply Forall_forall. intros w Hw.
  destruct Hs as ((G1 & _) & _).
  destruct (st_map st !! pojo) as [cbs|] eqn:Hm; [|by apply elem_of_nil in Hw].
  by eapply G1.
Qed.

Lemma steps_notify_sound b pojo p o n :
  steps (keeps_sound b) (notify pojo p o n).
Proof.
  intros st [Hs Hb]. destruct (notify_sound pojo p o n st Hs) as [H E].
  split; [done|]. by rewrite E.
Qed.

Lemma steps_diff_sound b fuel oldObj newObj notify prefix :
  (forall p o n, steps (keeps_sound b) (notify p o n)) ->
  steps (keeps_sound b) (diff fuel oldObj newObj notify prefix).
Proof.
  intros Hn. revert oldObj newObj prefix.
  induction fuel as [|fuel IH]; intros oldObj newObj prefix; simpl;
    walk_by idtac.
Qed.

(** Changes of the listener sequences and of the accessors. *)
Lemma sound_with_map f st :
  sound st ->
  (forall l cbs w,
     f (st_map st) !! l = Some cbs -> w ∈ cbs -> known (st_seq st) w) ->
  sound (with_map f st).
Proof. intros ((_ & G2) & B & A) H. by repeat split. Qed.

Lemma sound_with_heap f st :
  sound st ->
  (forall l o k v nw cb,
     f (st_heap st) !! l = Some o -> (k, Accessor v nw cb) ∈ o ->
     known (st_seq st) cb) ->
  sound (with_heap f st).
Proof. intros ((G1 & _) & B & A) H. by repeat split. Qed.

Lemma elem_of_remove_first w0 w ws :
  w ∈ remove_first w0 ws -> w ∈ ws.
Proof.
  induction ws as [|v ws IH]; simpl; [done|].
  destruct (Nat.eqb (fid_of v) (fid_of w0)).
  - by right.
  - intros [->|H]%elem_of_cons; [left|right; auto].
Qed.

Lemma elem_of_replace_prop prop p k q (o : object) :
  (k, q) ∈ replace_prop prop p o -> (k, q) ∈ o \/ q = p.
Proof.
  induction o as [|[k' q'] o IH]; simpl; [by left|].
  destruct (String.eqb k' prop).
  - intros [[= -> ->]|H]%elem_of_cons; [by right|left; by right].
  - intros [[= -> ->]|H]%elem_of_cons; [left; left|].
    destruct (IH H); [left; by right|by right].
Qed.

Lemma keeps_sound_register b l st :
  keeps_sound b st (with_map <[l := []]> st).
Proof.
  intros [Hs Hb]. split; [|done]. apply sound_with_map; [done|].
  intros l' cbs w Hl Hw.
  apply lookup_insert_Some in Hl as [[_ <-]|[_ Hl]];
    [by apply elem_of_nil in Hw|].
  destruct Hs as ((G1 & _) & _). by eapply G1.
Qed.

Lemma keeps_sound_push b cb l st :
  S (c_seq (target cb)) <= b ->
  keeps_sound b st (with_map (alter (fun cbs => cbs ++ [cb])%list l) st).
Proof.
  intros Hcb [Hs Hb]. split; [|done]. apply sound_with_map; [done|].
  intros l' cbs w Hl Hw. destruct Hs as ((G1 & _) & _).
  apply lookup_alter_Some in Hl as [(_ & cbs0 & Hl & ->)|[_ Hl]];
    [|by eapply G1].
  apply elem_of_app in Hw as [Hw|Hw]; [by eapply G1|].
  apply list_elem_of_singleton in Hw as ->. unfold known. simpl in *. lia.
Qed.

Lemma keeps_sound_remove b w0 l st :
  keeps_sound b st (with_map (alter (remove_first w0) l) st).
Proof.
  intros [Hs Hb]. split; [|done]. apply sound_with_map; [done|].
  intros l' cbs w Hl Hw. destruct Hs as ((G1 & _) & _).
  apply lookup_alter_Some in Hl as [(_ & cbs0 & Hl & ->)|[_ Hl]];
    [|by eapply G1].
  apply elem_of_remove_first in Hw. by eapply G1.
Qed.

Lemma keeps_sound_store b pojo prop cell st :
  cell_known b cell ->
  keeps_sound b st (with_heap (alter (replace_prop prop cell) pojo) st).
Proof.
  intros Hc [Hs Hb]. split; [|done]. apply sound_with_heap; [done|].
  intros l o k v nw cb Hl Hk. destruct Hs as ((_ & G2) & _).
  apply lookup_alter_Some in Hl as [(_ & o0 & Hl & ->)|[_ Hl]];
    [|by eapply G2].
  apply elem_of_replace_prop in Hk as [Hk|<-]; [by eapply G2|].
  unfold known. simpl in *. lia.
Qed.

Lemma steps_nested_listener (R : relation state) `{!PreOrder R} {A}
    prop cb (k : listener -> M A) :
  (forall n st, R st (with_next_fn n st)) ->
  (forall fid, steps R (k (Nested fid prop cb))) ->
  steps R (f <- nested_listener prop cb ;; k f).
Proof.
  intros Hn Hk st. unfold nested_listener, fresh_fn, bind, gets, modify, ret.
  simpl. etransitivity; [apply Hn|apply Hk].
Qed.

(** As [walk_by], keeping track of the closure [nested_listener] makes. *)
Ltac walk_closures tac :=
  repeat match goal with
  | |- PreOrder _ => apply _
  | |- steps _ (ret _) => apply steps_ret
  | |- steps _ (throw _) => apply steps_throw
  | |- steps _ (gets _) => apply steps_gets
  | |- steps _ (own_keys _) => apply steps_own_keys
  | |- steps _ (get _ _) => apply steps_get
  | |- steps _ (js_in _ _) => apply steps_js_in
  | |- steps _ (modify _) => apply steps_modify; intros ?; tac
  | |- steps _ (bind (nested_listener _ _) _) =>
      apply steps_nested_listener; [|intros ? ?; tac|intros ?]
  | |- steps _ (bind _ _) => apply steps_bind; [| |intros ?]
  | |- steps _ (forEach _ _) => apply steps_forEach; [|intros ?]
  | |- steps _ (if ?b then _ else _) => destruct b
  | |- steps _ (match ?x with _ => _ end) => destruct x
  | |- steps _ _ => solve [auto]
  end.

Ltac sound_step :=
  first [ apply keeps_sound_register
        | apply keeps_sound_remove
        | apply keeps_sound_push; simpl; assumption
        | apply keeps_sound_store; simpl; assumption
        | apply keeps_sound_frame; reflexivity ].

Lemma steps_watchPojo_sound b fuel pojo callback :
  S (c_seq (target callback)) <= b ->
  steps (keeps_sound b) (watchPojo fuel pojo callback).
Proof.
  revert pojo callback.
  induction fuel as [|fuel IH]; intros pojo callback Hcb;
    destruct pojo; simpl;
    unfold intercept, defineProperty, store_cell;
    walk_closures sound_step.
Qed.

Lemma steps_setter_sound b fuel pojo prop cell newVal :
  cell_known b cell ->
  steps (keeps_sound b) (setter fuel pojo prop cell newVal).
Proof.
  intros Hc.
  pose proof (steps_watchPojo_sound b fuel).
  pose proof (fun p => steps_diff_sound b fuel p newVal (notify pojo)
                         (prop ++ ".") (steps_notify_sound b pojo)).
  pose proof (steps_notify_sound b pojo).
  destruct cell as [v|curVal nw cb]; simpl in Hc;
    unfold setter, remove, store_cell; walk_closures sound_step.
Qed.

Lemma seq_le_keeps_sound b b' st st' :
  keeps_sound (Nat.max b b') st st' ->
  sound st -> b <= st_seq st -> b' <= st_seq st ->
  sound st' /\ b <= st_seq st'.
Proof.
  intros H Hs Hb Hb'. destruct H as [H1 H2]; [split; [done|lia]|].
  split; [done|lia].
Qed.

Lemma steps_assign_sound b fuel pojo prop newVal :
  steps (keeps_sound b) (assign fuel pojo prop newVal).
Proof.
  intros st [Hs Hb]. unfold assign.
  destruct (st_heap st !! pojo) as [o|] eqn:Ho; [|done].
  destruct (lookup_prop prop o) as [[v|curVal nw cb]|] eqn:Hp.
  - by apply (keeps_sound_store b pojo prop (Data newVal) st I).
  - assert (known (st_seq st) cb) as Hk.
    { destruct Hs as ((_ & G2) & _). eapply G2; [exact Ho|].
      by apply lookup_prop_elem_of. }
    apply (seq_le_keeps_sound b (S (c_seq (target cb))) st);
      [|done|done|exact Hk].
    apply steps_setter_sound. simpl. lia.
  - destruct (String.eqb prop "__proto__"); [done|].
    unfold modify. simpl. split; [|done].
    apply sound_with_heap; [done|].
    intros l o' k v nw cb Hl Hk. destruct Hs as ((_ & G2) & _).
    apply lookup_insert_Some in Hl as [[_ <-]|[_ Hl]]; [|by eapply G2].
    unfold set_own in Hk. rewrite Hp in Hk.
    apply elem_of_app in Hk as [Hk|Hk]; [by eapply G2|].
    by apply list_elem_of_singleton in Hk.
Qed.

(** A new collector takes a number nobody holds. *)
Lemma new_ChangeCollector_sound callback st :
  sound st ->
  sound (state_of (new_ChangeCollector callback st)).
Proof.
  intros ((G1 & G2) & B & A). simpl. split; [split|split].
  - intros l cbs w Hl Hw. specialize (G1 l cbs w Hl Hw).
    unfold known in *. simpl. lia.
  - intros l o k v nw cb Hl Hk. specialize (G2 l o k v nw cb Hl Hk).
    unfold known in *. simpl. lia.
  - intros i fid c p o n Hi. specialize (B i fid c p o n Hi). simpl. lia.
  - intros i fid c p o n Hi Hp. simpl in Hi.
    destruct (A i fid c p o n Hi Hp) as [H|H]; [by left|right].
    specialize (B i fid c p o n Hi).
    unfold oldVals_at in *. simpl. rewrite lookup_insert_ne by lia. done.
Qed.

Lemma steps_observe_sound b fuel obj callback :
  steps (keeps_sound b) (observe fuel obj callback).
Proof.
  intros st. unfold observe. unfold bind at 1.
  assert (state_of (observe_member obj st) = st) as Em.
  { destruct obj as [| | | | | |l| |]; try done. simpl. unfold bind, get.
    destruct (st_heap st !! l) as [ob|]; [|done].
    destruct (lookup_prop "observe" ob); [done|].
    by destruct (inherited "observe"). }
  destruct (observe_member obj st) as [[f|] s|e s]; simpl in Em; subst s;
    [reflexivity| |reflexivity].
  unfold bind at 1. unfold observePojo. unfold bind at 1.
  unfold new_ChangeCollector.
  unfold bind at 1 2 3, gets at 1, modify at 1 2, ret at 1. simpl.
  unfold fresh_fn. unfold bind at 1 2 3, gets at 1, modify at 1, ret at 1.
  simpl.
  match goal with |- context [watchPojo fuel obj ?w ?s] =>
    pose proof (steps_watchPojo_sound (Nat.max b (S (st_seq st)))
                  fuel obj w) as Hw;
    specialize (Hw ltac:(simpl; lia) s);
    destruct (watchPojo fuel obj w s) as [h s'|e s']
  end; simpl in *; intros [Hs Hb];
    (destruct Hw as [H1 H2];
     [split; [|simpl; lia];
      eapply sound_frame;
        [|exact (new_ChangeCollector_sound callback st Hs)]; reflexivity
     |split; [done|lia]]).
Qed.

Lemma set_own_data_only k v (o : object) :
  (forall k' c, (k', c) ∈ o -> exists v', c = Data v') ->
  forall k' c, (k', c) ∈ set_own k (Data v) o -> exists v', c = Data v'.
Proof.
  intros Ho k' c. unfold set_own.
  destruct (lookup_prop k o).
  - intros [H| ->]%elem_of_replace_prop; eauto.
  - intros [H|H]%elem_of_app; [eauto|].
    apply list_elem_of_singleton in H as [= _ ->]. eauto.
Qed.

Lemma new_object_data_only (fields : list (string * value)) (o : object) :
  (forall k c, (k, c) ∈ o -> exists v, c = Data v) ->
  forall k c,
    (k, c) ∈ fold_left (fun o kv => set_own (fst kv) (Data (snd kv)) o)
               fields o ->
    exists v, c = Data v.
Proof.
  revert o. induction fields as [|[k0 v0] fields IH]; intros o Ho; [done|].
  simpl. apply IH. by apply set_own_data_only.
Qed.

Lemma steps_exec_sound b fuel a : steps (keeps_sound b) (exec fuel a).
Proof.
  destruct a as [pojo prop newVal|fields| |obj callback|i]; simpl.
  - apply steps_assign_sound.
  - destruct (existsb _ fields); [apply steps_throw; apply _|].
    intros st [Hs Hb]. unfold bind, gets, modify. simpl. split; [|done].
    apply sound_with_heap.
    + eapply sound_frame; [|exact Hs]. reflexivity.
    + intros l o k v nw cb Hl Hk. destruct Hs as ((_ & G2) & _). simpl in *.
      apply lookup_insert_Some in Hl as [[_ <-]|[_ Hl]]; [|by eapply G2].
      apply new_object_data_only in Hk as [v' [=]].
      by intros ? ? ?%elem_of_nil.
  - walk_closures sound_step.
  - pose proof (steps_observe_sound b fuel). walk_closures sound_step.
  - unfold remove. walk_closures sound_step.
Qed.

Lemma steps_run_sound b fuel script : steps (keeps_sound b) (run fuel script).
Proof.
  pose proof (steps_exec_sound b fuel). unfold run. walk_closures sound_step.
Qed.

(** A delivery hands over what is on record for the collector. *)
Lemma steps_deliver_sound b cl fuel this :
  steps (keeps_sound b) (deliver cl fuel this).
Proof.
  intros st. unfold deliver.
  unfold bind at 1 2 3 4, gets at 1 2, modify at 1 2. simpl.
  match goal with |- context [run fuel ?body ?s] =>
    pose proof (steps_run_sound b fuel body s) as Hrun;
    set (s1 := s) in *
  end.
  intros [Hs Hb]. apply Hrun. split; [|done]. clear Hrun.
  destruct Hs as (G & B & A). split; [done|]. split.
  - intros i fid c p o n Hi. simpl in Hi.
    apply lookup_app_Some in Hi as [Hi|[_ Hi]]; [by eapply B|].
    by apply list_lookup_singleton_Some in Hi as [_ [=]].
  - intros i fid c p o n Hi Hp. simpl in Hi.
    apply lookup_app_Some in Hi as [Hi|[_ Hi]];
      [|by apply list_lookup_singleton_Some in Hi as [_ [=]]].
    destruct (A i fid c p o n Hi Hp) as [H|H].
    { left. by apply handed_over_app. }
    destruct (decide (c_seq c = c_seq this)) as [E|Hne].
    + left. exists (length (st_trace st)), this, (oldVals_of st this).
      split; [by eapply lookup_lt_Some|]. split.
      * simpl. by rewrite lookup_app_r, Nat.sub_diag by lia.
      * split; [done|]. unfold oldVals_of. rewrite <- E. exact H.
    + right. unfold oldVals_at in *. simpl.
      by rewrite lookup_insert_ne.
Qed.

Lemma steps_deliverAllByTimeout_sound b cl fuel :
  steps (keeps_sound b) (deliverAllByTimeout cl fuel).
Proof.
  pose proof (steps_deliver_sound b cl).
  induction fuel as [|fuel IH]; simpl; walk_closures sound_step.
Qed.

Lemma steps_task_sound b cl fuel script :
  steps (keeps_sound b) (task cl fuel script).
Proof.
  pose proof (steps_run_sound b fuel).
  pose proof (steps_deliverAllByTimeout_sound b cl fuel).
  unfold task, end_of_task. walk_closures sound_step.
Qed.

Lemma settled_init : settled init.
Proof.
  split.
  - repeat split. intros s m H. simpl in H. by rewrite lookup_empty in H.
  - split; [split|split].
    + intros l cbs w H. simpl in H. by rewrite lookup_empty in H.
    + intros l o k v nw cb H. simpl in H. by rewrite lookup_empty in H.
    + intros i fid c p o n H. by simpl in H.
    + intros i fid c p o n H. by simpl in H.
Qed.

(** X3. No change is lost.  In a state with nothing recorded, pending or
    scheduled, in which every registered listener ends in a collector that
    [new ChangeCollector] made and every change a collector took was handed
    to its callback, a task that returns ends in such a state again: every
    call of a collector's [onChange] with a path that is no name of
    [Object.prototype], in the script or in a callback, is followed in the
    record of calls by a call of the callback of the collector with that
    number, with a summary that holds the path; [deliverHandle] is clear
    and the host holds no request. *)
Theorem no_change_is_lost (cl : client) (fuel : nat)
    (script : list action) (st st' : state) :
  settled st ->
  task cl fuel script st = Ok tt st' ->
  settled st' /\ all_delivered (st_trace st').
Proof.
  intros [Hq Hs] H.
  pose proof (task_ends_quiescent cl fuel script st st' Hq H) as Hq'.
  destruct (steps_task_sound 0 cl fuel script st) as [Hs' _];
    [split; [done|lia]|].
  rewrite H in Hs'. simpl in Hs'. split; [done|].
  destruct Hs' as (_ & _ & A). destruct Hq' as (_ & _ & _ & Ho).
  intros i fid c p o n Hi Hp.
  destruct (A i fid c p o n Hi Hp) as [Hd|[v Hv]]; [done|].
  unfold oldVals_at in Hv.
  destruct (st_oldVals st' !! c_seq c) as [m|] eqn:Hm; simpl in Hv.
  - by rewrite (Ho _ _ Hm), lookup_empty in Hv.
  - by rewrite lookup_empty in Hv.
Qed.

Lemma no_change_is_lost_witness :
  let st' := state_of (task cascading 5 cascade init) in
  settled st' /\
  all_delivered (st_trace st') /\
  st_trace st'
  = [ Notified (OnChange 1 (mkCollector 1 10)) "x" (num 0) (num 1);
      Delivered (mkCollector 1 10) {[ "x" := num 0 ]};
      Notified (OnChange 0 (mkCollector 0 11)) "x" (num 0) (num 7);
      Delivered (mkCollector 0 11) {[ "x" := num 0 ]} ].
Proof.
  intros st'.
  destruct (no_change_is_lost cascading 5 cascade init st' settled_init)
    as [H1 H2].
  - vm_compute. reflexivity.
  - split; [exact H1|]. split; [exact H2|]. vm_compute. reflexivity.
Defined.
